(** * VolleyBratansStream relay: a shallow embedding of the Go backend

    The development follows the Go sources of the relay:
    - the hub event loop [Relay.Run] and [Relay.notifyBrowsers] (relay/main.go
      and the monolithic main package),
    - the rate limiter, the session store and the bot filter of the
      [services] package and of the monolithic auth file,
    - the login handlers ([AuthHandler.HandleLogin] and [handleLogin]),
    - the versioned stores ([MatchdayStore], [ScoutStore]).

    Go pointers are addresses into an explicit heap, Go maps are [gmap]s,
    buffered channels are queues with a capacity and a closed flag, [int64]
    arithmetic wraps, and a Go panic is the [None] of the option monad. *)

From Stdlib Require Import ZArith Lia Ascii String.
From stdpp Require Import gmap strings list fin_maps.

Local Open Scope string_scope.
Local Open Scope list_scope.

(** ** Machine integers *)

Definition min_int64 : Z := (- 2 ^ 63)%Z.
Definition max_int64 : Z := (2 ^ 63 - 1)%Z.

(** Two's complement wrap-around of a 64-bit signed integer. *)
Definition wrap64 (z : Z) : Z := ((z + 2 ^ 63) mod 2 ^ 64 - 2 ^ 63)%Z.

Definition add64 (a b : Z) : Z := wrap64 (a + b).
Definition neg64 (a : Z) : Z := wrap64 (- a).

(** ** Go standard library functions the sources call

    They are not code of the repository: the handlers and stores are
    parametrised over them. *)

Record LoginRequest := { LoginRequest_PIN : string }.

Class GoStdlib := {
  (** [filepath.Join] *)
  filepath_Join : list string → string;
  (** [hex.EncodeToString(sha256.Sum256(s)[:8])] *)
  sha256_hex8 : string → string;
  (** [hex.EncodeToString] on the 32 bytes read from [crypto/rand] *)
  hex_EncodeToString : list Z → string;
  (** [json.NewDecoder(body).Decode(&req)] for a [LoginRequest]; [None] is a
      decoding error *)
  json_Decode_LoginRequest : string → option LoginRequest;
  (** [strings.TrimSpace] *)
  strings_TrimSpace : string → string;
  (** first component of [net.SplitHostPort] *)
  net_SplitHostPort : string → string;
  (** [t.Format(time.RFC3339)] of an instant *)
  time_Format_RFC3339 : Z → string;
}.

(** ** Relay hub (relay/main.go, [Relay.Run]) *)

Module Hub.

(** [type ClientType string] with its two constants. *)
Definition ClientType := string.
Definition ClientTypeMoblin : ClientType := "moblin".
Definition ClientTypeBrowser : ClientType := "browser".

(** A frame is a [[]byte]. *)
Definition frame := string.

(** [make(chan []byte, 256)]: the queued frames and whether the channel was
    closed. *)
Record Chan := { buf : list frame; closed : bool }.

Definition SendCap : nat := 256.

Definition makeChan : Chan := {| buf := []; closed := false |}.

(** [select { case ch <- m: default: }].  A send on a closed channel panics;
    on a full buffer the default branch is taken. *)
Definition trySend (m : frame) (ch : Chan) : option Chan :=
  if closed ch then None
  else if decide (length (buf ch) < SendCap)%nat
       then Some {| buf := buf ch ++ [m]; closed := false |}
       else Some ch.

(** [close(ch)]; closing a closed channel panics. *)
Definition closeChan (ch : Chan) : option Chan :=
  if closed ch then None else Some {| buf := buf ch; closed := true |}.

(** [type Client struct]; the connection, the back pointer to the relay and
    the mutex carry no data of the registry. *)
Record Client := {
  ID : string;
  Type_ : ClientType;
  Send : Chan;
  Authorized : bool;
}.

Definition setSend (c : Client) (ch : Chan) : Client :=
  {| ID := ID c; Type_ := Type_ c; Send := ch; Authorized := Authorized c |}.

(** A [*Client]. *)
Definition ptr := nat.

(** [type Relay struct]: the maps hold pointers, so one client object is
    shared by [clients], [browsers] and the [moblin] slot. *)
Record Relay := {
  heap : gmap ptr Client;
  clients : gmap string ptr;
  moblin : option ptr;
  browsers : gmap string ptr;
  password : string;
}.

Definition NewRelay (pw : string) : Relay :=
  {| heap := ∅; clients := ∅; moblin := None; browsers := ∅; password := pw |}.

Definition setHeap (r : Relay) (h : gmap ptr Client) : Relay :=
  {| heap := h; clients := clients r; moblin := moblin r;
     browsers := browsers r; password := password r |}.

Definition setClients (r : Relay) (m : gmap string ptr) : Relay :=
  {| heap := heap r; clients := m; moblin := moblin r;
     browsers := browsers r; password := password r |}.

Definition setMoblin (r : Relay) (o : option ptr) : Relay :=
  {| heap := heap r; clients := clients r; moblin := o;
     browsers := browsers r; password := password r |}.

Definition setBrowsers (r : Relay) (m : gmap string ptr) : Relay :=
  {| heap := heap r; clients := clients r; moblin := moblin r;
     browsers := m; password := password r |}.

(** [type Message struct]: the fields the relay itself ever sets; every
    other field is [omitempty] and left at its zero value. *)
Record Message := {
  Msg_Type : string;
  Msg_Message : string;
  Msg_Status : string;
}.

Definition quote : string := String "034"%char EmptyString.

(** [json.Marshal] of a [Message] whose strings need no escaping: the
    [type] key is always present, [message] and [status] only when
    non-empty, in the order of the struct. *)
Definition marshal (m : Message) : frame :=
  "{" +:+ quote +:+ "type" +:+ quote +:+ ":" +:+ quote +:+ Msg_Type m +:+ quote
  +:+ (if decide (Msg_Message m = "") then ""
       else "," +:+ quote +:+ "message" +:+ quote +:+ ":" +:+ quote
            +:+ Msg_Message m +:+ quote)
  +:+ (if decide (Msg_Status m = "") then ""
       else "," +:+ quote +:+ "status" +:+ quote +:+ ":" +:+ quote
            +:+ Msg_Status m +:+ quote)
  +:+ "}".

Definition typeOnly (t : string) : Message :=
  {| Msg_Type := t; Msg_Message := ""; Msg_Status := "" |}.

(** The non-blocking send to the client behind a pointer. *)
Definition trySendTo (m : frame) (h : gmap ptr Client) (p : ptr)
  : option (gmap ptr Client) :=
  c ← h !! p;
  ch ← trySend m (Send c);
  Some (<[p := setSend c ch]> h).

(** The body of [for _, client := range ...] with a non-blocking send. *)
Fixpoint sendAll (m : frame) (ps : list ptr) (h : gmap ptr Client)
  : option (gmap ptr Client) :=
  match ps with
  | [] => Some h
  | p :: ps' => h' ← trySendTo m h p; sendAll m ps' h'
  end.

(** The pointers a Go map holds, in one iteration order. *)
Definition values (m : gmap string ptr) : list ptr := (map_to_list m).*2.

(** [func (r *Relay) notifyBrowsers(msg Message)] *)
Definition notifyBrowsers (r : Relay) (msg : Message) : option Relay :=
  h ← sendAll (marshal msg) (values (browsers r)) (heap r);
  Some (setHeap r h).

(** The three channels the event loop selects on. *)
Inductive Event :=
  | EvRegister (p : ptr)
  | EvUnregister (p : ptr)
  | EvBroadcast (m : frame).

(** One iteration of [for { select { ... } }] in [Relay.Run]. *)
Definition Run_step (r : Relay) (e : Event) : option Relay :=
  match e with
  | EvRegister p =>
      client ← heap r !! p;
      let r := setClients r (<[ID client := p]> (clients r)) in
      if decide (Type_ client = ClientTypeMoblin) then
        notifyBrowsers (setMoblin r (Some p)) (typeOnly "moblin_connected")
      else
        Some (setBrowsers r (<[ID client := p]> (browsers r)))
  | EvUnregister p =>
      client ← heap r !! p;
      match clients r !! ID client with
      | Some _ =>
          let r := setClients r (delete (ID client) (clients r)) in
          ch ← closeChan (Send client);
          let r := setHeap r (<[p := setSend client ch]> (heap r)) in
          if decide (Type_ client = ClientTypeMoblin) then
            notifyBrowsers (setMoblin r None) (typeOnly "moblin_disconnected")
          else
            Some (setBrowsers r (delete (ID client) (browsers r)))
      | None => Some r
      end
  | EvBroadcast message =>
      h ← sendAll message (values (clients r)) (heap r);
      Some (setHeap r h)
  end.

(** The event loop on a finite prefix of its events. *)
Fixpoint Run (r : Relay) (es : list Event) : option Relay :=
  match es with
  | [] => Some r
  | e :: es' => r' ← Run_step r e; Run r' es'
  end.

(** The client [ServeWS] builds before it sends it on [register]:
    a fresh object with an empty queue of capacity 256. *)
Definition newClient (id : string) (ty : ClientType) (pw : string) : Client :=
  {| ID := id; Type_ := ty; Send := makeChan;
     Authorized := bool_decide (pw = "") |}.

Definition alloc (r : Relay) (p : ptr) (id : string) (ty : ClientType) : Relay :=
  setHeap r (<[p := newClient id ty (password r)]> (heap r)).

(** *** The registry invariant

    Every pointer a map holds leads to a client that carries the key as its
    [ID] and whose queue is still open, and [browsers] holds no client of
    kind moblin. *)
Definition registered_ok (h : gmap ptr Client) (m : gmap string ptr) : Prop :=
  ∀ id p, m !! id = Some p →
    ∃ c, h !! p = Some c ∧ ID c = id ∧ closed (Send c) = false.

Definition WF (r : Relay) : Prop :=
  registered_ok (heap r) (clients r) ∧
  registered_ok (heap r) (browsers r) ∧
  (∀ id p c, browsers r !! id = Some p → heap r !! p = Some c →
             Type_ c ≠ ClientTypeMoblin).

(** The events the peers produce: [ServeWS] registers a client it has just
    built, and a read pump unregisters its own client, once; so a
    registered client has an open queue, and an unregistered one has an
    open queue or is not in the registry. *)
Definition admissible (r : Relay) (e : Event) : Prop :=
  match e with
  | EvRegister p => ∃ c, heap r !! p = Some c ∧ closed (Send c) = false
  | EvUnregister p =>
      ∃ c, heap r !! p = Some c ∧
           (closed (Send c) = false ∨ clients r !! ID c = None)
  | EvBroadcast _ => True
  end.

(** [message, ok := <-c.Send] in the write pump of a client, when a frame is
    queued: the oldest frame leaves the queue. *)
Definition receive (r : Relay) (p : ptr) : Relay :=
  match heap r !! p with
  | Some c =>
      match buf (Send c) with
      | _ :: q =>
          setHeap r (<[p := setSend c {| buf := q; closed := closed (Send c) |}]>
                       (heap r))
      | [] => r
      end
  | None => r
  end.

(** The queue of a client after a non-blocking send of [m]. *)
Definition offered (m : frame) (q : list frame) : list frame :=
  if decide (length q < SendCap)%nat then q ++ [m] else q.

(** The text of the JSON object with the single key [type]. *)
Definition lifecycle_frame (t : string) : frame :=
  "{" +:+ quote +:+ "type" +:+ quote +:+ ":" +:+ quote +:+ t +:+ quote +:+ "}".

(** A JSON text written with apostrophes in the place of its double
    quotes. *)
Fixpoint json_text (s : string) : string :=
  match s with
  | EmptyString => EmptyString
  | String c s' =>
      String (if decide (c = "'"%char) then "034"%char else c) (json_text s')
  end.

(** Between [r] and [r'] every browser of [r] was offered the lifecycle
    frame of type [t]: appended to a queue of fewer than 256 frames, dropped
    on a full one. *)
Definition notified (r r' : Relay) (t : string) : Prop :=
  ∀ id b cb, browsers r !! id = Some b → heap r !! b = Some cb →
    ∃ cb', heap r' !! b = Some cb' ∧
           buf (Send cb') =
             if decide (length (buf (Send cb)) < 256)%nat
             then buf (Send cb) ++ [lifecycle_frame t] else buf (Send cb).

(** *** The peers: routing, [handleMessage], the pumps *)

Definition setAuthorized (c : Client) (b : bool) : Client :=
  {| ID := ID c; Type_ := Type_ c; Send := Send c; Authorized := b |}.

(** The second half of [routeToMoblin]: the pointer [slot] was read from
    [r.moblin] under the read lock, the lock was released, and now the
    non-blocking send to it takes place. *)
Definition routeToMoblin_send (r : Relay) (slot : option ptr) (msg : frame)
  : option Relay :=
  match slot with
  | None => Some r
  | Some p => h ← trySendTo msg (heap r) p; Some (setHeap r h)
  end.

(** [func (r *Relay) routeToMoblin(msg []byte)] when nothing happens between
    the read of the slot and the send. *)
Definition routeToMoblin (r : Relay) (msg : frame) : option Relay :=
  routeToMoblin_send r (moblin r) msg.

(** The body of [for _, browser := range r.browsers] in [routeToBrowsers]. *)
Fixpoint sendAuthorized (m : frame) (ps : list ptr) (h : gmap ptr Client)
  : option (gmap ptr Client) :=
  match ps with
  | [] => Some h
  | p :: ps' =>
      browser ← h !! p;
      h' ← (if Authorized browser then trySendTo m h p else Some h);
      sendAuthorized m ps' h'
  end.

(** [func (r *Relay) routeToBrowsers(msg []byte)] *)
Definition routeToBrowsers (r : Relay) (msg : frame) : option Relay :=
  h ← sendAuthorized msg (values (browsers r)) (heap r);
  Some (setHeap r h).

(** [func (c *Client) sendJSON(msg Message)] on the client behind [p]. *)
Definition sendJSON (r : Relay) (p : ptr) (msg : Message) : option Relay :=
  h ← trySendTo (marshal msg) (heap r) p;
  Some (setHeap r h).

(** The fields of a decoded [Message] that [handleMessage] reads. *)
Record Incoming := {
  In_Type : string;
  In_Password : string;
}.

Definition auth_success : Message :=
  {| Msg_Type := "auth_success"; Msg_Message := ""; Msg_Status := "ok" |}.

Definition auth_failed : Message :=
  {| Msg_Type := "auth_failed"; Msg_Message := "Invalid password";
     Msg_Status := "error" |}.

Definition not_authorized : Message :=
  {| Msg_Type := "error"; Msg_Message := "Not authorized"; Msg_Status := "" |}.

(** The branch of [handleMessage] for a message of type [auth]. *)
Definition handleAuth (r : Relay) (p : ptr) (c : Client) (msg : Incoming)
  : option Relay :=
  if bool_decide (password r = "") || bool_decide (In_Password msg = password r)
  then sendJSON (setHeap r (<[p := setAuthorized c true]> (heap r))) p auth_success
  else sendJSON r p auth_failed.

(** [func (c *Client) handleMessage(msg Message, raw []byte)] of
    relay/main.go, for the client behind [p]: a message of a client that is
    not authorized is dropped without an answer. *)
Definition handleMessage (r : Relay) (p : ptr) (msg : Incoming) (raw : frame)
  : option Relay :=
  c ← heap r !! p;
  if decide (In_Type msg = "auth") then handleAuth r p c msg
  else if negb (Authorized c) && negb (bool_decide (password r = "")) then Some r
  else if decide (Type_ c = ClientTypeMoblin) then routeToBrowsers r raw
  else routeToMoblin r raw.

(** The same method in the monolithic main package: the client that is not
    authorized is sent an error frame. *)
Definition handleMessage_main (r : Relay) (p : ptr) (msg : Incoming) (raw : frame)
  : option Relay :=
  c ← heap r !! p;
  if decide (In_Type msg = "auth") then handleAuth r p c msg
  else if negb (Authorized c) && negb (bool_decide (password r = ""))
       then sendJSON r p not_authorized
  else if decide (Type_ c = ClientTypeMoblin) then routeToBrowsers r raw
  else routeToMoblin r raw.

(** *** The goroutines of the relay, step by step

    The hub loop holds the write lock of the relay for the whole of a
    register or unregister event, [notifyBrowsers] included: such an event
    is one step, and it waits while a read lock is held.  The loops of a
    broadcast and of [routeToBrowsers] run under the read lock, which
    several goroutines hold at a time: every turn of such a loop is a step
    of its own, and so is the release of the lock.  [routeToMoblin] reads
    the slot under the read lock, releases it and sends afterwards, and
    [sendJSON] sends without the lock of the relay: each of these sends is
    a step of its own. *)

(** What a goroutine has still to do of the call it is in: the rest of a
    loop under the read lock, the frame going to every target ([check]: to
    the targets whose [Authorized] flag is set), and then the release of
    the lock; the send of [routeToMoblin] to the pointer read from the
    slot; the send of [sendJSON] to the client of the pump itself. *)
Inductive Job :=
  | Fanout (check : bool) (targets : list ptr) (m : frame)
  | ToSlot (slot : ptr) (m : frame)
  | Own (m : frame).

(** One turn of a loop under the read lock: the non-blocking send to the
    target, in [routeToBrowsers] after the test of [browser.Authorized]. *)
Definition turn (check : bool) (m : frame) (h : gmap ptr Client) (t : ptr)
  : option (gmap ptr Client) :=
  c ← h !! t;
  if check && negb (Authorized c) then Some h else trySendTo m h t.

(** The next step of the job of the pump of [p]: the relay afterwards and
    what is left of the job. *)
Definition job_step (r : Relay) (p : ptr) (job : Job) : option (Relay * option Job) :=
  match job with
  | Fanout _ [] _ => Some (r, None)
  | Fanout check (t :: targets) m =>
      h ← turn check m (heap r) t;
      Some (setHeap r h, Some (Fanout check targets m))
  | ToSlot slot m => h ← trySendTo m (heap r) slot; Some (setHeap r h, None)
  | Own m => h ← trySendTo m (heap r) p; Some (setHeap r h, None)
  end.

(** A job done to its end with no step of another goroutine in between. *)
Fixpoint job_run (fuel : nat) (r : Relay) (p : ptr) (job : option Job)
  : option Relay :=
  match job, fuel with
  | None, _ => Some r
  | Some _, O => None
  | Some j, S fuel' => '(r', rest) ← job_step r p j; job_run fuel' r' p rest
  end.

(** The steps a job takes. *)
Definition job_length (job : option Job) : nat :=
  match job with
  | Some (Fanout _ targets _) => S (length targets)
  | Some _ => 1
  | None => 0
  end.

(** [handleMessage] of relay/main.go up to its first send: the relay (the
    [Authorized] flag is written before [sendJSON] is called) and the job
    that is left; [routeToBrowsers] has taken the read lock, [routeToMoblin]
    has read the slot and released the lock. *)
Definition handleMessage_begin (r : Relay) (p : ptr) (msg : Incoming) (raw : frame)
  : option (Relay * option Job) :=
  c ← heap r !! p;
  if decide (In_Type msg = "auth") then
    if bool_decide (password r = "") || bool_decide (In_Password msg = password r)
    then Some (setHeap r (<[p := setAuthorized c true]> (heap r)),
               Some (Own (marshal auth_success)))
    else Some (r, Some (Own (marshal auth_failed)))
  else if negb (Authorized c) && negb (bool_decide (password r = "")) then
    Some (r, None)
  else if decide (Type_ c = ClientTypeMoblin) then
    Some (r, Some (Fanout true (values (browsers r)) raw))
  else Some (r, (λ slot, ToSlot slot raw) <$> moblin r).

(** The same for [handleMessage] of the monolithic main package. *)
Definition handleMessage_main_begin (r : Relay) (p : ptr) (msg : Incoming)
    (raw : frame) : option (Relay * option Job) :=
  c ← heap r !! p;
  if decide (In_Type msg = "auth") then
    if bool_decide (password r = "") || bool_decide (In_Password msg = password r)
    then Some (setHeap r (<[p := setAuthorized c true]> (heap r)),
               Some (Own (marshal auth_success)))
    else Some (r, Some (Own (marshal auth_failed)))
  else if negb (Authorized c) && negb (bool_decide (password r = "")) then
    Some (r, Some (Own (marshal not_authorized)))
  else if decide (Type_ c = ClientTypeMoblin) then
    Some (r, Some (Fanout true (values (browsers r)) raw))
  else Some (r, (λ slot, ToSlot slot raw) <$> moblin r).

(** The relay together with what its goroutines are in the middle of: the
    rest of the broadcast loop of the hub, and the job of every read pump
    that is inside [handleMessage], under the address of its client. *)
Record World := {
  relay : Relay;
  hub_sends : option (list ptr * frame);
  pumps : gmap ptr Job;
}.

Definition start (pw : string) : World :=
  {| relay := NewRelay pw; hub_sends := None; pumps := ∅ |}.

(** The relay with no goroutine in the middle of a call. *)
Definition at_rest (r : Relay) : World :=
  {| relay := r; hub_sends := None; pumps := ∅ |}.

Definition setRelay (w : World) (r : Relay) : World :=
  {| relay := r; hub_sends := hub_sends w; pumps := pumps w |}.

Definition setHubSends (w : World) (job : option (list ptr * frame)) : World :=
  {| relay := relay w; hub_sends := job; pumps := pumps w |}.

(** The pump of [p] has [job] left, or is done with its message. *)
Definition setJob (w : World) (p : ptr) (job : option Job) : World :=
  {| relay := relay w;
     hub_sends := hub_sends w;
     pumps := match job with
              | Some j => <[p := j]> (pumps w)
              | None => delete p (pumps w)
              end |}.

(** Does the job hold the read lock of the relay? *)
Definition holds_read_lock (job : Job) : bool :=
  match job with
  | Fanout _ _ _ => true
  | _ => false
  end.

(** No goroutine holds the read lock. *)
Definition read_lock_free (w : World) : Prop :=
  hub_sends w = None ∧ ∀ p job, pumps w !! p = Some job → holds_read_lock job = false.

(** What the goroutines of the relay do to its state, one step at a time:
    [ServeWS] builds a client at an address; the hub loop takes an event,
    and does a turn of its broadcast loop; a read pump hands a decoded
    message to [handleMessage] (of either package), and does the next step
    of the job that is left; a write pump takes a frame from its queue. *)
Inductive Action :=
  | Serve (p : ptr) (id : string) (ty : ClientType)
  | Hub (e : Event)
  | HubTurn
  | Read (p : ptr) (msg : Incoming) (raw : frame)
  | Read_main (p : ptr) (msg : Incoming) (raw : frame)
  | Step (p : ptr)
  | Write (p : ptr).

Definition act (w : World) (a : Action) : option World :=
  match a with
  | Serve p id ty => Some (setRelay w (alloc (relay w) p id ty))
  | Hub (EvBroadcast m) => Some (setHubSends w (Some (values (clients (relay w)), m)))
  | Hub e => r' ← Run_step (relay w) e; Some (setRelay w r')
  | HubTurn =>
      match hub_sends w with
      | None => Some w
      | Some ([], _) => Some (setHubSends w None)
      | Some (t :: targets, m) =>
          h ← turn false m (heap (relay w)) t;
          Some (setHubSends (setRelay w (setHeap (relay w) h)) (Some (targets, m)))
      end
  | Read p msg raw =>
      '(r', job) ← handleMessage_begin (relay w) p msg raw;
      Some (setJob (setRelay w r') p job)
  | Read_main p msg raw =>
      '(r', job) ← handleMessage_main_begin (relay w) p msg raw;
      Some (setJob (setRelay w r') p job)
  | Step p =>
      job ← pumps w !! p;
      '(r', rest) ← job_step (relay w) p job;
      Some (setJob (setRelay w r') p rest)
  | Write p => Some (setRelay w (receive (relay w) p))
  end.

(** When a step can take place.  [ServeWS] allocates a fresh object.  The
    hub loop takes an event when it is not inside a broadcast; the events
    are the admissible ones; a register or unregister event needs the
    write lock, so no read lock is held; and a client is unregistered after
    its read pump has left its loop, so not while the pump is inside
    [handleMessage].  A read pump takes a message when it is done with the
    last one, for a client whose queue the hub has not closed yet (the pump
    leaves its loop before it sends its client on [unregister]). *)
Definition enabled (w : World) (a : Action) : Prop :=
  match a with
  | Serve p _ _ => heap (relay w) !! p = None
  | Hub e =>
      admissible (relay w) e ∧ hub_sends w = None ∧
      match e with
      | EvRegister _ => read_lock_free w
      | EvUnregister p => read_lock_free w ∧ pumps w !! p = None
      | EvBroadcast _ => True
      end
  | HubTurn => is_Some (hub_sends w)
  | Read p _ _ | Read_main p _ _ =>
      (∃ c, heap (relay w) !! p = Some c ∧ closed (Send c) = false) ∧
      pumps w !! p = None
  | Step p => is_Some (pumps w !! p)
  | Write _ => True
  end.

(** The states of the relay: [NewRelay], then any enabled step. *)
Inductive reachable : World → Prop :=
  | reach_new pw : reachable (start pw)
  | reach_act w a w' :
      reachable w → enabled w a → act w a = Some w' → reachable w'.

(** The controller slot holds a controller whose queue is open. *)
Definition slot_ok (r : Relay) : Prop :=
  ∀ p, moblin r = Some p →
    ∃ c, heap r !! p = Some c ∧ Type_ c = ClientTypeMoblin ∧
         closed (Send c) = false.

(** No queue holds more frames than its capacity. *)
Definition bounded (h : gmap ptr Client) : Prop :=
  ∀ p c, h !! p = Some c → (length (buf (Send c)) ≤ SendCap)%nat.

(** The invariant of the relay. *)
Definition Inv (r : Relay) : Prop := WF r ∧ slot_ok r ∧ bounded (heap r).

(** [c'] is the client [c] with other frames in its queue, within the
    capacity if the queue of [c] was. *)
Definition same_peer (c c' : Client) : Prop :=
  ID c' = ID c ∧ Type_ c' = Type_ c ∧ closed (Send c') = closed (Send c) ∧
  ((length (buf (Send c)) ≤ SendCap)%nat → (length (buf (Send c')) ≤ SendCap)%nat).

(** The heap [h'] holds the objects of [h], each the same peer with the
    same [Authorized] flag unless [except] is its address. *)
Definition steady (except : option ptr) (h h' : gmap ptr Client) : Prop :=
  ∀ p, match h !! p, h' !! p with
       | Some c, Some c' =>
           same_peer c c' ∧ (except ≠ Some p → Authorized c' = Authorized c)
       | None, None => True
       | _, _ => False
       end.

(** The heap [h'] holds the objects of [h], each of the same kind and with
    a queue that is closed iff it was, but for the queue of the object at
    [except]. *)
Definition kept (except : option ptr) (h h' : gmap ptr Client) : Prop :=
  ∀ t c, h !! t = Some c →
    ∃ c', h' !! t = Some c' ∧ Type_ c' = Type_ c ∧
          (except ≠ Some t → closed (Send c') = closed (Send c)).

(** The object behind a pointer has an open queue. *)
Definition open_at (h : gmap ptr Client) (t : ptr) : Prop :=
  ∃ c, h !! t = Some c ∧ closed (Send c) = false.

(** What holds of the job of the pump of [p]: the targets of a loop under
    the read lock have open queues, the pointer a pump took from the slot
    leads to a controller, and the client of a pump that is about to send
    to it has an open queue. *)
Definition job_ok (h : gmap ptr Client) (p : ptr) (job : Job) : Prop :=
  match job with
  | Fanout _ targets _ => Forall (open_at h) targets
  | ToSlot slot _ => ∃ c, h !! slot = Some c ∧ Type_ c = ClientTypeMoblin
  | Own _ => open_at h p
  end.

Definition jobs_ok (w : World) : Prop :=
  (∀ targets m, hub_sends w = Some (targets, m) →
                Forall (open_at (heap (relay w))) targets) ∧
  (∀ p job, pumps w !! p = Some job → job_ok (heap (relay w)) p job).

(** [enabled] as a test, and a run of steps that stops at a step that is
    not enabled or that panics. *)
Definition read_lock_freeb (w : World) : bool :=
  bool_decide (hub_sends w = None)
  && forallb (λ pj, negb (holds_read_lock pj.2)) (map_to_list (pumps w)).

Definition enabledb (w : World) (a : Action) : bool :=
  match a with
  | Serve p _ _ => bool_decide (heap (relay w) !! p = None)
  | Hub (EvRegister p) =>
      from_option (λ c, negb (closed (Send c))) false (heap (relay w) !! p)
      && read_lock_freeb w
  | Hub (EvUnregister p) =>
      from_option (λ c, negb (closed (Send c))
                        || bool_decide (clients (relay w) !! ID c = None))
                  false (heap (relay w) !! p)
      && read_lock_freeb w && bool_decide (pumps w !! p = None)
  | Hub (EvBroadcast _) => bool_decide (hub_sends w = None)
  | HubTurn => bool_decide (is_Some (hub_sends w))
  | Read p _ _ | Read_main p _ _ =>
      from_option (λ c, negb (closed (Send c))) false (heap (relay w) !! p)
      && bool_decide (pumps w !! p = None)
  | Step p => bool_decide (is_Some (pumps w !! p))
  | Write _ => true
  end.

Fixpoint run (w : World) (steps : list Action) : option World :=
  match steps with
  | [] => Some w
  | a :: steps' => if enabledb w a then w' ← act w a; run w' steps' else None
  end.

(** The registry of [r'] is the registry of [r]. *)
Definition same_registry (r r' : Relay) : Prop :=
  clients r' = clients r ∧ browsers r' = browsers r ∧ moblin r' = moblin r ∧
  password r' = password r.

End Hub.

(** ** Services (package [services]): sessions, rate limiter, bot filter *)

Module Services.

(** A [time.Time] is an instant counted in nanoseconds, a [time.Duration]
    is an [int64] number of nanoseconds. *)
Definition Time := Z.
Definition Duration := Z.

Definition Second : Duration := (10 ^ 9)%Z.
Definition Minute : Duration := (60 * Second)%Z.
Definition Hour : Duration := (60 * Minute)%Z.

(** [t.After(u)] *)
Definition After (t u : Time) : bool := bool_decide (u < t)%Z.

(** [t.Add(d)] *)
Definition Add (t : Time) (d : Duration) : Time := (t + d)%Z.

(** [-window] on an [int64]. *)
Definition negDuration (d : Duration) : Duration := neg64 d.

(** [type Session struct] *)
Record Session := {
  ID : string;
  DeviceHash : string;
  CreatedAt : Time;
  ExpiresAt : Time;
  LastUsed : Time;
  UserAgent : string;
  IP : string;
}.

(** A Go [map[string]*Session]: the nil map, or a table.  [load] leaves the
    nil map in the store when [json.Unmarshal] decoded nothing into the
    variable (a sessions file that holds [null]; in the services package,
    which drops the error, also an empty file or one that is no JSON text).
    A lookup in the nil map finds nothing, [delete] and [range] do nothing
    on it, and an assignment to an entry of it panics.  The entries of a
    table are session objects: a nil entry, which no file the program
    writes gives, is not represented. *)
Inductive SessionMap :=
  | NilMap
  | Table (t : gmap string Session).

(** What a lookup and a [range] see of the map. *)
Definition entries (m : SessionMap) : gmap string Session :=
  match m with
  | NilMap => ∅
  | Table t => t
  end.

(** [m[key]] read. *)
#[export] Instance SessionMap_lookup : Lookup string Session SessionMap :=
  λ key m, entries m !! key.

(** [m[key] = x]: [panic: assignment to entry in nil map]. *)
Definition assign (key : string) (x : Session) (m : SessionMap)
  : option SessionMap :=
  match m with
  | NilMap => None
  | Table t => Some (Table (<[key := x]> t))
  end.

(** [delete(m, key)] *)
Definition remove (key : string) (m : SessionMap) : SessionMap :=
  match m with
  | NilMap => NilMap
  | Table t => Table (delete key t)
  end.

(** [type SessionStore struct]; [persisted] is what the last successful
    [save] left in [file]. *)
Record SessionStore := {
  sessions : SessionMap;
  file : string;
  persisted : option SessionMap;
}.

(** [save]: marshal the map and write the file; a failed write is ignored. *)
Definition save (io_ok : bool) (s : SessionStore) : SessionStore :=
  if io_ok
  then {| sessions := sessions s; file := file s; persisted := Some (sessions s) |}
  else s.

Definition setSessions (s : SessionStore) (m : SessionMap) : SessionStore :=
  {| sessions := m; file := file s; persisted := persisted s |}.

Definition hashString `{GoStdlib} (s : string) : string := sha256_hex8 s.

(** [getIPPrefix] of the services package returns its argument. *)
Definition getIPPrefix (ip : string) : string := ip.

(** What [SessionStore.Create] reads from its environment: the random bytes,
    the three clock readings and whether the file write succeeds. *)
Record CreateEnv := {
  rand_bytes : list Z;
  clock_created : Time;
  clock_expires : Time;
  clock_last_used : Time;
  create_write_ok : bool;
}.

(** [func (s *SessionStore) Create(userAgent, ip string) *Session]: the
    assignment [s.sessions[sessionID] = session] panics on the nil map, and
    the deferred [Unlock] leaves the store as it was. *)
Definition Create `{GoStdlib} (env : CreateEnv) (s : SessionStore)
    (userAgent ip : string) : option (SessionStore * Session) :=
  let sessionID := hex_EncodeToString (rand_bytes env) in
  let deviceHash := hashString (userAgent +:+ getIPPrefix ip) in
  let session :=
    {| ID := sessionID;
       DeviceHash := deviceHash;
       CreatedAt := clock_created env;
       ExpiresAt := Add (clock_expires env) (30 * 24 * Hour)%Z;
       LastUsed := clock_last_used env;
       UserAgent := userAgent;
       IP := ip |} in
  m ← assign sessionID session (sessions s);
  Some (save (create_write_ok env) (setSessions s m), session).

(** [func (s *SessionStore) Get(sessionID string) *Session], package
    [services]: [if !exists || time.Now().After(session.ExpiresAt)]. *)
Definition Get (now : Time) (s : SessionStore) (sessionID : string)
  : option Session :=
  let session := sessions s !! sessionID in
  if negb (bool_decide (is_Some session))
     || from_option (λ x, After now (ExpiresAt x)) false session
  then None
  else session.

(** The same method in the monolithic auth file: two conditions in a row. *)
Definition Get_main (now : Time) (s : SessionStore) (sessionID : string)
  : option Session :=
  match sessions s !! sessionID with
  | None => None
  | Some session =>
      if After now (ExpiresAt session) then None else Some session
  end.

Definition setLastUsed (x : Session) (t : Time) : Session :=
  {| ID := ID x; DeviceHash := DeviceHash x; CreatedAt := CreatedAt x;
     ExpiresAt := ExpiresAt x; LastUsed := t; UserAgent := UserAgent x;
     IP := IP x |}.

(** [func (s *SessionStore) Touch(sessionID string)]: [LastUsed] is set
    through the pointer the map holds. *)
Definition Touch (now : Time) (io_ok : bool) (s : SessionStore)
    (sessionID : string) : SessionStore :=
  match sessions s !! sessionID with
  | Some session =>
      save io_ok
        (setSessions s (Table (<[sessionID := setLastUsed session now]>
                                 (entries (sessions s)))))
  | None => s
  end.

(** [func (s *SessionStore) Delete(sessionID string)] *)
Definition Delete (io_ok : bool) (s : SessionStore) (sessionID : string)
  : SessionStore :=
  save io_ok (setSessions s (remove sessionID (sessions s))).

(** [func (s *SessionStore) cleanup()]: nothing is removed from the nil map,
    and the file is written only when something was removed. *)
Definition cleanupSessions (now : Time) (io_ok : bool) (s : SessionStore)
  : SessionStore :=
  let kept := filter (λ kv, After now (ExpiresAt kv.2) = false)
                     (entries (sessions s)) in
  if decide (size kept = size (entries (sessions s))) then s
  else save io_ok (setSessions s (Table kept)).

(** [type RateLimiter struct] *)
Record RateLimiter := { requests : gmap string (list Time) }.

Definition NewRateLimiter : RateLimiter := {| requests := ∅ |}.

(** The loop [for _, t := range reqs { if t.After(cutoff) { valid = append(valid, t) } }]. *)
Definition keepAfter (cutoff : Time) (reqs : list Time) : list Time :=
  filter (λ t, After t cutoff = true) reqs.

(** [func (rl *RateLimiter) Allow(key string, limit int, window time.Duration) bool] *)
Definition Allow (now : Time) (rl : RateLimiter) (key : string) (limit : Z)
    (window : Duration) : RateLimiter * bool :=
  let cutoff := Add now (negDuration window) in
  let reqs := default [] (requests rl !! key) in
  let valid := keepAfter cutoff reqs in
  if decide (limit ≤ Z.of_nat (length valid))%Z then (rl, false)
  else ({| requests := <[key := valid ++ [now]]> (requests rl) |}, true).

(** [func (rl *RateLimiter) cleanup()]: the cutoff is five minutes whatever
    window the callers of [Allow] use. *)
Definition cleanup (now : Time) (rl : RateLimiter) : RateLimiter :=
  let cutoff := Add now (negDuration (5 * Minute)%Z) in
  {| requests :=
       omap (λ reqs, let valid := keepAfter cutoff reqs in
                     if decide (length valid = 0%nat) then None else Some valid)
            (requests rl) |}.

(** *** Bot filter *)

(** The UTF-8 encodings of the runes a pattern byte matches under [(?i)]:
    the byte itself, the other case of a letter and, by Unicode simple case
    folding, U+017F for [s] and U+212A for [k]. *)
Definition isLower (c : ascii) : bool :=
  let n := nat_of_ascii c in (97 <=? n)%nat && (n <=? 122)%nat.
Definition isUpper (c : ascii) : bool :=
  let n := nat_of_ascii c in (65 <=? n)%nat && (n <=? 90)%nat.
Definition toLower (c : ascii) : ascii :=
  if isUpper c then ascii_of_nat (nat_of_ascii c + 32) else c.

Definition foldAlternatives (c : ascii) : list (list ascii) :=
  [c]
  :: (if isLower c then [[ascii_of_nat (nat_of_ascii c - 32)]]
      else if isUpper c then [[ascii_of_nat (nat_of_ascii c + 32)]] else [])
  ++ (if decide (toLower c = "s"%char) then [["197"%char; "191"%char]]
      else if decide (toLower c = "k"%char)
           then [["226"%char; "132"%char; "170"%char]] else []).

Fixpoint stripPrefix (p s : list ascii) : option (list ascii) :=
  match p, s with
  | [], _ => Some s
  | a :: p', b :: s' => if decide (a = b) then stripPrefix p' s' else None
  | _ :: _, [] => None
  end.

(** Does the folded literal match at the start of the input? *)
Fixpoint matchHere (pat : list ascii) (s : list ascii) : bool :=
  match pat with
  | [] => true
  | c :: pat' =>
      existsb (λ alt, match stripPrefix alt s with
                      | Some rest => matchHere pat' rest
                      | None => false
                      end) (foldAlternatives c)
  end.

(** [regexp.MustCompile(`(?i)<literal>`).MatchString(s)]: an unanchored
    search. *)
Fixpoint searchFrom (pat : list ascii) (s : list ascii) : bool :=
  matchHere pat s ||
  match s with
  | [] => false
  | _ :: s' => searchFrom pat s'
  end.

Definition MatchString (literal : string) (s : string) : bool :=
  searchFrom (list_ascii_of_string literal) (list_ascii_of_string s).

(** [var botPatterns] of the services package. *)
Definition botPatterns : list string :=
  ["bot"; "crawler"; "spider"; "scraper"; "curl"; "wget"].

(** [func IsBot(userAgent string) bool] *)
Definition IsBot (userAgent : string) : bool :=
  if decide (userAgent = "") then false
  else existsb (λ pattern, MatchString pattern userAgent) botPatterns.

(** [var botPatterns] of the monolithic auth file. *)
Definition botPatterns_main : list string :=
  ["bot"; "crawler"; "spider"; "scraper"; "curl"; "wget";
   "python-requests"; "headless"; "phantom"; "selenium"].

(** [func isBot(userAgent string) bool] of the monolithic auth file. *)
Definition isBot (userAgent : string) : bool :=
  if decide (userAgent = "") then false
  else existsb (λ pattern, MatchString pattern userAgent) botPatterns_main.

(** [mid] spells the literal [pat] up to case: each byte of the literal is
    replaced by one of its folded encodings. *)
Inductive folded : list ascii → list ascii → Prop :=
  | folded_nil : folded [] []
  | folded_cons c alt pat rest :
      alt ∈ foldAlternatives c → folded pat rest →
      folded (c :: pat) (alt ++ rest).

(** The user-agent contains the token, case-insensitively. *)
Definition contains_token (token userAgent : string) : Prop :=
  ∃ pre mid post,
    list_ascii_of_string userAgent = pre ++ mid ++ post ∧
    folded (list_ascii_of_string token) mid.

(** The ten tokens of the bot filter as the specification lists them. *)
Definition bot_tokens : list string :=
  ["bot"; "crawler"; "spider"; "scraper"; "curl"; "wget";
   "python-requests"; "headless"; "phantom"; "selenium"].

(** [type AuthService struct] *)
Record AuthService := {
  PIN : string;
  Sessions : SessionStore;
  Limiter : RateLimiter;
}.

End Services.

(** ** Login handlers *)

Module Handlers.
Import Services.

(** The parts of an [*http.Request] the handlers read; [Header_Get] is
    [r.Header.Get]. *)
Record Request := {
  Method : string;
  Header_Get : string → string;
  RemoteAddr : string;
  Body : string;
}.

(** [type AuthResponse struct] *)
Record AuthResponse := {
  Success : bool;
  Message : string;
  Authenticated : bool;
  ExpiresAt_ : string;
}.

(** [http.Cookie] as the handlers fill it. *)
Record Cookie := {
  Name : string;
  Value : string;
  Path : string;
  MaxAge : Z;
  HttpOnly : bool;
  Secure : bool;
  SameSiteLax : bool;
}.

(** What a handler leaves in the [http.ResponseWriter]. *)
Record Response := {
  Status : Z;
  ContentType : string;
  SetCookie : option Cookie;
  Payload : option AuthResponse;
}.

Definition StatusOK : Z := 200.
Definition StatusBadRequest : Z := 400.
Definition StatusUnauthorized : Z := 401.
Definition StatusMethodNotAllowed : Z := 405.
Definition StatusTooManyRequests : Z := 429.

(** [strings.Split(s, ",")[0]] *)
Fixpoint beforeComma (s : string) : string :=
  match s with
  | EmptyString => EmptyString
  | String c s' =>
      if decide (c = ","%char) then EmptyString else String c (beforeComma s')
  end.

(** [func GetClientIP(r *http.Request) string] *)
Definition GetClientIP `{GoStdlib} (r : Request) : string :=
  let xff := Header_Get r "X-Forwarded-For" in
  if decide (xff = "") then
    let xri := Header_Get r "X-Real-IP" in
    if decide (xri = "") then net_SplitHostPort (RemoteAddr r) else xri
  else strings_TrimSpace (beforeComma xff).

(** [func SetSessionCookie(w http.ResponseWriter, sessionID string)] *)
Definition SetSessionCookie (sessionID : string) : Cookie :=
  {| Name := "vb_session"; Value := sessionID; Path := "/";
     MaxAge := 30 * 24 * 60 * 60; HttpOnly := true; Secure := true;
     SameSiteLax := true |}.

(** The clock reading of the limiter and the environment of [Create]. *)
Record LoginEnv := {
  clock_allow : Time;
  create_env : CreateEnv;
}.

Definition setLimiter (a : AuthService) (rl : RateLimiter) : AuthService :=
  {| PIN := PIN a; Sessions := Sessions a; Limiter := rl |}.

Definition setStore (a : AuthService) (ss : SessionStore) : AuthService :=
  {| PIN := PIN a; Sessions := ss; Limiter := Limiter a |}.

Definition json : string := "application/json".

(** What a handler that may panic leaves: the answer, or [None] when it
    panicked; net/http recovers the panic of a handler and closes the
    connection, and the server goes on with the state the handler left. *)
Definition Reply := option Response.

Definition status (reply : Reply) : option Z := Status <$> reply.

(** [func (h *AuthHandler) HandleLogin(w http.ResponseWriter, r *http.Request)];
    when [Create] panics the limiter has recorded the attempt already. *)
Definition HandleLogin `{GoStdlib} (env : LoginEnv) (a : AuthService)
    (r : Request) : AuthService * Reply :=
  if decide (Method r = "POST") then
    let ip := GetClientIP r in
    let '(rl, ok) := Allow (clock_allow env) (Limiter a) (ip +:+ ":login") 5 Minute in
    let a := setLimiter a rl in
    if ok then
      match json_Decode_LoginRequest (Body r) with
      | None =>
          (a, Some {| Status := StatusBadRequest; ContentType := json;
                      SetCookie := None; Payload := None |})
      | Some req =>
          if decide (LoginRequest_PIN req = PIN a) then
            match Create (create_env env) (Sessions a) (Header_Get r "User-Agent") ip with
            | None => (a, None)
            | Some (ss, session) =>
                (setStore a ss,
                 Some {| Status := StatusOK; ContentType := json;
                         SetCookie := Some (SetSessionCookie (ID session));
                         Payload := Some {| Success := true; Message := "";
                                            Authenticated := true;
                                            ExpiresAt_ := time_Format_RFC3339 (ExpiresAt session) |} |})
            end
          else
            (a, Some {| Status := StatusUnauthorized; ContentType := json;
                        SetCookie := None;
                        Payload := Some {| Success := false; Message := "Invalid PIN";
                                           Authenticated := false; ExpiresAt_ := "" |} |})
      end
    else
      (a, Some {| Status := StatusTooManyRequests; ContentType := json;
                  SetCookie := None;
                  Payload := Some {| Success := false; Message := "Too many attempts";
                                     Authenticated := false; ExpiresAt_ := "" |} |})
  else
    (a, Some {| Status := StatusMethodNotAllowed; ContentType := json;
                SetCookie := None; Payload := None |}).

(** The key of the login budget of an address and the stamps stored
    under it. *)
Definition login_key (ip : string) : string := ip +:+ ":login".





(** A POST of the address [ip] at a clock reading in [[t0, t0 + Minute)]. *)
Definition login_from `{GoStdlib} (ip : string) (t0 : Time)
    (er : LoginEnv * Request) : Prop :=
  Method er.2 = "POST" ∧ GetClientIP er.2 = ip ∧
  (t0 ≤ clock_allow er.1 < t0 + Minute)%Z.




(** *** Session and logout handlers, the middleware *)

(** [r.Cookie(name)] of net/http: the value of the named cookie of the
    request, [None] for [http.ErrNoCookie]. *)
Class GoHttp := {
  Request_Cookie : Request → string → option string;
}.

Definition StatusFound : Z := 302.
Definition StatusForbidden : Z := 403.

(** [func GetSessionID(r *http.Request) string] *)
Definition GetSessionID `{GoHttp} (r : Request) : string :=
  match Request_Cookie r "vb_session" with
  | Some value => value
  | None => ""
  end.

(** [func ClearSessionCookie(w http.ResponseWriter)] *)
Definition ClearSessionCookie : Cookie :=
  {| Name := "vb_session"; Value := ""; Path := "/"; MaxAge := -1;
     HttpOnly := true; Secure := false; SameSiteLax := false |}.

(** [func (h *AuthHandler) HandleLogout(w http.ResponseWriter, r *http.Request)];
    the handler sets no content type. *)
Definition HandleLogout `{GoHttp} (write_ok : bool) (a : AuthService)
    (r : Request) : AuthService * Response :=
  let sessionID := GetSessionID r in
  let a := if decide (sessionID = "") then a
           else setStore a (Delete write_ok (Sessions a) sessionID) in
  (a, {| Status := StatusOK; ContentType := "";
         SetCookie := Some ClearSessionCookie;
         Payload := Some {| Success := true; Message := "";
                            Authenticated := false; ExpiresAt_ := "" |} |}).

(** The clock readings of [Get] and [Touch] and whether the write of
    [Touch] succeeds. *)
Record SessionEnv := {
  clock_get : Time;
  clock_touch : Time;
  touch_write_ok : bool;
}.

(** [func (h *AuthHandler) HandleSession(w http.ResponseWriter, r *http.Request)] *)
Definition HandleSession `{GoStdlib} `{GoHttp} (env : SessionEnv)
    (a : AuthService) (r : Request) : AuthService * Response :=
  let sessionID := GetSessionID r in
  match Get (clock_get env) (Sessions a) sessionID with
  | None =>
      (a, {| Status := StatusUnauthorized; ContentType := ""; SetCookie := None;
             Payload := Some {| Success := false; Message := "";
                                Authenticated := false; ExpiresAt_ := "" |} |})
  | Some session =>
      (setStore a (Touch (clock_touch env) (touch_write_ok env) (Sessions a) sessionID),
       {| Status := StatusOK; ContentType := ""; SetCookie := None;
          Payload := Some {| Success := true; Message := "";
                             Authenticated := true;
                             ExpiresAt_ := time_Format_RFC3339 (ExpiresAt session) |} |})
  end.

(** What a middleware does with a request: it answers itself, with a status,
    the [error] text of its JSON body (if any) and the target of a
    redirect (if any), or it calls [next]. *)
Inductive Verdict :=
  | Answer (status : Z) (error : string) (location : string)
  | CallNext.

Record ProtectEnv := {
  clock_limit : Time;
  session_env : SessionEnv;
}.

(** [func (m *AuthMiddleware) Protect(next http.HandlerFunc) http.HandlerFunc],
    up to the call of [next]. *)
Definition Protect `{GoStdlib} `{GoHttp} (env : ProtectEnv) (a : AuthService)
    (r : Request) : AuthService * Verdict :=
  let ip := GetClientIP r in
  let userAgent := Header_Get r "User-Agent" in
  let '(rl, ok) := Allow (clock_limit env) (Limiter a) ip 100 Minute in
  let a := setLimiter a rl in
  if negb ok then (a, Answer StatusTooManyRequests "Too many requests" "")
  else if IsBot userAgent then (a, Answer StatusForbidden "" "")
  else
    let sessionID := GetSessionID r in
    match Get (clock_get (session_env env)) (Sessions a) sessionID with
    | None =>
        if decide (Header_Get r "Accept" = "application/json")
        then (a, Answer StatusUnauthorized "Unauthorized" "")
        else (a, Answer StatusFound "" "/login.html")
    | Some _ =>
        (setStore a (Touch (clock_touch (session_env env))
                           (touch_write_ok (session_env env)) (Sessions a) sessionID),
         CallNext)
    end.

(** [func (m *AuthMiddleware) Public(next http.HandlerFunc) http.HandlerFunc] *)
Definition Public `{GoStdlib} (now : Time) (a : AuthService) (r : Request)
  : AuthService * Verdict :=
  let ip := GetClientIP r in
  let '(rl, ok) := Allow now (Limiter a) ip 100 Minute in
  let a := setLimiter a rl in
  if negb ok then (a, Answer StatusTooManyRequests "" "") else (a, CallNext).


End Handlers.

(** ** The monolithic main package: its own login handler *)

Module Main.
Import Services Handlers.

(** [strings.Split(s, ".")] *)
Fixpoint splitDots (s : string) : list string :=
  match s with
  | EmptyString => [EmptyString]
  | String c s' =>
      if decide (c = "."%char) then EmptyString :: splitDots s'
      else match splitDots s' with
           | [] => [String c EmptyString]
           | w :: ws => String c w :: ws
           end
  end.

(** [strings.Join(parts, ".")] *)
Fixpoint joinDots (parts : list string) : string :=
  match parts with
  | [] => ""
  | [w] => w
  | w :: ws => w +:+ "." +:+ joinDots ws
  end.

(** [func getIPPrefix(ip string) string]: the first three octets of an IPv4
    address. *)
Definition getIPPrefix (ip : string) : string :=
  if existsb (λ c, bool_decide (c = "."%char)) (list_ascii_of_string ip) then
    let parts := splitDots ip in
    if decide (3 ≤ length parts)%nat then joinDots (take 3 parts) else ip
  else ip.

(** The number of dots of a text. *)
Definition dots (s : string) : nat :=
  length (filter (λ c, c = "."%char) (list_ascii_of_string s)).

(** [SessionStore.Create] of the monolithic auth file; it panics on the nil
    map like the one of the services package. *)
Definition Create `{GoStdlib} (env : CreateEnv) (s : SessionStore)
    (userAgent ip : string) : option (SessionStore * Session) :=
  let sessionID := hex_EncodeToString (rand_bytes env) in
  let deviceHash := hashString (userAgent +:+ getIPPrefix ip) in
  let session :=
    {| ID := sessionID;
       DeviceHash := deviceHash;
       CreatedAt := clock_created env;
       ExpiresAt := Add (clock_expires env) (30 * 24 * Hour)%Z;
       LastUsed := clock_last_used env;
       UserAgent := userAgent;
       IP := ip |} in
  m ← assign sessionID session (sessions s);
  Some (save (create_write_ok env) (setSessions s m), session).

(** [func getClientIP(r *http.Request) string] *)
Definition getClientIP `{GoStdlib} (r : Request) : string :=
  let xff := Header_Get r "X-Forwarded-For" in
  if decide (xff = "") then
    let xri := Header_Get r "X-Real-IP" in
    if decide (xri = "") then net_SplitHostPort (RemoteAddr r) else xri
  else strings_TrimSpace (beforeComma xff).



Definition login_from_main `{GoStdlib} (ip : string) (t0 : Time)
    (er : LoginEnv * Request) : Prop :=
  Method er.2 = "POST" ∧ getClientIP er.2 = ip ∧
  (t0 ≤ clock_allow er.1 < t0 + Minute)%Z.



End Main.

(** ** Versioned stores (package [stores]) *)

Module Stores.

(** What a store method reads from its environment: the two formatted clock
    readings and whether each [ioutil.WriteFile] succeeds. *)
Record StoreEnv := {
  utc_rfc3339 : string;      (* time.Now().UTC().Format(time.RFC3339) *)
  local_date : string;       (* time.Now().Format("2006-01-02") *)
  archive_write_ok : bool;   (* the write of the archive file *)
  current_write_ok : bool;   (* the write of the current file in save *)
}.

(** A Go [error] value of these methods; [None] is [nil]. *)
Inductive StoreError := WriteFileError (path : string).

(** [type MatchdayState struct] *)
Record MatchdayState := {
  Version : Z;
  LastUpdated : string;
  HomeTeam : string;
  AwayTeam : string;
  Date : string;
  DvvLink : string;
  MatchID : string;
}.

(** [newState.Version = v; newState.LastUpdated = t] on the by-value
    parameter. *)
Definition stamp (d : MatchdayState) (v : Z) (t : string) : MatchdayState :=
  {| Version := v; LastUpdated := t; HomeTeam := HomeTeam d;
     AwayTeam := AwayTeam d; Date := Date d; DvvLink := DvvLink d;
     MatchID := MatchID d |}.

(** [type MatchdayStore struct]; [disk] maps a path to the value whose JSON
    the file holds ([None] for the [null] a nil pointer marshals to). *)
Record MatchdayStore := {
  dataDir : string;
  currentFile : string;
  state : option MatchdayState;
  disk : gmap string (option MatchdayState);
}.

Definition setState (s : MatchdayStore) (o : option MatchdayState) : MatchdayStore :=
  {| dataDir := dataDir s; currentFile := currentFile s; state := o;
     disk := disk s |}.

(** [func (s *MatchdayStore) save() error]; marshalling these documents
    does not fail, the write may. *)
Definition save (ok : bool) (s : MatchdayStore) : MatchdayStore * option StoreError :=
  if ok then
    ({| dataDir := dataDir s; currentFile := currentFile s; state := state s;
        disk := <[currentFile s := state s]> (disk s) |}, None)
  else (s, Some (WriteFileError (currentFile s))).

(** [func (s *MatchdayStore) GetState() MatchdayState]; the POST branch of
    the handler sends back what [GetState] returns after [UpdateState]. *)
Definition GetState (s : MatchdayStore) : MatchdayState :=
  match state s with
  | None => {| Version := 0; LastUpdated := ""; HomeTeam := ""; AwayTeam := "";
               Date := ""; DvvLink := ""; MatchID := "" |}
  | Some d => d
  end.

(** [func (s *MatchdayStore) UpdateState(newState MatchdayState) error];
    [s.state.Version] on a nil state panics. *)
Definition UpdateState (env : StoreEnv) (s : MatchdayStore)
    (newState : MatchdayState) : option (MatchdayStore * option StoreError) :=
  prev ← state s;
  let newState := stamp newState (add64 (Version prev) 1) (utc_rfc3339 env) in
  Some (save (current_write_ok env) (setState s (Some newState))).

(** Updates one after the other; the version is stamped whether or not the
    write of the file succeeds. *)
Fixpoint UpdateAll (s : MatchdayStore) (ups : list (StoreEnv * MatchdayState))
  : option MatchdayStore :=
  match ups with
  | [] => Some s
  | (env, d) :: ups' => '(s', _) ← UpdateState env s d; UpdateAll s' ups'
  end.

(** The two times the POST branch of [HandleAPI] takes the lock of the
    store: [UpdateState], then [GetState] for the document it sends back and
    whose version it broadcasts.  Requests run in parallel, so the steps of
    several requests interleave; [handle] collects, per request, the
    document sent back. *)
Inductive HandlerStep :=
  | StepUpdate (request : nat) (env : StoreEnv) (newState : MatchdayState)
  | StepRead (request : nat).

Fixpoint handle (s : MatchdayStore) (steps : list HandlerStep)
  : option (list (nat * MatchdayState)) :=
  match steps with
  | [] => Some []
  | StepUpdate _ env d :: rest => '(s', _) ← UpdateState env s d; handle s' rest
  | StepRead n :: rest => resps ← handle s rest; Some ((n, GetState s) :: resps)
  end.

(** *** [ParseDVV]: the texts it takes from the page and the address *)

Definition text (s : string) : list ascii := list_ascii_of_string s.

Definition isDigit (c : ascii) : bool :=
  let n := nat_of_ascii c in (48 <=? n)%nat && (n <=? 57)%nat.

(** [strings.Split(s, sep)] at the first occurrence of [sep]: the text
    before it and the text after it, [None] without an occurrence. *)
Fixpoint splitOnce (sep s : list ascii) {struct s}
  : option (list ascii * list ascii) :=
  match Services.stripPrefix sep s with
  | Some rest => Some ([], rest)
  | None =>
      match s with
      | [] => None
      | c :: s' =>
          match splitOnce sep s' with
          | Some (before, after) => Some (c :: before, after)
          | None => None
          end
      end
  end.

(** [strings.Split(s, sep)[0]] *)
Definition firstPart (sep s : list ascii) : list ascii :=
  match splitOnce sep s with
  | Some (before, _) => before
  | None => s
  end.

(** The two team names [ParseDVV] takes from the title: [parts] is the
    split at [" vs. "] or, without such a separator, at [" - "]; with two
    parts or more the home team is the first part and the away team the
    second part up to its first hyphen, both trimmed. *)
Definition teams `{GoStdlib} (title : list ascii) : string * string :=
  let parts :=
    match splitOnce (text " vs. ") title with
    | Some (first, rest) => Some (first, firstPart (text " vs. ") rest)
    | None =>
        match splitOnce (text " - ") title with
        | Some (first, rest) => Some (first, firstPart (text " - ") rest)
        | None => None
        end
    end in
  match parts with
  | Some (first, second) =>
      (strings_TrimSpace (string_of_list_ascii first),
       strings_TrimSpace (string_of_list_ascii (firstPart (text "-") second)))
  | None => ("", "")
  end.

Definition newline : ascii := "010"%char.

(** The submatch of [(.*?)<\/title>] at the start of the input: the
    shortest text without a newline that is followed by the closing tag. *)
Fixpoint untilClose (s : list ascii) : option (list ascii) :=
  match Services.stripPrefix (text "</title>") s with
  | Some _ => Some []
  | None =>
      match s with
      | [] => None
      | c :: s' =>
          if decide (c = newline) then None
          else match untilClose s' with
               | Some t => Some (c :: t)
               | None => None
               end
      end
  end.

(** [titleRegex.FindStringSubmatch(html)[1]], the regular expression being
    [<title>(.*?)<\/title>]: the leftmost match. *)
Fixpoint findTitle (s : list ascii) : option (list ascii) :=
  match
    match Services.stripPrefix (text "<title>") s with
    | Some rest => untilClose rest
    | None => None
    end
  with
  | Some t => Some t
  | None =>
      match s with
      | [] => None
      | _ :: s' => findTitle s'
      end
  end.

(** The three submatches of [(\d{2})\.(\d{2})\.(\d{4})] at the start
    of the input. *)
Definition dateHere (s : list ascii)
  : option (list ascii * list ascii * list ascii) :=
  match s with
  | d1 :: d2 :: p1 :: m1 :: m2 :: p2 :: y1 :: y2 :: y3 :: y4 :: _ =>
      if forallb isDigit [d1; d2; m1; m2; y1; y2; y3; y4]
         && bool_decide (p1 = "."%char) && bool_decide (p2 = "."%char)
      then Some ([d1; d2], [m1; m2], [y1; y2; y3; y4])
      else None
  | _ => None
  end.

(** [dateRegex.FindStringSubmatch(html)]: the leftmost match. *)
Fixpoint findDate (s : list ascii)
  : option (list ascii * list ascii * list ascii) :=
  match dateHere s with
  | Some found => Some found
  | None =>
      match s with
      | [] => None
      | _ :: s' => findDate s'
      end
  end.

(** The characters of [[a-zA-Z0-9-]]. *)
Definition isIdChar (c : ascii) : bool :=
  Services.isLower c || Services.isUpper c || isDigit c
  || bool_decide (c = "-"%char).

Fixpoint takeWhile (f : ascii → bool) (s : list ascii) : list ascii :=
  match s with
  | [] => []
  | c :: s' => if f c then c :: takeWhile f s' else []
  end.

(** The submatch of [\/stream\/([a-zA-Z0-9-]+)] at the start of the
    input. *)
Definition idHere (s : list ascii) : option (list ascii) :=
  match Services.stripPrefix (text "/stream/") s with
  | Some (c :: rest) =>
      if isIdChar c then Some (c :: takeWhile isIdChar rest) else None
  | _ => None
  end.

(** [uuidRegex.FindStringSubmatch(urlStr)[1]]: the leftmost match. *)
Fixpoint findId (s : list ascii) : option (list ascii) :=
  match idHere s with
  | Some id => Some id
  | None =>
      match s with
      | [] => None
      | _ :: s' => findId s'
      end
  end.

(** [sep] occurs in [s]; [pre] is what stands before its first
    occurrence. *)
Definition occurs (sep s : list ascii) : Prop :=
  ∃ pre post, s = pre ++ sep ++ post.

Definition first_at (sep pre s : list ascii) : Prop :=
  (∃ post, s = pre ++ sep ++ post) ∧
  ∀ pre' post', s = pre' ++ sep ++ post' → (length pre ≤ length pre')%nat.

(** After [pre] the text [s] goes on with a date [dd.mm.yyyy] of decimal
    digits. *)
Definition date_at (pre d m y s : list ascii) : Prop :=
  ∃ post, s = pre ++ d ++ "."%char :: m ++ "."%char :: y ++ post ∧
          length d = 2%nat ∧ length m = 2%nat ∧ length y = 4%nat ∧
          Forall (λ c, isDigit c = true) (d ++ m ++ y).

(** After [pre] the text [s] goes on with [/stream/] and the longest run
    [id], not empty, of characters of [[a-zA-Z0-9-]]. *)
Definition id_at (pre id s : list ascii) : Prop :=
  ∃ post, s = pre ++ text "/stream/" ++ id ++ post ∧
          id ≠ [] ∧ Forall (λ c, isIdChar c = true) id ∧
          match post with
          | [] => True
          | c :: _ => isIdChar c = false
          end.

(** What the HTTP client gives [ParseDVV]: an error of [client.Get], or a
    status code with the body ([None]: [ioutil.ReadAll] fails). *)
Inductive Fetched :=
  | FetchFails (err : string)
  | Fetch (status : Z) (body : option string).

Inductive ParseError :=
  | FetchFailed (err : string)
  | StatusCode (status : Z)
  | ReadFailed.

(** [func (s *MatchdayStore) ParseDVV(urlStr string) (MatchdayState, error)];
    [today] is [time.Now().Format("2006-01-02")]. *)
Definition ParseDVV `{GoStdlib} (today : string) (fetched : Fetched)
    (urlStr : string) : MatchdayState * option ParseError :=
  let zero := {| Version := 0; LastUpdated := ""; HomeTeam := ""; AwayTeam := "";
                 Date := ""; DvvLink := ""; MatchID := "" |} in
  match fetched with
  | FetchFails err => (zero, Some (FetchFailed err))
  | Fetch status body =>
      if decide (status ≠ 200%Z) then (zero, Some (StatusCode status))
      else
        match body with
        | None => (zero, Some ReadFailed)
        | Some html =>
            let '(home, away) :=
              match findTitle (text html) with
              | Some title => teams title
              | None => ("", "")
              end in
            let matchDate :=
              match findDate (text html) with
              | Some (d, m, y) =>
                  string_of_list_ascii y +:+ "-" +:+ string_of_list_ascii m
                  +:+ "-" +:+ string_of_list_ascii d
              | None => today
              end in
            let matchId :=
              match findId (text urlStr) with
              | Some id => string_of_list_ascii id
              | None => ""
              end in
            ({| Version := 0; LastUpdated := ""; HomeTeam := home;
                AwayTeam := away; Date := matchDate; DvvLink := urlStr;
                MatchID := matchId |}, None)
        end
  end.

End Stores.

Module Scout.
Import Stores.

(** A decoded JSON value, for [Number interface{}]. *)
Inductive Any :=
  | AnyNil
  | AnyBool (b : bool)
  | AnyNumber (literal : string)
  | AnyString (s : string).

(** [type Player struct] *)
Record Player := {
  Player_ID : string;
  Player_Name : string;
  Player_Number : Any;
  Player_Position : string;
  Player_Active : bool;
  Player_Scores : gmap string (list Z);
}.

(** [type ScoutState struct] *)
Record ScoutState := {
  Version : Z;
  LastUpdated : string;
  MatchName : string;
  MatchDate : string;
  Players : list Player;
}.

Definition stamp (d : ScoutState) (v : Z) (t : string) : ScoutState :=
  {| Version := v; LastUpdated := t; MatchName := MatchName d;
     MatchDate := MatchDate d; Players := Players d |}.

(** [type ScoutStore struct] *)
Record ScoutStore := {
  dataDir : string;
  currentFile : string;
  state : option ScoutState;
  disk : gmap string (option ScoutState);
}.

Definition setState (s : ScoutStore) (o : option ScoutState) : ScoutStore :=
  {| dataDir := dataDir s; currentFile := currentFile s; state := o;
     disk := disk s |}.

Definition setDisk (s : ScoutStore) (d : gmap string (option ScoutState)) : ScoutStore :=
  {| dataDir := dataDir s; currentFile := currentFile s; state := state s;
     disk := d |}.

(** [func (s *ScoutStore) save() error] *)
Definition save (ok : bool) (s : ScoutStore) : ScoutStore * option StoreError :=
  if ok then
    (setDisk s (<[currentFile s := state s]> (disk s)), None)
  else (s, Some (WriteFileError (currentFile s))).

(** [func (s *ScoutStore) GetState() models.ScoutState] *)
Definition GetState (env : StoreEnv) (s : ScoutStore) : ScoutState :=
  match state s with
  | None => {| Version := 0; LastUpdated := utc_rfc3339 env; MatchName := "";
               MatchDate := ""; Players := [] |}
  | Some d => d
  end.

(** [func (s *ScoutStore) GetVersion() int64] *)
Definition GetVersion (s : ScoutStore) : Z :=
  match state s with
  | None => 0
  | Some d => Version d
  end.

(** [func (s *ScoutStore) UpdateState(newState models.ScoutState) error] *)
Definition UpdateState (env : StoreEnv) (s : ScoutStore) (newState : ScoutState)
  : option (ScoutStore * option StoreError) :=
  prev ← state s;
  let newState := stamp newState (add64 (Version prev) 1) (utc_rfc3339 env) in
  Some (save (current_write_ok env) (setState s (Some newState))).

Fixpoint UpdateAll (s : ScoutStore) (ups : list (StoreEnv * ScoutState))
  : option ScoutStore :=
  match ups with
  | [] => Some s
  | (env, d) :: ups' => '(s', _) ← UpdateState env s d; UpdateAll s' ups'
  end.

(** [s[:i] + new + s[i+len(old):]] *)
Definition splice (s : list ascii) (i n : nat) (new : list ascii) : list ascii :=
  take i s ++ new ++ drop (i + n) s.

(** [func replaceAll(s, old, new string) string]: the loop
    [for i := 0; i < len(s); i++] re-reads [len(s)] after every replacement,
    so it is run on a budget of iterations; [None] is an exhausted budget. *)
Fixpoint replaceAll_loop (fuel : nat) (i : nat) (s old new : list ascii)
  : option (list ascii) :=
  if decide (i < length s)%nat then
    match fuel with
    | O => None
    | S fuel' =>
        let s' :=
          if decide (i + length old ≤ length s)%nat then
            if decide (take (length old) (drop i s) = old)
            then splice s i (length old) new else s
          else s in
        replaceAll_loop fuel' (S i) s' old new
    end
  else Some s.

Definition replaceAll (fuel : nat) (s old new : string) : option string :=
  string_of_list_ascii <$>
    replaceAll_loop fuel 0 (list_ascii_of_string s) (list_ascii_of_string old)
                    (list_ascii_of_string new).

Definition backslash : string := String "092"%char EmptyString.

(** The [invalid] slice of [sanitizeFilename]. *)
Definition invalid : list string :=
  ["/"; backslash; ":"; "*"; "?"; Hub.quote; "<"; ">"; "|"; " "].

(** [func sanitizeFilename(name string) string]; every replacement keeps the
    length, so [len(name)] iterations are a sufficient budget for each. *)
Definition sanitizeFilename (name : string) : option string :=
  foldl (λ result char, r ← result; replaceAll (String.length name) r char "_")
        (Some name) invalid.

(** The bytes of the [invalid] slice. *)
Definition invalid_bytes : list ascii :=
  ["/"; "092"; ":"; "*"; "?"; "034"; "<"; ">"; "|"; " "]%char.

(** The characters the specification lists: each is replaced by an
    underscore, every other character is kept. *)
Definition sanitizeChar (c : ascii) : ascii :=
  if bool_decide (String c EmptyString ∈ invalid) then "_"%char else c.

(** The default document [ArchiveMatch] resets to. *)
Definition freshState (env : StoreEnv) : ScoutState :=
  {| Version := 1; LastUpdated := utc_rfc3339 env; MatchName := "";
     MatchDate := local_date env; Players := [] |}.

(** [func (s *ScoutStore) ArchiveMatch() error]; the outer [None] is a run
    that does not return. *)
Definition ArchiveMatch `{GoStdlib} (env : StoreEnv) (s : ScoutStore)
  : option (ScoutStore * option StoreError) :=
  match state s with
  | None => Some (s, None)
  | Some cur =>
      if decide (MatchName cur = "") then Some (s, None)
      else
        sanitized ← sanitizeFilename (MatchName cur);
        let archiveName := MatchDate cur +:+ "_" +:+ sanitized +:+ ".json" in
        let archivePath := filepath_Join [dataDir s; "archive"; archiveName] in
        if archive_write_ok env then
          let s := setDisk s (<[archivePath := Some cur]> (disk s)) in
          let s := setState s (Some (freshState env)) in
          Some (save (current_write_ok env) s)
        else Some (s, Some (WriteFileError archivePath))
  end.

(** *** Construction, the methods in a row, the handler *)

(** The zero value of [ScoutState], what [json.Unmarshal] leaves for the
    text [null]. *)
Definition zeroState : ScoutState :=
  {| Version := 0; LastUpdated := ""; MatchName := ""; MatchDate := "";
     Players := [] |}.

(** [func (s *ScoutStore) load() error] on a store without a document: a
    missing file is an error, otherwise the document of the file is taken
    (the files of [disk] hold documents: a file that is no JSON text is not
    among them). *)
Definition load (s : ScoutStore) : ScoutStore * option StoreError :=
  match disk s !! currentFile s with
  | None => (s, Some (WriteFileError (currentFile s)))
  | Some doc => (setState s (Some (default zeroState doc)), None)
  end.

(** [func NewScoutStore(dataDir string)], which returns a store and an
    error; the two
    flags say whether the calls of [os.MkdirAll] succeed, and [None] is the
    nil store returned with an error. *)
Definition NewScoutStore `{GoStdlib} (mkdir_ok mkdir_archive_ok : bool)
    (env : StoreEnv) (dataDir : string) (files : gmap string (option ScoutState))
  : option ScoutStore :=
  if negb mkdir_ok then None
  else if negb mkdir_archive_ok then None
  else
    let store := {| dataDir := dataDir;
                    currentFile := filepath_Join [dataDir; "scout-current.json"];
                    state := None; disk := files |} in
    match load store with
    | (store, None) => Some store
    | (store, Some _) => Some (setState store (Some (freshState env)))
    end.

(** The calls that change a scout store. *)
Inductive Op :=
  | OpUpdate (env : StoreEnv) (newState : ScoutState)
  | OpArchive (env : StoreEnv).

(** The calls one after the other, whatever errors they return; [None] is a
    call that panics or does not return. *)
Fixpoint run_ops `{GoStdlib} (s : ScoutStore) (ops : list Op) : option ScoutStore :=
  match ops with
  | [] => Some s
  | OpUpdate env d :: ops' => '(s', _) ← UpdateState env s d; run_ops s' ops'
  | OpArchive env :: ops' => '(s', _) ← ArchiveMatch env s; run_ops s' ops'
  end.

(** What [HandleAPI] leaves in the response and hands to the broadcaster:
    a document with the type and version of the frame it broadcast, if
    any, or an error text with its status. *)
Inductive ApiResult :=
  | ApiState (doc : ScoutState) (broadcast : option (string * Z))
  | ApiError (status : Z) (error : string).

(** [func (h *ScoutHandler) HandleAPI(w http.ResponseWriter, r *http.Request)]
    with a broadcaster, the body already decoded ([None]: invalid JSON), and
    nothing running between [UpdateState] and [GetState]. *)
Definition HandleAPI (env : StoreEnv) (s : ScoutStore) (method : string)
    (body : option ScoutState) : option (ScoutStore * ApiResult) :=
  if decide (method = "GET") then Some (s, ApiState (GetState env s) None)
  else if decide (method = "POST") then
    match body with
    | None => Some (s, ApiError 400 "Invalid JSON")
    | Some newState =>
        '(s', err) ← UpdateState env s newState;
        match err with
        | Some _ => Some (s', ApiError 500 "Failed to save state")
        | None =>
            let updatedState := GetState env s' in
            Some (s', ApiState updatedState
                               (Some ("scout_update", Version updatedState)))
        end
    end
  else Some (s, ApiError 405 "Method not allowed").

End Scout.


(** ** Concrete runs *)

Module HubExamples.
Import Hub.

(** Three clients [ServeWS] has built: a browser and two controllers. *)
Definition served : Relay :=
  alloc (alloc (alloc (NewRelay "") 1 "browser-1" ClientTypeBrowser)
               2 "moblin-2" ClientTypeMoblin)
        3 "moblin-3" ClientTypeMoblin.

(** The browser is registered, the controllers are not yet. *)
Definition one_browser : Relay :=
  default served (Run served [EvRegister 1]).

(** The browser and the first controller are registered. *)
Definition browser_and_controller : Relay :=
  default served (Run served [EvRegister 1; EvRegister 2]).

(** The second controller has registered after the first. *)
Definition replaced : Relay :=
  default served (Run served [EvRegister 1; EvRegister 2; EvRegister 3]).

(** The browser is registered and never reads: 256 broadcast frames fill
    its queue. *)
Definition saturated : Relay :=
  default served (Run served (EvRegister 1 :: replicate 256 (EvBroadcast "frame"))).

(** A relay with a password: two browsers and a controller are registered
    and nobody has authenticated yet. *)
Definition guarded_steps : list Action :=
  [Serve 1 "browser-1" ClientTypeBrowser;
   Serve 2 "browser-2" ClientTypeBrowser;
   Serve 3 "moblin-3" ClientTypeMoblin;
   Hub (EvRegister 1); Hub (EvRegister 2); Hub (EvRegister 3)].

Definition guarded_world : World :=
  default (start "secret") (run (start "secret") guarded_steps).

Definition guarded : Relay := relay guarded_world.

Definition auth_with (pw : string) : Incoming :=
  {| In_Type := "auth"; In_Password := pw |}.

Definition command : Incoming := {| In_Type := "set_scene"; In_Password := "" |}.

(** The first browser and the controller have sent the password. *)
Definition authenticated_steps : list Action :=
  [Read 1 (auth_with "secret") "auth"; Step 1;
   Read 3 (auth_with "secret") "auth"; Step 3].

Definition authenticated_world : World :=
  default guarded_world (run guarded_world authenticated_steps).

Definition authenticated : Relay := relay authenticated_world.

(** The steps that lead to the runs above. *)
Definition serve_three : list Action :=
  [Serve 1 "browser-1" ClientTypeBrowser; Serve 2 "moblin-2" ClientTypeMoblin;
   Serve 3 "moblin-3" ClientTypeMoblin].

(** One broadcast from its event to the release of the read lock, with one
    client registered. *)
Definition one_broadcast (m : frame) : list Action :=
  [Hub (EvBroadcast m); HubTurn; HubTurn].

(** A browser and a controller of a relay without a password; the browser
    sends a command, the read pump of the browser reads the slot, and the
    hub loop takes the unregister event of the controller before the pump
    sends. *)
Definition overtaken_steps : list Action :=
  [Serve 1 "browser-1" ClientTypeBrowser; Serve 2 "moblin-2" ClientTypeMoblin;
   Hub (EvRegister 1); Hub (EvRegister 2);
   Read 1 command "cmd"; Hub (EvUnregister 2)].

Definition overtaken : World :=
  default (start "") (run (start "") overtaken_steps).

End HubExamples.

(** ** Call sequences on a rate limiter *)

Module RateTrace.
Import Services.

(** A call of [Allow] or a tick of the sweeper, with the clock it reads. *)
Inductive Call :=
  | CallAllow (now : Time) (key : string) (limit : Z) (window : Duration)
  | CallCleanup (now : Time).

Definition call_time (c : Call) : Time :=
  match c with
  | CallAllow now _ _ _ => now
  | CallCleanup now => now
  end.

(** The clock does not run backwards from one call to the next. *)
Fixpoint chronological (t0 : Time) (cs : list Call) : Prop :=
  match cs with
  | [] => True
  | c :: cs' => (t0 ≤ call_time c)%Z ∧ chronological (call_time c) cs'
  end.

(** Every [Allow] on [key] is made with the same limit and window. *)
Definition uniform (key : string) (limit : Z) (window : Duration)
    (cs : list Call) : Prop :=
  Forall (λ c, match c with
               | CallAllow _ k l w => k = key → l = limit ∧ w = window
               | CallCleanup _ => True
               end) cs.

(** The call times of the [Allow]s on [key] that returned true. *)
Fixpoint granted (key : string) (rl : RateLimiter) (cs : list Call) : list Time :=
  match cs with
  | [] => []
  | CallAllow now k l w :: cs' =>
      let '(rl', ok) := Allow now rl k l w in
      (if ok && bool_decide (k = key) then [now] else []) ++ granted key rl' cs'
  | CallCleanup now :: cs' => granted key (cleanup now rl) cs'
  end.

(** The limiter after the calls. *)
Fixpoint after_calls (rl : RateLimiter) (cs : list Call) : RateLimiter :=
  match cs with
  | [] => rl
  | CallAllow now k l w :: cs' => after_calls (Allow now rl k l w).1 cs'
  | CallCleanup now :: cs' => after_calls (cleanup now rl) cs'
  end.

(** The answers of the calls of [Allow], in their order. *)
Fixpoint answers (rl : RateLimiter) (cs : list Call) : list bool :=
  match cs with
  | [] => []
  | CallAllow now k l w :: cs' =>
      (Allow now rl k l w).2 :: answers (Allow now rl k l w).1 cs'
  | CallCleanup now :: cs' => answers (cleanup now rl) cs'
  end.

(** Every window is between zero and the five minutes of the sweeper. *)
Definition short_windows (cs : list Call) : Prop :=
  Forall (λ c, match c with
               | CallAllow _ _ _ w => (0 ≤ w ≤ 5 * Minute)%Z
               | CallCleanup _ => True
               end) cs.

(** The stamps stored under a key. *)
Definition stamps (rl : RateLimiter) (key : string) : list Time :=
  default [] (requests rl !! key).

(** The rolling interval of length [window] that ends at [T]. *)
Definition in_window (T : Time) (window : Duration) (t : Time) : Prop :=
  (T - window < t ∧ t ≤ T)%Z.

Global Instance in_window_dec T window t : Decision (in_window T window t).
Proof. unfold in_window. apply _. Defined.

(** A window of ten minutes, a limit of one: the sweeper ticks five and ten
    minutes after the limiter was made. *)
Definition swept : list Call :=
  [CallAllow (30 * Second) "10.0.0.1" 1 (10 * Minute);
   CallCleanup (5 * Minute);
   CallCleanup (10 * Minute);
   CallAllow (10 * Minute + Second) "10.0.0.1" 1 (10 * Minute)]%Z.

(** The same calls without the ticks of the sweeper. *)
Definition unswept : list Call :=
  [CallAllow (30 * Second) "10.0.0.1" 1 (10 * Minute);
   CallAllow (10 * Minute + Second) "10.0.0.1" 1 (10 * Minute)]%Z.

(** A limit below zero. *)
Definition negative_limit : list Call :=
  [CallAllow Second "10.0.0.1" (-1) Minute]%Z.

(** Two calls exactly one window apart, a limit of one. *)
Definition one_window_apart : list Call :=
  [CallAllow Second "10.0.0.1" 1 Minute;
   CallAllow (Second + Minute) "10.0.0.1" 1 Minute]%Z.

(** Seven login attempts of one address in six seconds, a tick in between. *)
Definition burst : list Call :=
  [CallAllow Second "10.0.0.1:login" 5 Minute;
   CallAllow (2 * Second) "10.0.0.1:login" 5 Minute;
   CallAllow (2 * Second) "10.0.0.2:login" 5 Minute;
   CallAllow (3 * Second) "10.0.0.1:login" 5 Minute;
   CallCleanup (3 * Second);
   CallAllow (4 * Second) "10.0.0.1:login" 5 Minute;
   CallAllow (5 * Second) "10.0.0.1:login" 5 Minute;
   CallAllow (6 * Second) "10.0.0.1:login" 5 Minute;
   CallAllow (6 * Second) "10.0.0.1:login" 5 Minute]%Z.

End RateTrace.

(** ** An interpretation of the library functions, to run examples *)

Module Examples.
Import Services Handlers.

Fixpoint beforeColon (s : string) : string :=
  match s with
  | EmptyString => EmptyString
  | String c s' =>
      if decide (c = ":"%char) then EmptyString else String c (beforeColon s')
  end.

(** Bodies are taken to be the bare PIN, and a body that starts with a brace
    does not decode; paths are joined with a slash; the host is what stands
    before the first colon. *)
Definition exampleStdlib : GoStdlib :=
  {| filepath_Join := λ parts,
       foldr (λ p acc, if decide (acc = "") then p else p +:+ "/" +:+ acc)
             "" parts;
     sha256_hex8 := λ _, "0123456789abcdef";
     hex_EncodeToString := λ bytes, String.concat "" ((λ _, "00") <$> bytes);
     json_Decode_LoginRequest := λ body,
       match body with
       | String "{" _ => None
       | _ => Some {| LoginRequest_PIN := body |}
       end;
     strings_TrimSpace := λ s, s;
     net_SplitHostPort := beforeColon;
     time_Format_RFC3339 := λ _, "2024-01-01T00:00:00Z" |}.

Definition request (ip body : string) : Request :=
  {| Method := "POST";
     Header_Get := λ name, if decide (name = "X-Real-IP") then ip else "";
     RemoteAddr := "127.0.0.1:4000";
     Body := body |}.

Definition at_second (n : Z) : LoginEnv :=
  {| clock_allow := (n * Second)%Z;
     create_env := {| rand_bytes := [n]; clock_created := (n * Second)%Z;
                      clock_expires := (n * Second)%Z;
                      clock_last_used := (n * Second)%Z;
                      create_write_ok := true |} |}.

Definition service : AuthService :=
  {| PIN := "274683";
     Sessions := {| sessions := Table ∅; file := "data/sessions.json";
                    persisted := None |};
     Limiter := NewRateLimiter |}.






(** The service whose sessions file held [null]: the map is nil. *)
Definition service_nil : AuthService :=
  {| PIN := "274683";
     Sessions := {| sessions := NilMap; file := "data/sessions.json";
                    persisted := None |};
     Limiter := NewRateLimiter |}.

(** A session that expires at the instant 1000. *)
Definition a_session : Session :=
  {| ID := "s1"; DeviceHash := "0123456789abcdef"; CreatedAt := 0%Z;
     ExpiresAt := 1000%Z; LastUsed := 0%Z; UserAgent := "Mozilla/5.0";
     IP := "10.0.0.1" |}.

Definition a_store : SessionStore :=
  {| sessions := Table {["s1" := a_session]}; file := "data/sessions.json";
     persisted := None |}.

(** Store environments and stores. *)
Definition writes_ok : Stores.StoreEnv :=
  {| Stores.utc_rfc3339 := "2024-03-15T18:00:00Z";
     Stores.local_date := "2024-03-15";
     Stores.archive_write_ok := true;
     Stores.current_write_ok := true |}.

Definition a_matchday (v : Z) : Stores.MatchdayState :=
  {| Stores.Version := v; Stores.LastUpdated := "2024-03-01T10:00:00Z";
     Stores.HomeTeam := "Heim"; Stores.AwayTeam := "Gast";
     Stores.Date := "2024-03-15"; Stores.DvvLink := ""; Stores.MatchID := "" |}.

Definition matchday_store (v : Z) : Stores.MatchdayStore :=
  {| Stores.dataDir := "data";
     Stores.currentFile := "data/matchday-current.json";
     Stores.state := Some (a_matchday v);
     Stores.disk := ∅ |}.

Definition from_home (home : string) : Stores.MatchdayState :=
  {| Stores.Version := 0; Stores.LastUpdated := "";
     Stores.HomeTeam := home; Stores.AwayTeam := "Gast";
     Stores.Date := "2024-03-15"; Stores.DvvLink := ""; Stores.MatchID := "" |}.

(** Two POSTs in parallel: both updates take the lock before either
    handler reads the state back. *)
Definition racing : list Stores.HandlerStep :=
  [Stores.StepUpdate 1 writes_ok (from_home "A");
   Stores.StepUpdate 2 writes_ok (from_home "B");
   Stores.StepRead 1; Stores.StepRead 2].

(** The same two POSTs one after the other. *)
Definition in_turn : list Stores.HandlerStep :=
  [Stores.StepUpdate 1 writes_ok (from_home "A"); Stores.StepRead 1;
   Stores.StepUpdate 2 writes_ok (from_home "B"); Stores.StepRead 2].

Definition a_scout (v : Z) (name : string) : Scout.ScoutState :=
  {| Scout.Version := v; Scout.LastUpdated := "2024-03-01T10:00:00Z";
     Scout.MatchName := name; Scout.MatchDate := "2024-03-15";
     Scout.Players := [] |}.

Definition scout_store (v : Z) (name : string) : Scout.ScoutStore :=
  {| Scout.dataDir := "data";
     Scout.currentFile := "data/scout-current.json";
     Scout.state := Some (a_scout v name);
     Scout.disk := ∅ |}.

(** Cookies are taken from a pseudo-header per cookie name. *)
Definition exampleHttp : GoHttp :=
  {| Request_Cookie := λ r name,
       let value := Header_Get r ("Cookie:" +:+ name) in
       if decide (value = "") then None else Some value |}.

(** A request that carries the session cookie [id]. *)
Definition with_cookie (id : string) : Request :=
  {| Method := "GET";
     Header_Get := λ name,
       if decide (name = "Cookie:vb_session") then id
       else if decide (name = "User-Agent") then "Mozilla/5.0" else "";
     RemoteAddr := "127.0.0.1:4000";
     Body := "" |}.



Definition at_clock (t : Z) : SessionEnv :=
  {| clock_get := t; clock_touch := t; touch_write_ok := true |}.

(** A clock and a disk that refuses to write the current file. *)
Definition write_fails : Stores.StoreEnv :=
  {| Stores.utc_rfc3339 := "2024-03-15T18:05:00Z";
     Stores.local_date := "2024-03-15";
     Stores.archive_write_ok := true;
     Stores.current_write_ok := false |}.

(** The service after a login with the right PIN at the first second; the
    session it created has the id [00]. *)
Definition logged_in : AuthService :=
  (@HandleLogin exampleStdlib (at_second 1) service (request "10.0.0.1" "274683")).1.

End Examples.

(** * Properties of the relay hub *)

Module HubTheory.
Import Hub.

(** A client after the non-blocking send of [m] to its open queue. *)
Lemma trySend_open m ch :
  closed ch = false →
  trySend m ch = Some {| buf := offered m (buf ch); closed := false |}.
Proof.
  intros Hc. unfold trySend, offered. rewrite Hc.
  destruct ch as [q cl]; simpl in *; subst cl.
  by case_decide.
Qed.

Lemma trySend_Some m ch ch' :
  trySend m ch = Some ch' →
  closed ch = false ∧ ch' = {| buf := offered m (buf ch); closed := false |}.
Proof.
  intros H. destruct (closed ch) eqn:Hc.
  - unfold trySend in H. by rewrite Hc in H.
  - rewrite (trySend_open m ch Hc) in H. split; congruence.
Qed.

Lemma trySendTo_Some m h p h' :
  trySendTo m h p = Some h' →
  ∃ c, h !! p = Some c ∧ closed (Send c) = false ∧
       h' = <[p := setSend c {| buf := offered m (buf (Send c)); closed := false |}]> h.
Proof.
  unfold trySendTo. destruct (h !! p) as [c|] eqn:Hp; simpl; [|done].
  destruct (trySend m (Send c)) as [ch|] eqn:Hs; simpl; [|done].
  intros [= <-]. apply trySend_Some in Hs as [Hc ->]. eauto.
Qed.

(** What a completed fan-out did: every target was open and got the frame
    offered once; every other object of the heap is untouched. *)
Lemma sendAll_Some m ps : ∀ h h',
  NoDup ps →
  sendAll m ps h = Some h' →
  (∀ p, p ∈ ps →
     ∃ c, h !! p = Some c ∧ closed (Send c) = false ∧
          h' !! p = Some (setSend c {| buf := offered m (buf (Send c));
                                       closed := false |})) ∧
  (∀ p, p ∉ ps → h' !! p = h !! p).
Proof.
  induction ps as [|q ps IH]; intros h h' Hnd Hrun; simpl in Hrun.
  - injection Hrun as <-. split; [intros p Hp; by apply elem_of_nil in Hp | done].
  - destruct (trySendTo m h q) as [h1|] eqn:Hq; simpl in Hrun; [|done].
    apply trySendTo_Some in Hq as (c & Hc & Hopen & ->).
    apply NoDup_cons in Hnd as [Hq Hnd].
    destruct (IH _ _ Hnd Hrun) as [Hin Hout]. split.
    + intros p Hp. apply elem_of_cons in Hp as [->|Hp].
      * exists c. rewrite (Hout q Hq), lookup_insert_eq. done.
      * destruct (Hin p Hp) as (c' & Hc' & Ho & Hh').
        assert (p ≠ q) by (intros ->; done).
        rewrite lookup_insert_ne in Hc' by done. eauto.
    + intros p Hp. apply not_elem_of_cons in Hp as [Hne Hp].
      rewrite (Hout p Hp), lookup_insert_ne; done.
Qed.

(** A fan-out over open queues completes: no send blocks or panics. *)
Lemma sendAll_total m ps : ∀ h,
  NoDup ps →
  (∀ p, p ∈ ps → ∃ c, h !! p = Some c ∧ closed (Send c) = false) →
  is_Some (sendAll m ps h).
Proof.
  induction ps as [|q ps IH]; intros h Hnd Hopen; simpl; [eauto|].
  apply NoDup_cons in Hnd as [Hq Hnd].
  destruct (Hopen q) as (c & Hc & Ho); [left|].
  unfold trySendTo. rewrite Hc. simpl. rewrite (trySend_open _ _ Ho). simpl.
  apply IH; [done|]. intros p Hp.
  assert (p ≠ q) by (intros ->; done).
  rewrite lookup_insert_ne by done. apply Hopen. by right.
Qed.

Lemma elem_of_values (m : gmap string ptr) p :
  p ∈ values m ↔ ∃ id, m !! id = Some p.
Proof.
  unfold values. rewrite list_elem_of_fmap. split.
  - intros ([id q] & -> & Hin). exists id. by apply elem_of_map_to_list.
  - intros (id & Hid). exists (id, p). split; [done|].
    by apply elem_of_map_to_list.
Qed.

(** A map whose pointers carry their key as [ID] holds each pointer once. *)
Lemma NoDup_values h (m : gmap string ptr) :
  registered_ok h m → NoDup (values m).
Proof.
  intros Hok. unfold values. apply NoDup_fmap_2_strong; [|apply NoDup_map_to_list].
  intros [i p] [j q] Hi Hj; simpl; intros <-.
  apply elem_of_map_to_list in Hi, Hj.
  destruct (Hok _ _ Hi) as (c & Hc & <- & _).
  destruct (Hok _ _ Hj) as (c' & Hc' & <- & _).
  congruence.
Qed.

(** The registry invariant holds initially and every event of a client
    whose queue is open keeps it. *)
Lemma WF_NewRelay pw : WF (NewRelay pw).
Proof.
  repeat split; intros ? ? ; simpl; intros; simplify_map_eq.
Qed.

Lemma registered_ok_touch h m p c ch :
  registered_ok h m → h !! p = Some c → closed ch = false →
  registered_ok (<[p := setSend c ch]> h) m.
Proof.
  intros Hok Hp Hch id q Hq. destruct (Hok _ _ Hq) as (c' & Hc' & Hid & Ho).
  destruct (decide (q = p)) as [->|Hne].
  - rewrite lookup_insert_eq. exists (setSend c ch). simplify_eq. done.
  - rewrite lookup_insert_ne by done. eauto.
Qed.

(** A completed fan-out keeps the identity, kind and openness of every
    client. *)
Lemma sendAll_preserves m ps : ∀ h h',
  sendAll m ps h = Some h' →
  ∀ p c, h !! p = Some c →
    ∃ c', h' !! p = Some c' ∧ ID c' = ID c ∧ Type_ c' = Type_ c ∧
          Authorized c' = Authorized c ∧ closed (Send c') = closed (Send c).
Proof.
  induction ps as [|q ps IH]; intros h h' Hrun p c Hp; simpl in Hrun.
  - injection Hrun as <-. by exists c.
  - destruct (trySendTo m h q) as [h1|] eqn:Hq; simpl in Hrun; [|done].
    apply trySendTo_Some in Hq as (cq & Hcq & Hopen & ->).
    destruct (decide (p = q)) as [->|Hne].
    + simplify_eq.
      destruct (IH _ _ Hrun q _ (lookup_insert_eq _ _ _)) as (c' & ? & ? & ? & ? & ?).
      exists c'. simpl in *. repeat split; congruence.
    + eapply IH; [done|]. by rewrite lookup_insert_ne.
Qed.

Lemma sendAll_registered_ok m ps h h' reg :
  sendAll m ps h = Some h' → registered_ok h reg → registered_ok h' reg.
Proof.
  intros Hrun Hok id p Hp. destruct (Hok _ _ Hp) as (c & Hc & Hid & Ho).
  destruct (sendAll_preserves _ _ _ _ Hrun _ _ Hc) as (c' & ? & ? & ? & ? & ?).
  exists c'. repeat split; congruence.
Qed.

Lemma sendAll_lookup_inv m ps : ∀ h h' p c',
  sendAll m ps h = Some h' → h' !! p = Some c' →
  ∃ c, h !! p = Some c ∧ Type_ c = Type_ c'.
Proof.
  induction ps as [|q ps IH]; intros h h' p c' Hrun Hp; simpl in Hrun.
  - injection Hrun as <-. eauto.
  - destruct (trySendTo m h q) as [h1|] eqn:Hq; simpl in Hrun; [|done].
    apply trySendTo_Some in Hq as (cq & Hcq & Hopen & ->).
    destruct (IH _ _ _ _ Hrun Hp) as (c & Hc & Hty).
    destruct (decide (p = q)) as [->|Hne].
    + rewrite lookup_insert_eq in Hc. injection Hc as <-. eauto.
    + rewrite lookup_insert_ne in Hc by done. eauto.
Qed.

(** The notification of the browsers in a well-formed registry completes
    and offers the frame to the queue of every browser. *)
Lemma notifyBrowsers_spec r msg :
  registered_ok (heap r) (browsers r) →
  ∃ r', notifyBrowsers r msg = Some r' ∧
    clients r' = clients r ∧ browsers r' = browsers r ∧ moblin r' = moblin r ∧
    password r' = password r ∧
    sendAll (marshal msg) (values (browsers r)) (heap r) = Some (heap r') ∧
    (∀ id b cb, browsers r !! id = Some b → heap r !! b = Some cb →
       ∃ cb', heap r' !! b = Some cb' ∧
              buf (Send cb') = offered (marshal msg) (buf (Send cb)) ∧
              closed (Send cb') = false) ∧
    (∀ p, (∀ id, browsers r !! id ≠ Some p) → heap r' !! p = heap r !! p).
Proof.
  intros Hok. unfold notifyBrowsers.
  pose proof (NoDup_values _ _ Hok) as Hnd.
  destruct (sendAll_total (marshal msg) (values (browsers r)) (heap r) Hnd) as [h' Hrun].
  { intros p (id & Hid)%elem_of_values.
    destruct (Hok _ _ Hid) as (c & ? & ? & ?). eauto. }
  rewrite Hrun. simpl. eexists. split; [done|]. simpl.
  destruct (sendAll_Some _ _ _ _ Hnd Hrun) as [Hin Hout].
  repeat split; try done.
  - intros id b cb Hb Hcb.
    destruct (Hin b) as (c & Hc & Ho & Hh'); [apply elem_of_values; eauto|].
    simplify_eq. eexists. split; [done|]. done.
  - intros p Hp. apply Hout. rewrite elem_of_values. intros [id Hid].
    by apply (Hp id).
Qed.

(** ** Broadcast *)

(** C2. In a well-formed registry the broadcast event of the hub loop
    completes (it cannot block or panic); it leaves the registry as it is,
    appends the frame to the queue of each registered peer that holds fewer
    than 256 frames, leaves a full queue as it is and goes on with the
    remaining peers; no other client is touched. *)
Theorem broadcast_never_blocks (r : Relay) (m : frame) :
  WF r →
  ∃ r', Run_step r (EvBroadcast m) = Some r' ∧
    clients r' = clients r ∧ browsers r' = browsers r ∧ moblin r' = moblin r ∧
    (∀ id p c, clients r !! id = Some p → heap r !! p = Some c →
       ∃ c', heap r' !! p = Some c' ∧
             ID c' = ID c ∧ Type_ c' = Type_ c ∧ Authorized c' = Authorized c ∧
             closed (Send c') = false ∧
             buf (Send c') =
               if decide (length (buf (Send c)) < 256)%nat
               then buf (Send c) ++ [m] else buf (Send c)) ∧
    (∀ p, (∀ id, clients r !! id ≠ Some p) → heap r' !! p = heap r !! p).
Proof.
  intros (Hcl & _ & _). simpl.
  pose proof (NoDup_values _ _ Hcl) as Hnd.
  destruct (sendAll_total m (values (clients r)) (heap r) Hnd) as [h' Hrun].
  { intros p (id & Hid)%elem_of_values.
    destruct (Hcl _ _ Hid) as (c & ? & ? & ?). eauto. }
  rewrite Hrun. simpl. eexists. split; [done|]. simpl.
  destruct (sendAll_Some _ _ _ _ Hnd Hrun) as [Hin Hout].
  repeat split; try done.
  - intros id p c Hp Hc.
    destruct (Hin p) as (c0 & Hc0 & Ho & Hh'); [apply elem_of_values; eauto|].
    simplify_eq. eexists. split; [done|]. done.
  - intros p Hp. apply Hout. rewrite elem_of_values. intros [id Hid].
    by apply (Hp id).
Qed.

(** ** Registration and removal keep the registry well formed *)

Lemma registered_ok_insert h (m : gmap string ptr) p c :
  registered_ok h m → h !! p = Some c → closed (Send c) = false →
  registered_ok h (<[ID c := p]> m).
Proof.
  intros Hok Hp Ho id q Hq.
  destruct (decide (id = ID c)) as [->|Hne].
  - rewrite lookup_insert_eq in Hq. injection Hq as <-. eauto.
  - rewrite lookup_insert_ne in Hq by done. eauto.
Qed.

Lemma registered_ok_close h (m : gmap string ptr) p c ch :
  registered_ok h m → h !! p = Some c →
  registered_ok (<[p := setSend c ch]> h) (delete (ID c) m).
Proof.
  intros Hok Hp id q Hq.
  apply lookup_delete_Some in Hq as [Hne Hq].
  destruct (Hok _ _ Hq) as (c' & Hc' & Hid & Ho).
  assert (q ≠ p) by (intros ->; simplify_eq; done).
  rewrite lookup_insert_ne by done. eauto.
Qed.

Lemma WF_alloc r p id ty :
  WF r → heap r !! p = None → WF (alloc r p id ty).
Proof.
  intros (Hc & Hb & Hty) Hfresh. unfold alloc. repeat split; simpl.
  - intros i q Hq. destruct (Hc _ _ Hq) as (c & ? & ? & ?).
    assert (q ≠ p) by (intros ->; congruence).
    rewrite lookup_insert_ne by done. eauto.
  - intros i q Hq. destruct (Hb _ _ Hq) as (c & ? & ? & ?).
    assert (q ≠ p) by (intros ->; congruence).
    rewrite lookup_insert_ne by done. eauto.
  - intros i q c Hq Hc'. destruct (Hb _ _ Hq) as (c0 & ? & ? & ?).
    assert (q ≠ p) by (intros ->; congruence).
    rewrite lookup_insert_ne in Hc' by done. eauto.
Qed.

Lemma WF_register r p c :
  WF r → heap r !! p = Some c → closed (Send c) = false →
  ∃ r', Run_step r (EvRegister p) = Some r' ∧ WF r'.
Proof.
  intros (Hc & Hb & Hty) Hp Ho. simpl. rewrite Hp. simpl.
  case_decide as Hk.
  - set (r2 := setMoblin (setClients r (<[ID c:=p]> (clients r))) (Some p)).
    destruct (notifyBrowsers_spec r2 (typeOnly "moblin_connected"))
      as (r' & Hrun & Hcl & Hbr & Hmo & Hpw & Hsend & _); [done|].
    exists r'. split; [done|]. unfold WF. rewrite Hcl, Hbr. simpl in *.
    repeat split.
    + eapply sendAll_registered_ok; [done|]. by apply registered_ok_insert.
    + eapply sendAll_registered_ok; done.
    + intros id b cb' Hbid Hcb'.
      destruct (sendAll_lookup_inv _ _ _ _ _ _ Hsend Hcb') as (cb & Hcb & <-).
      eauto.
  - eexists. split; [done|]. repeat split; simpl.
    + by apply registered_ok_insert.
    + by apply registered_ok_insert.
    + intros id b cb Hbid Hcb.
      destruct (decide (id = ID c)) as [->|Hne].
      * rewrite lookup_insert_eq in Hbid. by simplify_eq.
      * rewrite lookup_insert_ne in Hbid by done. eauto.
Qed.

(** The removal of a registered controller whose queue is open: the event
    completes, the slot is cleared, the queue of the controller is closed
    and the browsers are offered the [moblin_disconnected] frame. *)
Lemma unregister_controller_spec r p c :
  WF r → heap r !! p = Some c → Type_ c = ClientTypeMoblin →
  closed (Send c) = false → is_Some (clients r !! ID c) →
  ∃ r', Run_step r (EvUnregister p) = Some r' ∧ WF r' ∧
    moblin r' = None ∧
    clients r' = delete (ID c) (clients r) ∧ browsers r' = browsers r ∧
    (∃ c', heap r' !! p = Some c' ∧ closed (Send c') = true ∧
           buf (Send c') = buf (Send c)) ∧
    notified r r' "moblin_disconnected".
Proof.
  intros (Hc & Hb & Hty) Hp Hk Ho [q Hq]. simpl. rewrite Hp. simpl. rewrite Hq.
  unfold closeChan. rewrite Ho. simpl. rewrite decide_True by done.
  set (ch := {| buf := buf (Send c); closed := true |}).
  set (r1 := setMoblin (setHeap (setClients r (delete (ID c) (clients r)))
                                (<[p:=setSend c ch]> (heap r))) None).
  assert (Hnb : ∀ id b, browsers r !! id = Some b → b ≠ p).
  { intros id b Hbid ->. by eapply Hty. }
  assert (Hb1 : registered_ok (heap r1) (browsers r1)).
  { intros id b Hbid. simpl in *. rewrite lookup_insert_ne.
    - by apply Hb.
    - intros <-. by eapply Hnb. }
  destruct (notifyBrowsers_spec r1 (typeOnly "moblin_disconnected") Hb1)
    as (r' & Hrun & Hcl & Hbr & Hmo & Hpw & Hsend & Hin & Hout).
  exists r'. split; [done|]. simpl in *. unfold WF. rewrite Hcl, Hbr.
  repeat split; try done.
  - eapply sendAll_registered_ok; [done|]. by apply registered_ok_close.
  - eapply sendAll_registered_ok; done.
  - intros id b cb' Hbid Hcb'.
    destruct (sendAll_lookup_inv _ _ _ _ _ _ Hsend Hcb') as (cb & Hcb & <-).
    rewrite lookup_insert_ne in Hcb; [eauto|]. intros <-. by eapply Hnb.
  - exists (setSend c ch). rewrite Hout; [by rewrite lookup_insert_eq|].
    intros id Hid. by eapply Hnb.
  - intros id b cb Hbid Hcb.
    destruct (Hin id b cb Hbid) as (cb' & Hcb' & Hbuf & _).
    { rewrite lookup_insert_ne; [done|]. intros <-. by eapply Hnb. }
    exists cb'. split; [done|]. rewrite Hbuf. done.
Qed.

(** The removal of a registered browser. *)
Lemma unregister_browser_spec r p c :
  WF r → heap r !! p = Some c → Type_ c ≠ ClientTypeMoblin →
  closed (Send c) = false → is_Some (clients r !! ID c) →
  ∃ r', Run_step r (EvUnregister p) = Some r' ∧ WF r' ∧
        moblin r' = moblin r.
Proof.
  intros (Hc & Hb & Hty) Hp Hk Ho [q Hq]. simpl. rewrite Hp. simpl. rewrite Hq.
  unfold closeChan. rewrite Ho. simpl. rewrite decide_False by done.
  eexists. split; [done|]. split; [|done]. repeat split; simpl.
  - by apply registered_ok_close.
  - by apply registered_ok_close.
  - intros id b cb Hbid Hcb. apply lookup_delete_Some in Hbid as [Hne Hbid].
    destruct (Hb _ _ Hbid) as (cb0 & Hcb0 & Hid & _).
    assert (b ≠ p) by (intros ->; congruence).
    rewrite lookup_insert_ne in Hcb by done. eauto.
Qed.

Lemma unregister_unknown r p c :
  heap r !! p = Some c → clients r !! ID c = None →
  Run_step r (EvUnregister p) = Some r.
Proof. intros Hp Hk. simpl. rewrite Hp. simpl. by rewrite Hk. Qed.

(** The hub loop completes every admissible event, without a panic and
    without blocking, and keeps the registry well formed. *)
Lemma WF_step r e :
  WF r → admissible r e → ∃ r', Run_step r e = Some r' ∧ WF r'.
Proof.
  intros Hwf Hadm. destruct e as [p|p|m].
  - destruct Hadm as (c & Hp & Ho). by eapply WF_register.
  - destruct Hadm as (c & Hp & Ho).
    destruct (clients r !! ID c) as [q|] eqn:Hq.
    + destruct Ho as [Ho|]; [|done].
      destruct (decide (Type_ c = ClientTypeMoblin)) as [Hk|Hk].
      * destruct (unregister_controller_spec r p c Hwf Hp Hk Ho) as (r' & ? & ? & _);
          [eauto|]. eauto.
      * destruct (unregister_browser_spec r p c Hwf Hp Hk Ho) as (r' & ? & ? & _);
          [eauto|]. eauto.
    + exists r. split; [by eapply unregister_unknown | done].
  - destruct Hwf as (Hc & Hb & Hty). simpl.
    pose proof (NoDup_values _ _ Hc) as Hnd.
    destruct (sendAll_total m (values (clients r)) (heap r) Hnd) as [h' Hrun].
    { intros p (id & Hid)%elem_of_values.
      destruct (Hc _ _ Hid) as (c & ? & ? & ?). eauto. }
    rewrite Hrun. simpl. eexists. split; [done|]. repeat split; simpl.
    + by eapply sendAll_registered_ok.
    + by eapply sendAll_registered_ok.
    + intros id b cb' Hbid Hcb'.
      destruct (sendAll_lookup_inv _ _ _ _ _ _ Hrun Hcb') as (cb & Hcb & <-).
      eauto.
Qed.

Lemma WF_receive r p : WF r → WF (receive r p).
Proof.
  intros (Hc & Hb & Hty). unfold receive.
  destruct (heap r !! p) as [c|] eqn:Hp; [|done].
  destruct (buf (Send c)) as [|m q] eqn:Hq; [done|].
  assert (Hok : ∀ reg, registered_ok (heap r) reg →
            registered_ok (<[p:=setSend c {| buf := q; closed := closed (Send c) |}]>
                             (heap r)) reg).
  { intros reg Hreg id p' Hp'. destruct (Hreg _ _ Hp') as (c' & Hc' & Hid & Ho).
    destruct (decide (p' = p)) as [->|Hne].
    - rewrite lookup_insert_eq. eexists. split; [done|]. simplify_eq. done.
    - rewrite lookup_insert_ne by done. eauto. }
  repeat split; simpl; [by apply Hok | by apply Hok |].
  intros id b cb Hbid Hcb. destruct (decide (b = p)) as [->|Hne].
  - rewrite lookup_insert_eq in Hcb. injection Hcb as <-. simpl. eauto.
  - rewrite lookup_insert_ne in Hcb by done. eauto.
Qed.

(** ** The concrete runs are well formed *)

Import HubExamples.

Lemma WF_served : WF served.
Proof.
  unfold served. repeat apply WF_alloc; try apply WF_NewRelay; reflexivity.
Qed.

Lemma Run_one_browser : Run_step served (EvRegister 1) = Some one_browser.
Proof. vm_compute. reflexivity. Qed.

Lemma Run_browser_and_controller :
  Run_step one_browser (EvRegister 2) = Some browser_and_controller.
Proof. vm_compute. reflexivity. Qed.

Lemma Run_replaced :
  Run_step browser_and_controller (EvRegister 3) = Some replaced.
Proof. vm_compute. reflexivity. Qed.

(** An event that the registry lemma completes with some result completes
    with the result the run computes. *)
Lemma WF_computed r e r1 :
  (∃ r', Run_step r e = Some r' ∧ WF r') → Run_step r e = Some r1 → WF r1.
Proof. intros (r' & Hr & Hwf) Hrun. congruence. Qed.

Lemma WF_one_browser : WF one_browser.
Proof.
  apply (WF_computed served (EvRegister 1)); [|exact Run_one_browser].
  apply (WF_register served 1 (newClient "browser-1" ClientTypeBrowser ""));
    [exact WF_served | vm_compute; reflexivity | vm_compute; reflexivity].
Qed.

Lemma WF_browser_and_controller : WF browser_and_controller.
Proof.
  apply (WF_computed one_browser (EvRegister 2)); [|exact Run_browser_and_controller].
  apply (WF_register one_browser 2 (newClient "moblin-2" ClientTypeMoblin ""));
    [exact WF_one_browser | vm_compute; reflexivity | vm_compute; reflexivity].
Qed.

(** ** The controller slot *)

(** C1, as the code has it.  An unregister event for a controller that is
    not registered changes nothing and notifies nobody; an unregister event
    for the registered controller that occupies the slot completes, clears
    the slot, removes and closes the controller and offers the frame of
    type [moblin_disconnected] to every browser. *)
Theorem unregister_controller_in_slot (r : Relay) (p : ptr) (c : Client) :
  WF r → heap r !! p = Some c → Type_ c = ClientTypeMoblin →
  (clients r !! ID c = None → Run_step r (EvUnregister p) = Some r) ∧
  (clients r !! ID c = Some p → moblin r = Some p →
   ∃ r', Run_step r (EvUnregister p) = Some r' ∧
     moblin r' = None ∧
     clients r' !! ID c = None ∧
     (∃ c', heap r' !! p = Some c' ∧ closed (Send c') = true) ∧
     notified r r' "moblin_disconnected").
Proof.
  intros Hwf Hp Hk. split; [by apply unregister_unknown|].
  intros Hreg Hslot.
  destruct (proj1 Hwf _ _ Hreg) as (c0 & Hc0 & _ & Ho).
  assert (c0 = c) as -> by congruence.
  destruct (unregister_controller_spec r p c Hwf Hp Hk Ho)
    as (r' & Hrun & _ & Hmo & Hcl & _ & (c' & Hc' & Hclosed & _) & Hnot);
    [eauto|].
  exists r'. repeat split; try done.
  - rewrite Hcl. apply lookup_delete_eq.
  - eauto.
Qed.

Lemma unregister_controller_in_slot_witness :
  WF browser_and_controller ∧
  (∃ r', Run_step browser_and_controller (EvUnregister 2) = Some r' ∧
         moblin r' = None ∧ notified browser_and_controller r' "moblin_disconnected").
Proof.
  split; [exact WF_browser_and_controller|].
  assert (H1 : heap browser_and_controller !! 2
               = Some (newClient "moblin-2" ClientTypeMoblin ""))
    by (vm_compute; reflexivity).
  assert (H2 : Type_ (newClient "moblin-2" ClientTypeMoblin "") = ClientTypeMoblin)
    by (vm_compute; reflexivity).
  assert (H3 : clients browser_and_controller
                 !! ID (newClient "moblin-2" ClientTypeMoblin "") = Some 2)
    by (vm_compute; reflexivity).
  assert (H4 : moblin browser_and_controller = Some 2)
    by (vm_compute; reflexivity).
  pose proof (proj2 (unregister_controller_in_slot browser_and_controller 2
                       (newClient "moblin-2" ClientTypeMoblin "")
                       WF_browser_and_controller H1 H2) H3 H4) as H.
  destruct H as (r' & Hrun & Hmo & _ & _ & Hnot).
  exists r'. split; [exact Hrun|]. split; [exact Hmo | exact Hnot].
Defined.

(** C1, as stated, fails.  A browser and a first controller (object 2)
    register, a second controller (object 3) registers and takes the slot;
    the unregister event of the first controller then empties the slot,
    although the second controller is still registered, and the browser is
    sent the disconnect notification. *)
Lemma stale_unregister_clears_slot :
  Run served [EvRegister 1; EvRegister 2; EvRegister 3] = Some replaced ∧
  moblin replaced = Some 3 ∧
  ∃ r', Run_step replaced (EvUnregister 2) = Some r' ∧
    moblin r' = None ∧
    clients r' !! "moblin-3" = Some 3 ∧
    (buf ∘ Send) <$> heap replaced !! 1 =
      Some [lifecycle_frame "moblin_connected"; lifecycle_frame "moblin_connected"] ∧
    (buf ∘ Send) <$> heap r' !! 1 =
      Some [lifecycle_frame "moblin_connected"; lifecycle_frame "moblin_connected";
            lifecycle_frame "moblin_disconnected"].
Proof.
  split; [vm_compute; reflexivity|]. split; [vm_compute; reflexivity|].
  eexists. split; [vm_compute; reflexivity|].
  repeat split; vm_compute; reflexivity.
Qed.

(** C5, as the code has it.  In a well-formed registry, the register event
    of a controller completes, fills the slot and offers the frame of type
    [moblin_connected] to every browser; the unregister event of the
    controller in the slot completes, empties the slot and offers the frame
    of type [moblin_disconnected] to every browser; and whatever event
    changes the slot, the browsers are offered [moblin_connected] when the
    slot is occupied afterwards and [moblin_disconnected] when it is empty.
    A frame offered to a queue of 256 frames is dropped. *)
Theorem lifecycle_frames (r : Relay) :
  WF r →
  (∀ p c, heap r !! p = Some c → Type_ c = ClientTypeMoblin →
     ∃ r', Run_step r (EvRegister p) = Some r' ∧ moblin r' = Some p ∧
           notified r r' "moblin_connected") ∧
  (∀ p c, heap r !! p = Some c → Type_ c = ClientTypeMoblin →
     clients r !! ID c = Some p → moblin r = Some p →
     ∃ r', Run_step r (EvUnregister p) = Some r' ∧ moblin r' = None ∧
           notified r r' "moblin_disconnected") ∧
  (∀ e r', Run_step r e = Some r' → moblin r' ≠ moblin r →
     notified r r' (match moblin r' with
                    | Some _ => "moblin_connected"
                    | None => "moblin_disconnected"
                    end)).
Proof.
  intros Hwf. pose proof Hwf as (Hc & Hb & Hty). repeat split.
  - intros p c Hp Hk. simpl. rewrite Hp. simpl. rewrite decide_True by done.
    set (r2 := setMoblin (setClients r (<[ID c:=p]> (clients r))) (Some p)).
    destruct (notifyBrowsers_spec r2 (typeOnly "moblin_connected"))
      as (r' & Hrun & _ & _ & Hmo & _ & _ & Hin & _); [done|].
    exists r'. repeat split; try done.
    intros id b cb Hbid Hcb.
    destruct (Hin id b cb Hbid Hcb) as (cb' & Hcb' & Hbuf & _).
    exists cb'. split; [done|]. by rewrite Hbuf.
  - intros p c Hp Hk Hreg Hslot.
    destruct (Hc _ _ Hreg) as (c0 & Hc0 & _ & Ho).
    assert (c0 = c) as -> by congruence.
    destruct (unregister_controller_spec r p c Hwf Hp Hk Ho)
      as (r' & Hrun & _ & Hmo & _ & _ & _ & Hnot); [eauto|].
    exists r'. done.
  - intros e r' Hrun Hchg. destruct e as [p|p|m]; simpl in Hrun.
    + destruct (heap r !! p) as [c|] eqn:Hp; simpl in Hrun; [|done].
      case_decide as Hk; [|by simplify_eq].
      set (r2 := setMoblin (setClients r (<[ID c:=p]> (clients r))) (Some p)) in *.
      destruct (notifyBrowsers_spec r2 (typeOnly "moblin_connected"))
        as (r1 & Hrun1 & _ & _ & Hmo & _ & _ & Hin & _); [done|].
      rewrite Hrun1 in Hrun. injection Hrun as <-. rewrite Hmo. simpl.
      intros id b cb Hbid Hcb.
      destruct (Hin id b cb Hbid Hcb) as (cb' & Hcb' & Hbuf & _).
      exists cb'. split; [done|]. by rewrite Hbuf.
    + destruct (heap r !! p) as [c|] eqn:Hp; simpl in Hrun; [|done].
      destruct (clients r !! ID c) as [q|] eqn:Hq; [|by simplify_eq].
      destruct (closeChan (Send c)) as [ch|] eqn:Hch; simpl in Hrun; [|done].
      case_decide as Hk; [|by simplify_eq].
      assert (Ho : closed (Send c) = false).
      { unfold closeChan in Hch. by destruct (closed (Send c)). }
      destruct (unregister_controller_spec r p c Hwf Hp Hk Ho)
        as (r1 & Hrun1 & _ & Hmo & _ & _ & _ & Hnot); [eauto|].
      simpl in Hrun1. rewrite Hp in Hrun1. simpl in Hrun1.
      rewrite Hq, Hch in Hrun1. simpl in Hrun1.
      rewrite decide_True in Hrun1 by done.
      rewrite Hrun in Hrun1. injection Hrun1 as <-. by rewrite Hmo.
    + destruct (sendAll m (values (clients r)) (heap r)); simpl in Hrun; [|done].
      injection Hrun as <-. done.
Qed.

Lemma lifecycle_frames_witness :
  WF one_browser ∧
  ∃ r', Run_step one_browser (EvRegister 2) = Some r' ∧ moblin r' = Some 2 ∧
        notified one_browser r' "moblin_connected".
Proof.
  split; [exact WF_one_browser|].
  assert (H1 : heap one_browser !! 2
               = Some (newClient "moblin-2" ClientTypeMoblin ""))
    by (vm_compute; reflexivity).
  assert (H2 : Type_ (newClient "moblin-2" ClientTypeMoblin "") = ClientTypeMoblin)
    by (vm_compute; reflexivity).
  exact (proj1 (lifecycle_frames one_browser WF_one_browser) 2 _ H1 H2).
Defined.

(** C5, as stated, fails.  When the controller registers, the frame in the
    queue of the browser has the type [moblin_connected], which is not the
    frame of type [controller_connected]; the frame on removal has the type
    [moblin_disconnected]; and a browser whose queue holds 256 frames is not
    sent the frame at all: its queue is the same before and after. *)
Lemma lifecycle_frame_is_not_controller_connected :
  moblin one_browser = None ∧
  (∃ r', Run_step one_browser (EvRegister 2) = Some r' ∧
     moblin r' = Some 2 ∧
     (buf ∘ Send) <$> heap r' !! 1 = Some [lifecycle_frame "moblin_connected"] ∧
     (buf ∘ Send) <$> heap r' !! 1 ≠ Some [lifecycle_frame "controller_connected"]) ∧
  (∃ r', Run_step browser_and_controller (EvUnregister 2) = Some r' ∧
     moblin r' = None ∧
     (buf ∘ Send) <$> heap r' !! 1 =
       Some [lifecycle_frame "moblin_connected"; lifecycle_frame "moblin_disconnected"] ∧
     (buf ∘ Send) <$> heap r' !! 1 ≠
       Some [lifecycle_frame "moblin_connected"; lifecycle_frame "controller_disconnected"]) ∧
  (browsers saturated !! "browser-1" = Some 1 ∧
   (length ∘ buf ∘ Send) <$> heap saturated !! 1 = Some 256%nat ∧
   ∃ r', Run_step saturated (EvRegister 2) = Some r' ∧
     moblin r' = Some 2 ∧
     (buf ∘ Send) <$> heap r' !! 1 = (buf ∘ Send) <$> heap saturated !! 1 ∧
     (buf ∘ Send) <$> heap r' !! 1 = Some (replicate 256 "frame")).
Proof.
  split; [vm_compute; reflexivity|]. split; [|split].
  - eexists. split; [vm_compute; reflexivity|].
    repeat split; try (vm_compute; reflexivity). vm_compute. discriminate.
  - eexists. split; [vm_compute; reflexivity|].
    repeat split; try (vm_compute; reflexivity). vm_compute. discriminate.
  - split; [vm_compute; reflexivity|]. split; [vm_compute; reflexivity|].
    eexists. split; [vm_compute; reflexivity|].
    repeat split; vm_compute; reflexivity.
Qed.

(** The frames the relay marshals, as texts. *)
Lemma marshal_lifecycle t : marshal (typeOnly t) = lifecycle_frame t.
Proof. reflexivity. Qed.

Example moblin_connected_text :
  marshal (typeOnly "moblin_connected") = json_text "{'type':'moblin_connected'}".
Proof. reflexivity. Qed.

Example moblin_disconnected_text :
  marshal (typeOnly "moblin_disconnected")
  = json_text "{'type':'moblin_disconnected'}".
Proof. reflexivity. Qed.

Example auth_failed_text :
  marshal {| Msg_Type := "auth_failed"; Msg_Message := "Invalid password";
             Msg_Status := "error" |}
  = json_text "{'type':'auth_failed','message':'Invalid password','status':'error'}".
Proof. reflexivity. Qed.

Lemma broadcast_never_blocks_witness :
  WF one_browser ∧
  ∃ r', Run_step one_browser (EvBroadcast "ping") = Some r' ∧
        clients r' = clients one_browser.
Proof.
  split; [exact WF_one_browser|].
  pose proof (broadcast_never_blocks one_browser "ping" WF_one_browser) as H.
  destruct H as (r' & Hrun & Hcl & _).
  exists r'. split; [exact Hrun | exact Hcl].
Defined.

End HubTheory.

(** * Properties of the rate limiter *)

Module RateTheory.
Import Services RateTrace.

Local Open Scope Z_scope.

Lemma wrap64_small z : min_int64 ≤ z ≤ max_int64 → wrap64 z = z.
Proof.
  unfold wrap64, min_int64, max_int64. intros Hz.
  rewrite Z.mod_small; lia.
Qed.

Lemma negDuration_small d :
  - max_int64 ≤ d ≤ max_int64 → negDuration d = - d.
Proof.
  intros Hd. unfold negDuration, neg64. apply wrap64_small.
  unfold min_int64, max_int64 in *. lia.
Qed.

Lemma keepAfter_filter cutoff reqs :
  keepAfter cutoff reqs = filter (λ t, cutoff < t) reqs.
Proof.
  unfold keepAfter. apply list_filter_iff. intros t. unfold After.
  rewrite bool_decide_eq_true. done.
Qed.

(** Dropping the stamps up to [c] from what was kept above [c0]. *)
Lemma keepAfter_kept c c0 (hist : list Time) :
  c0 ≤ c →
  keepAfter c (filter (λ t, c0 < t) hist) = filter (λ t, c < t) hist.
Proof.
  intros Hle. rewrite keepAfter_filter. apply list_filter_filter_l.
  intros t. lia.
Qed.

Lemma keepAfter_kept_max c c0 (hist : list Time) :
  keepAfter c (filter (λ t, c0 < t) hist) = filter (λ t, Z.max c0 c < t) hist.
Proof.
  rewrite keepAfter_filter, list_filter_filter.
  apply list_filter_iff. intros t. lia.
Qed.

(** The stamps the sweeper leaves under a key. *)
Lemma cleanup_lookup now rl key :
  default [] (requests (cleanup now rl) !! key)
  = keepAfter (now - 5 * Minute) (default [] (requests rl !! key)).
Proof.
  unfold cleanup. simpl. rewrite lookup_omap.
  change (negDuration (5 * Minute)) with (- (5 * Minute)).
  unfold Add. replace (now + - (5 * Minute)) with (now - 5 * Minute) by lia.
  destruct (requests rl !! key) as [reqs|]; simpl; [|done].
  case_decide as Hn; simpl; [|done].
  by destruct (keepAfter (now - 5 * Minute) reqs).
Qed.

Lemma length_filter_mono {A} (P Q : A → Prop) `{!∀ x, Decision (P x)}
    `{!∀ x, Decision (Q x)} (l : list A) :
  (∀ x, x ∈ l → P x → Q x) →
  (length (filter P l) ≤ length (filter Q l))%nat.
Proof.
  induction l as [|a l IH]; intros Himp; [done|].
  rewrite !filter_cons.
  assert (length (filter P l) ≤ length (filter Q l))%nat as IH'.
  { apply IH. intros x Hx. apply Himp. by right. }
  destruct (decide (P a)) as [HP|HP].
  - rewrite decide_True by (apply Himp; [left|done]). simpl. lia.
  - destruct (decide (Q a)); simpl; lia.
Qed.

(** The invariant behind the bound.  [hist] are the grants so far, none
    later than the clock; the stamps stored under the key are the grants
    later than some cutoff [c0] that lies at least one window back; and the
    bound holds for [hist]. Then it holds after any further calls. *)
Lemma granted_bound_from key limit window :
  0 < window → window ≤ 5 * Minute → 0 ≤ limit →
  ∀ cs rl hist clock c0,
    chronological clock cs → uniform key limit window cs →
    c0 ≤ clock - window →
    default [] (requests rl !! key) = filter (λ t, c0 < t) hist →
    Forall (λ t, t ≤ clock) hist →
    (∀ T, Z.of_nat (length (filter (in_window T window) hist)) ≤ limit) →
    ∀ T, Z.of_nat (length (filter (in_window T window)
                                  (hist ++ granted key rl cs))) ≤ limit.
Proof.
  intros Hw Hw5 Hl. assert (Hneg : negDuration window = - window).
  { apply negDuration_small. unfold Minute, Second, max_int64 in *. lia. }
  induction cs as [|c cs IH]; intros rl hist clock c0 Hchr Huni Hc0 Hst Hle Hb T.
  { simpl. rewrite app_nil_r. apply Hb. }
  destruct Hchr as [Hclk Hchr]. apply Forall_cons in Huni as [Hu Huni].
  assert (Hle' : Forall (λ t, t ≤ call_time c) hist).
  { eapply Forall_impl; [done|]. simpl. intros. lia. }
  destruct c as [now k l w|now]; simpl in *.
  - destruct (Allow now rl k l w) as [rl' ok] eqn:HA.
    unfold Allow in HA. unfold Time in *.
    destruct (decide (k = key)) as [->|Hk].
    + destruct Hu as [-> ->]; [done|].
      rewrite Hneg, Hst in HA. unfold Add in HA.
      replace (now + - window) with (now - window) in HA by lia.
      rewrite keepAfter_kept in HA by lia.
      case_decide as Hfull; injection HA as <- <-; simpl.
      * apply (IH rl hist now c0); [done | done | lia | done | done | done].
      * rewrite bool_decide_eq_true_2 by done. simpl.
        replace (hist ++ now :: granted key
                   {| requests := <[key:=filter (λ t, now - window < t) hist ++ [now]]>
                                    (requests rl) |} cs)
          with ((hist ++ [now]) ++ granted key
                   {| requests := <[key:=filter (λ t, now - window < t) hist ++ [now]]>
                                    (requests rl) |} cs)
          by (by rewrite <- app_assoc).
        apply (IH _ _ now (now - window)); try done.
        -- simpl. rewrite lookup_insert_eq. simpl.
           rewrite filter_app, filter_cons_True by lia. done.
        -- apply Forall_app. split; [done|]. apply Forall_singleton. lia.
        -- intros T'. rewrite filter_app, length_app.
           destruct (decide (in_window T' window now)) as [Hin|Hout].
           ++ rewrite filter_cons_True by done. simpl.
              match goal with
              | |- Z.of_nat (?m + 1) ≤ _ =>
                  match type of Hfull with
                  | ¬ (_ ≤ Z.of_nat ?n) => assert (m ≤ n)%nat
                  end
              end.
              { apply length_filter_mono. intros x Hx [Hx1 Hx2].
                rewrite Forall_forall in Hle'. specialize (Hle' x Hx).
                destruct Hin. lia. }
              lia.
           ++ rewrite filter_cons_False by done. simpl.
              specialize (Hb T'). lia.
    + assert (default [] (requests rl' !! key) = default [] (requests rl !! key)) as Hsame.
      { case_decide; injection HA as <- <-; [done|]. simpl.
        by rewrite lookup_insert_ne. }
      rewrite bool_decide_eq_false_2, andb_false_r by done.
      simpl. apply (IH rl' hist now c0);
        [done | done | lia | exact (eq_trans Hsame Hst) | done | done].
  - apply (IH _ _ now (Z.max c0 (now - 5 * Minute))); try done.
    + lia.
    + etrans; [apply cleanup_lookup|]. unfold Time in *. rewrite Hst.
      apply keepAfter_kept_max.
Qed.

(** What one call of [Allow] does, for a window that [int64] can negate:
    the stamps not later than [now - window] are dropped before counting,
    the call succeeds iff fewer than [limit] stamps remain, a successful
    call stores the remaining stamps followed by [now], and a refused call
    leaves the limiter as it is. *)
Lemma Allow_spec now rl key limit window :
  - max_int64 ≤ window ≤ max_int64 →
  let kept := filter (λ t, now - window < t) (default [] (requests rl !! key)) in
  ((Allow now rl key limit window).2 = true ↔ Z.of_nat (length kept) < limit) ∧
  ((Allow now rl key limit window).2 = true →
     requests (Allow now rl key limit window).1 = <[key := kept ++ [now]]> (requests rl)) ∧
  ((Allow now rl key limit window).2 = false →
     (Allow now rl key limit window).1 = rl).
Proof.
  intros Hw kept. unfold Allow. rewrite negDuration_small by done.
  unfold Add. replace (now + - window) with (now - window) by lia.
  rewrite keepAfter_filter. unfold Time in *. fold kept.
  case_decide; simpl; repeat split; intros; try done; try lia.
Qed.

(** C4, as the code has it.  For a limit that is not negative and a window
    of at most five minutes (the cutoff of the sweeper), whatever calls of
    [Allow] on whatever keys and whatever ticks of the sweeper a fresh
    limiter serves in the order of the clock, with one limit and one window
    for the key: the calls on the key that returned true and whose times
    lie in a rolling interval [(T - window, T]] number at most [limit]. *)
Theorem allow_window_bound (key : string) (limit : Z) (window : Duration)
    (t0 : Time) (cs : list Call) (T : Time) :
  0 ≤ limit → window ≤ 5 * Minute →
  chronological t0 cs → uniform key limit window cs →
  Z.of_nat (length (filter (in_window T window)
                           (granted key NewRateLimiter cs))) ≤ limit.
Proof.
  intros Hl Hw5 Hchr Huni.
  destruct (decide (0 < window)) as [Hw|Hw].
  - apply (granted_bound_from key limit window Hw Hw5 Hl cs NewRateLimiter []
             t0 (t0 - window)); done.
  - replace (filter (in_window T window) (granted key NewRateLimiter cs))
      with (@nil Time); [simpl; lia|].
    symmetry. induction (granted key NewRateLimiter cs) as [|t l IH]; [done|].
    rewrite filter_cons_False; [done|]. unfold in_window. lia.
Qed.

Lemma allow_window_bound_witness :
  chronological 0 burst ∧ uniform "10.0.0.1:login" 5 Minute burst ∧
  granted "10.0.0.1:login" NewRateLimiter burst
    = [Second; 2 * Second; 3 * Second; 4 * Second; 5 * Second] ∧
  Z.of_nat (length (filter (in_window (6 * Second) Minute)
                           (granted "10.0.0.1:login" NewRateLimiter burst))) ≤ 5.
Proof.
  assert (Hc : chronological 0 burst) by (vm_compute; intuition discriminate).
  assert (Hu : uniform "10.0.0.1:login" 5 Minute burst).
  { unfold burst. repeat constructor; intros [=]. }
  split; [exact Hc|]. split; [exact Hu|]. split; [vm_compute; reflexivity|].
  apply (allow_window_bound "10.0.0.1:login" 5 Minute 0 burst (6 * Second)).
  - lia.
  - vm_compute. discriminate.
  - exact Hc.
  - exact Hu.
Defined.

(** C4, as stated for every window, fails.  With a window of ten minutes
    and a limit of one, a call is granted thirty seconds after the limiter
    was made; the sweeper ticks at five and at ten minutes and, with its
    cutoff of five minutes, drops the stamp; the call one second later is
    granted too.  Both grants lie in one interval of ten minutes.  Without
    the sweeper the second call is refused.  The other two conditions of
    the bound are needed as well: with a limit below zero no call is
    granted, and none is still more than the limit; and two calls exactly
    one window apart are both granted, so the interval is half-open. *)
Lemma sweeper_forgets_long_windows :
  (chronological 0 swept ∧
   uniform "10.0.0.1" 1 (10 * Minute) swept ∧
   granted "10.0.0.1" NewRateLimiter swept = [30 * Second; 10 * Minute + Second] ∧
   length (filter (in_window (10 * Minute + Second) (10 * Minute))
                  (granted "10.0.0.1" NewRateLimiter swept)) = 2%nat ∧
   ¬ (Z.of_nat (length (filter (in_window (10 * Minute + Second) (10 * Minute))
                               (granted "10.0.0.1" NewRateLimiter swept))) ≤ 1) ∧
   granted "10.0.0.1" NewRateLimiter unswept = [30 * Second]) ∧
  (granted "10.0.0.1" NewRateLimiter negative_limit = [] ∧
   ¬ (Z.of_nat (length (granted "10.0.0.1" NewRateLimiter negative_limit)) ≤ -1)) ∧
  (granted "10.0.0.1" NewRateLimiter one_window_apart = [Second; Second + Minute] ∧
   (Second + Minute) - Second = Minute).
Proof.
  split; [|split].
  - split; [vm_compute; intuition discriminate|].
    split; [unfold swept; repeat constructor; done|].
    split; [vm_compute; reflexivity|].
    split; [vm_compute; reflexivity|].
    split; [vm_compute; intros H; by apply H|].
    vm_compute; reflexivity.
  - split; [vm_compute; reflexivity|]. vm_compute. intros H; by apply H.
  - split; vm_compute; reflexivity.
Qed.

End RateTheory.

(** * Properties of the session store *)

Module SessionTheory.
Import Services Examples.

Local Open Scope Z_scope.

(** C8, as the code has it.  [Get], in both packages, returns the stored
    record iff the id is present and the clock is not after [ExpiresAt]:
    [now ≤ ExpiresAt], the instant of expiry included; it returns nothing
    whenever [now > ExpiresAt]. *)
Theorem Get_iff (now : Time) (s : SessionStore) (id : string) (x : Session) :
  (Get now s id = Some x ↔ sessions s !! id = Some x ∧ now ≤ ExpiresAt x) ∧
  (Get_main now s id = Some x ↔ sessions s !! id = Some x ∧ now ≤ ExpiresAt x).
Proof.
  unfold Get, Get_main, After.
  destruct (sessions s !! id) as [y|] eqn:Hy; simpl.
  - case_bool_decide as Hexp.
    + split; split; try done; intros [[= ->] ?]; lia.
    + split; split; try (intros [= ->]; split; [done|lia]);
        by intros [[= ->] ?].
  - split; split; try done; by intros [? ?].
Qed.

(** C8, as stated, fails at the instant of expiry: the session that expires
    at 1000 is still returned at the clock reading 1000 (and not at 1001). *)
Lemma Get_at_expiry :
  ExpiresAt a_session = 1000 ∧
  Get 1000 a_store "s1" = Some a_session ∧
  Get_main 1000 a_store "s1" = Some a_session ∧
  Get 1001 a_store "s1" = None.
Proof. repeat split; vm_compute; reflexivity. Qed.

End SessionTheory.

(** * Properties of the bot filter *)

Module BotTheory.
Import Services.

Lemma stripPrefix_Some p : ∀ s rest,
  stripPrefix p s = Some rest ↔ s = p ++ rest.
Proof.
  induction p as [|a p IH]; intros s rest; simpl.
  - split; [by intros [= ->] | by intros ->].
  - destruct s as [|b s]; [done|]. case_decide as Hab.
    + subst b. rewrite IH. split; [by intros -> | by intros [= ->]].
    + split; [done | by intros [= -> ->]].
Qed.

(** The match at the start of the input finds exactly the folded spellings
    of the literal that are a prefix of the input. *)
Lemma matchHere_iff pat : ∀ s,
  matchHere pat s = true ↔ ∃ mid post, s = mid ++ post ∧ folded pat mid.
Proof.
  induction pat as [|c pat IH]; intros s; cbn [matchHere].
  - split; [|done]. intros _. exists [], s. split; [done | constructor].
  - rewrite existsb_exists. split.
    + intros (alt & Halt & Hm).
      destruct (stripPrefix alt s) as [rest|] eqn:Hs; [|done].
      apply stripPrefix_Some in Hs as ->.
      apply IH in Hm as (mid & post & -> & Hf).
      exists (alt ++ mid), post. split; [by rewrite app_assoc|].
      constructor; [by apply list_elem_of_In | done].
    + intros (mid & post & -> & Hf). inversion Hf as [|c' alt pat' rest Halt Hf']; subst.
      exists alt. split; [by apply list_elem_of_In|].
      rewrite <- app_assoc.
      rewrite (proj2 (stripPrefix_Some alt (alt ++ rest ++ post) (rest ++ post)) eq_refl).
      apply IH. by exists rest, post.
Qed.

(** The search finds exactly the folded spellings of the literal that occur
    somewhere in the input. *)
Lemma searchFrom_iff pat : ∀ s,
  searchFrom pat s = true ↔
  ∃ pre mid post, s = pre ++ mid ++ post ∧ folded pat mid.
Proof.
  induction s as [|a s IH]; simpl; rewrite orb_true_iff, matchHere_iff.
  - split.
    + intros [(mid & post & Hs & Hf)|]; [|done]. by exists [], mid, post.
    + intros (pre & mid & post & Hs & Hf). left.
      destruct pre; [|done]. by exists mid, post.
  - rewrite IH. split.
    + intros [(mid & post & Hs & Hf)|(pre & mid & post & -> & Hf)].
      * by exists [], mid, post.
      * by exists (a :: pre), mid, post.
    + intros (pre & mid & post & Hs & Hf). destruct pre as [|b pre].
      * left. by exists mid, post.
      * right. injection Hs as -> ->. by exists pre, mid, post.
Qed.

Lemma MatchString_iff token userAgent :
  MatchString token userAgent = true ↔ contains_token token userAgent.
Proof. apply searchFrom_iff. Qed.

(** X23. [isBot] of the monolithic auth file, the filter of [authMiddleware]
    and [publicMiddleware], follows the rule of the ten tokens: it returns
    true iff the user-agent is not empty and contains one of [bot],
    [crawler], [spider], [scraper], [curl], [wget], [python-requests],
    [headless], [phantom], [selenium] in any mix of upper and lower case,
    where U+017F also counts as an s and U+212A as a k. *)
Lemma isBot_iff userAgent :
  isBot userAgent = true ↔
  userAgent ≠ "" ∧ ∃ token, token ∈ bot_tokens ∧ contains_token token userAgent.
Proof.
  unfold isBot. case_decide as He.
  - split; [done | by intros [? _]].
  - rewrite existsb_exists. split.
    + intros (token & Hin & Hm). split; [done|]. exists token.
      split; [by apply list_elem_of_In | by apply MatchString_iff].
    + intros (_ & token & Hin & Hm). exists token.
      split; [by apply list_elem_of_In | by apply MatchString_iff].
Qed.

(** X24. [IsBot] of the services package, the filter of [Protect], returns
    true iff the user-agent is not empty and contains one of the six tokens
    [bot], [crawler], [spider], [scraper], [curl], [wget] in any mix of
    upper and lower case (U+017F counting as an s and U+212A as a k); no
    other user-agent is refused by it. *)
Lemma IsBot_iff userAgent :
  IsBot userAgent = true ↔
  userAgent ≠ "" ∧
  ∃ token, token ∈ take 6 bot_tokens ∧ contains_token token userAgent.
Proof.
  unfold IsBot. case_decide as He.
  - split; [done | by intros [? _]].
  - rewrite existsb_exists. split.
    + intros (token & Hin & Hm). split; [done|]. exists token.
      split; [by apply list_elem_of_In | by apply MatchString_iff].
    + intros (_ & token & Hin & Hm). exists token.
      split; [by apply list_elem_of_In | by apply MatchString_iff].
Qed.

Lemma contains_token_prefix token rest :
  contains_token token (token +:+ rest).
Proof.
  exists [], (list_ascii_of_string token), (list_ascii_of_string rest).
  split.
  - simpl. induction token as [|c token IH]; simpl; [done|]. by rewrite IH.
  - induction (list_ascii_of_string token) as [|c pat IH]; [constructor|].
    change (c :: pat) with ([c] ++ pat). constructor; [|done].
    unfold foldAlternatives. left.
Qed.

(** C6 on the code.  User-agents that contain the tokens [python-requests],
    [headless], [phantom] and [selenium] are bots for [isBot] of the
    monolithic auth file and are let through by [IsBot] of the services
    package; the empty user-agent is let through by both. *)
Theorem IsBot_misses_four_tokens :
  (contains_token "python-requests" "python-requests/2.31.0" ∧
   isBot "python-requests/2.31.0" = true ∧
   IsBot "python-requests/2.31.0" = false) ∧
  (isBot "headless" = true ∧ IsBot "headless" = false) ∧
  (isBot "phantom" = true ∧ IsBot "phantom" = false) ∧
  (isBot "selenium" = true ∧ IsBot "selenium" = false) ∧
  (isBot "" = false ∧ IsBot "" = false).
Proof.
  split.
  - split; [apply (contains_token_prefix "python-requests" "/2.31.0")|].
    split; vm_compute; reflexivity.
  - repeat split; vm_compute; reflexivity.
Qed.

End BotTheory.

(** * Properties of the login handlers *)

Module LoginTheory.
Import Services Handlers Main Examples RateTheory.

Local Open Scope Z_scope.

Section Login.
Context `{GoStdlib}.
















Lemma login_from_main_eq ip t0 er : login_from ip t0 er ↔ login_from_main ip t0 er.
Proof. done. Qed.



End Login.

(** The example requests meet the conditions of the theorems. *)











End LoginTheory.

(** * Properties of the versioned stores *)

Module StoreTheory.
Import Examples.

Local Open Scope Z_scope.

Lemma add64_succ v : min_int64 ≤ v < max_int64 → add64 v 1 = v + 1.
Proof.
  unfold add64, wrap64, min_int64, max_int64. intros Hv.
  rewrite Z.mod_small; lia.
Qed.

Lemma add64_max : add64 max_int64 1 = min_int64.
Proof. reflexivity. Qed.

(** One update of the matchday store. *)
Lemma Matchday_UpdateState_spec env s d prev :
  Stores.state s = Some prev →
  ∃ s' err d',
    Stores.UpdateState env s d = Some (s', err) ∧
    Stores.state s' = Some d' ∧ Stores.GetState s' = d' ∧
    d' = Stores.stamp d (add64 (Stores.Version prev) 1) (Stores.utc_rfc3339 env) ∧
    (Stores.current_write_ok env = true →
       err = None ∧ Stores.disk s' !! Stores.currentFile s' = Some (Some d')) ∧
    (Stores.current_write_ok env = false → err ≠ None ∧ Stores.disk s' = Stores.disk s).
Proof.
  intros Hprev. unfold Stores.UpdateState. rewrite Hprev. simpl.
  unfold Stores.save. destruct (Stores.current_write_ok env); simpl.
  - eexists _, _, _. split; [done|]. unfold Stores.GetState. simpl.
    repeat split; try done. by rewrite lookup_insert_eq.
  - eexists _, _, _. split; [done|]. unfold Stores.GetState. simpl.
    repeat split; done.
Qed.

(** One update of the scout store. *)
Lemma Scout_UpdateState_spec env s d prev :
  Scout.state s = Some prev →
  ∃ s' err d',
    Scout.UpdateState env s d = Some (s', err) ∧
    Scout.state s' = Some d' ∧ Scout.GetState env s' = d' ∧
    d' = Scout.stamp d (add64 (Scout.Version prev) 1) (Stores.utc_rfc3339 env) ∧
    (Stores.current_write_ok env = true →
       err = None ∧ Scout.disk s' !! Scout.currentFile s' = Some (Some d')) ∧
    (Stores.current_write_ok env = false → err ≠ None ∧ Scout.disk s' = Scout.disk s).
Proof.
  intros Hprev. unfold Scout.UpdateState. rewrite Hprev. simpl.
  unfold Scout.save. destruct (Stores.current_write_ok env); simpl.
  - eexists _, _, _. split; [done|]. unfold Scout.GetState. simpl.
    repeat split; try done. by rewrite lookup_insert_eq.
  - eexists _, _, _. split; [done|]. unfold Scout.GetState. simpl.
    repeat split; done.
Qed.

(** A run of updates that stays below the largest [int64]: it completes and
    the version has grown by the number of updates. *)
Lemma Matchday_UpdateAll_version : ∀ ups s prev,
  Stores.state s = Some prev →
  min_int64 ≤ Stores.Version prev →
  Stores.Version prev + Z.of_nat (length ups) ≤ max_int64 →
  ∃ s' last, Stores.UpdateAll s ups = Some s' ∧ Stores.state s' = Some last ∧
             Stores.Version last = Stores.Version prev + Z.of_nat (length ups).
Proof.
  induction ups as [|[env d] ups IH]; intros s prev Hprev Hmin Hmax.
  - exists s, prev. simpl. repeat split; [done | lia].
  - destruct (Matchday_UpdateState_spec env s d prev Hprev)
      as (s1 & err & d1 & Hrun & Hst & _ & Hd1 & _).
    simpl length in Hmax.
    assert (Stores.Version d1 = Stores.Version prev + 1) as Hv.
    { rewrite Hd1. simpl. apply add64_succ. lia. }
    destruct (IH s1 d1 Hst) as (s' & last & Hall & Hlast & Hver); [lia | lia |].
    exists s', last. simpl. rewrite Hrun. simpl.
    repeat split; [done | done | lia].
Qed.

Lemma Scout_UpdateAll_version : ∀ ups s prev,
  Scout.state s = Some prev →
  min_int64 ≤ Scout.Version prev →
  Scout.Version prev + Z.of_nat (length ups) ≤ max_int64 →
  ∃ s' last, Scout.UpdateAll s ups = Some s' ∧ Scout.state s' = Some last ∧
             Scout.Version last = Scout.Version prev + Z.of_nat (length ups).
Proof.
  induction ups as [|[env d] ups IH]; intros s prev Hprev Hmin Hmax.
  - exists s, prev. simpl. repeat split; [done | lia].
  - destruct (Scout_UpdateState_spec env s d prev Hprev)
      as (s1 & err & d1 & Hrun & Hst & _ & Hd1 & _).
    simpl length in Hmax.
    assert (Scout.Version d1 = Scout.Version prev + 1) as Hv.
    { rewrite Hd1. simpl. apply add64_succ. lia. }
    destruct (IH s1 d1 Hst) as (s' & last & Hall & Hlast & Hver); [lia | lia |].
    exists s', last. simpl. rewrite Hrun. simpl.
    repeat split; [done | done | lia].
Qed.

(** C3, as the code has it.  For the matchday store and the scout store
    with a document in memory: an update completes; the document it stores,
    which is the one [GetState] returns right after it, carries the previous
    version plus 1 in [int64] arithmetic, that is the successor whenever the
    previous version is below the largest [int64]; its [LastUpdated] is the UTC clock
    reading and its payload is the caller's; the version and the time stamp
    the caller supplied are ignored; and a run of updates that stays below
    the largest [int64] adds one per update. *)
Theorem update_stamps_next_version (env : Stores.StoreEnv)
    (ms : Stores.MatchdayStore) (md mprev : Stores.MatchdayState)
    (ss : Scout.ScoutStore) (sd sprev : Scout.ScoutState) :
  Stores.state ms = Some mprev → Scout.state ss = Some sprev →
  (∃ ms' err d',
     Stores.UpdateState env ms md = Some (ms', err) ∧
     Stores.state ms' = Some d' ∧ Stores.GetState ms' = d' ∧
     Stores.Version d' = add64 (Stores.Version mprev) 1 ∧
     (min_int64 ≤ Stores.Version mprev < max_int64 →
        Stores.Version d' = Stores.Version mprev + 1) ∧
     Stores.LastUpdated d' = Stores.utc_rfc3339 env ∧
     (Stores.HomeTeam d', Stores.AwayTeam d', Stores.Date d', Stores.DvvLink d',
      Stores.MatchID d')
     = (Stores.HomeTeam md, Stores.AwayTeam md, Stores.Date md, Stores.DvvLink md,
        Stores.MatchID md) ∧
     (∀ v t, Stores.UpdateState env ms (Stores.stamp md v t)
             = Stores.UpdateState env ms md)) ∧
  (∃ ss' err d',
     Scout.UpdateState env ss sd = Some (ss', err) ∧
     Scout.state ss' = Some d' ∧ Scout.GetState env ss' = d' ∧
     Scout.Version d' = add64 (Scout.Version sprev) 1 ∧
     (min_int64 ≤ Scout.Version sprev < max_int64 →
        Scout.Version d' = Scout.Version sprev + 1) ∧
     Scout.LastUpdated d' = Stores.utc_rfc3339 env ∧
     (Scout.MatchName d', Scout.MatchDate d', Scout.Players d')
     = (Scout.MatchName sd, Scout.MatchDate sd, Scout.Players sd) ∧
     (∀ v t, Scout.UpdateState env ss (Scout.stamp sd v t)
             = Scout.UpdateState env ss sd)) ∧
  (∀ ups, min_int64 ≤ Stores.Version mprev →
     Stores.Version mprev + Z.of_nat (length ups) ≤ max_int64 →
     ∃ ms' last, Stores.UpdateAll ms ups = Some ms' ∧
                 Stores.state ms' = Some last ∧
                 Stores.Version last = Stores.Version mprev + Z.of_nat (length ups)) ∧
  (∀ ups, min_int64 ≤ Scout.Version sprev →
     Scout.Version sprev + Z.of_nat (length ups) ≤ max_int64 →
     ∃ ss' last, Scout.UpdateAll ss ups = Some ss' ∧
                 Scout.state ss' = Some last ∧
                 Scout.Version last = Scout.Version sprev + Z.of_nat (length ups)).
Proof.
  intros Hm Hs. split; [|split; [|split]].
  - destruct (Matchday_UpdateState_spec env ms md mprev Hm)
      as (ms' & err & d' & Hrun & Hst & Hget & Hd' & _).
    exists ms', err, d'.
    split; [exact Hrun|]. split; [exact Hst|]. split; [exact Hget|].
    rewrite Hd'. simpl.
    split; [done|]. split; [intros ?; by apply add64_succ|].
    split; [done|]. split; [done|].
    intros v t. unfold Stores.UpdateState. by rewrite Hm.
  - destruct (Scout_UpdateState_spec env ss sd sprev Hs)
      as (ss' & err & d' & Hrun & Hst & Hget & Hd' & _).
    exists ss', err, d'.
    split; [exact Hrun|]. split; [exact Hst|]. split; [exact Hget|].
    rewrite Hd'. simpl.
    split; [done|]. split; [intros ?; by apply add64_succ|].
    split; [done|]. split; [done|].
    intros v t. unfold Scout.UpdateState. by rewrite Hs.
  - intros ups. by apply Matchday_UpdateAll_version.
  - intros ups. by apply Scout_UpdateAll_version.
Qed.

Lemma update_stamps_next_version_witness :
  ∃ ms' err d',
    Stores.UpdateState writes_ok (matchday_store 7) (a_matchday 99)
      = Some (ms', err) ∧
    Stores.state ms' = Some d' ∧ Stores.Version d' = 8.
Proof.
  pose proof (update_stamps_next_version writes_ok
                (matchday_store 7) (a_matchday 99) (a_matchday 7)
                (scout_store 3 "Final") (a_scout 50 "Final") (a_scout 3 "Final")
                eq_refl eq_refl) as Hw.
  destruct Hw as ((ms' & err & d' & Hrun & Hst & _ & _ & Hsucc & _) & _).
  exists ms', err, d'. split; [exact Hrun|]. split; [exact Hst|].
  apply Hsucc. vm_compute. split; discriminate || reflexivity.
Defined.

(** C3, as stated, fails in two places.  At the largest [int64]: a store
    whose document has the version 9223372036854775807 completes the update
    with the version -9223372036854775808, which is not the previous version
    plus 1 and is smaller than the previous version.  And for the document
    sent back: the handler reads it with [GetState] after [UpdateState] has
    released the lock, so when a second POST updates the store in between,
    the first request is sent back the version 9 for the stored version 7,
    with the payload of the second request. *)
Lemma update_wraps_or_is_overtaken :
  (∃ ms' d',
     Stores.UpdateState writes_ok (matchday_store max_int64) (a_matchday 0)
       = Some (ms', None) ∧
     Stores.state ms' = Some d' ∧
     Stores.Version d' = -9223372036854775808 ∧
     Stores.Version d' ≠ max_int64 + 1 ∧ Stores.Version d' < max_int64) ∧
  (∃ ss' d',
     Scout.UpdateState writes_ok (scout_store max_int64 "Final") (a_scout 0 "Final")
       = Some (ss', None) ∧
     Scout.state ss' = Some d' ∧
     Scout.Version d' = -9223372036854775808 ∧
     Scout.Version d' ≠ max_int64 + 1 ∧ Scout.Version d' < max_int64) ∧
  (∃ d1 d2,
     Stores.handle (matchday_store 7) racing = Some [(1%nat, d1); (2%nat, d2)] ∧
     Stores.Version d1 = 9 ∧ Stores.HomeTeam d1 = "B" ∧
     Stores.Version d2 = 9 ∧ Stores.HomeTeam d2 = "B") ∧
  (∃ d1 d2,
     Stores.handle (matchday_store 7) in_turn = Some [(1%nat, d1); (2%nat, d2)] ∧
     Stores.Version d1 = 8 ∧ Stores.HomeTeam d1 = "A" ∧
     Stores.Version d2 = 9 ∧ Stores.HomeTeam d2 = "B").
Proof.
  split; [|split; [|split]].
  - eexists _, _. split; [vm_compute; reflexivity|].
    split; [vm_compute; reflexivity|].
    split; [vm_compute; reflexivity|]. split; vm_compute; [discriminate | reflexivity].
  - eexists _, _. split; [vm_compute; reflexivity|].
    split; [vm_compute; reflexivity|].
    split; [vm_compute; reflexivity|]. split; vm_compute; [discriminate | reflexivity].
  - eexists _, _. split; [vm_compute; reflexivity|].
    repeat split; vm_compute; reflexivity.
  - eexists _, _. split; [vm_compute; reflexivity|].
    repeat split; vm_compute; reflexivity.
Qed.

(** ** The file name of an archive *)

(** The loop of [replaceAll] with one byte for one byte, from the position
    after [l1]: every byte of the rest equal to [a] becomes [b]; as many
    iterations as bytes are left are enough. *)
Lemma replaceAll_loop_single a b : ∀ fuel l1 l2,
  (length l2 ≤ fuel)%nat →
  Scout.replaceAll_loop fuel (length l1) (l1 ++ l2) [a] [b]
  = Some (l1 ++ map (λ c, if decide (c = a) then b else c) l2).
Proof.
  induction fuel as [|fuel IH]; intros l1 l2 Hfuel.
  - destruct l2; [|simpl in Hfuel; lia]. simpl.
    rewrite decide_False by (rewrite app_nil_r; lia). done.
  - destruct l2 as [|c l2].
    + simpl. rewrite decide_False by (rewrite app_nil_r; lia). done.
    + simpl in Hfuel. cbn [Scout.replaceAll_loop].
      rewrite decide_True by (rewrite length_app; simpl; lia).
      rewrite decide_True by (rewrite length_app; simpl; lia).
      rewrite drop_app_length. cbn [length take]. rewrite take_0.
      assert (Hs : ∀ c', (l1 ++ [c']) ++ l2 = l1 ++ c' :: l2)
        by (intros; by rewrite <- app_assoc).
      assert (Hn : ∀ c', S (length l1) = length (l1 ++ [c']))
        by (intros; rewrite length_app; simpl; lia).
      destruct (decide ([c] = [a])) as [[= ->]|Hne].
      * unfold Scout.splice. rewrite take_app_length.
        replace (length l1 + 1)%nat with (length (l1 ++ [a]))
          by (rewrite length_app; simpl; lia).
        rewrite <- (Hs a), drop_app_length.
        change (l1 ++ [b] ++ l2) with (l1 ++ b :: l2).
        rewrite <- (Hs b), (Hn b), IH by lia. simpl.
        rewrite decide_True by done. by rewrite <- app_assoc.
      * rewrite <- (Hs c), (Hn c), IH by lia. simpl.
        rewrite decide_False by congruence. by rewrite <- app_assoc.
Qed.

Lemma replaceAll_single (a b : ascii) (s : string) fuel :
  (String.length s ≤ fuel)%nat →
  Scout.replaceAll fuel s (String a EmptyString) (String b EmptyString)
  = Some (string_of_list_ascii
            (map (λ c, if decide (c = a) then b else c) (list_ascii_of_string s))).
Proof.
  intros Hfuel. unfold Scout.replaceAll.
  change (list_ascii_of_string (String a EmptyString)) with [a].
  change (list_ascii_of_string (String b EmptyString)) with [b].
  pose proof (replaceAll_loop_single a b fuel [] (list_ascii_of_string s)) as Hloop.
  simpl in Hloop. rewrite Hloop; [done|].
  clear -Hfuel. revert fuel Hfuel.
  induction s as [|c s IH]; intros fuel Hfuel; simpl in *; [lia|].
  destruct fuel; [lia|]. specialize (IH fuel). lia.
Qed.

Lemma length_string_of_map (f : ascii → ascii) (s : string) :
  String.length (string_of_list_ascii (map f (list_ascii_of_string s)))
  = String.length s.
Proof. induction s as [|c s IH]; simpl; [done | by rewrite IH]. Qed.

Lemma invalid_bytes_eq :
  Scout.invalid = (λ c, String c EmptyString) <$> Scout.invalid_bytes.
Proof. reflexivity. Qed.

(** The ten replacements of [sanitizeFilename], one after the other, on one
    byte. *)
Lemma sanitizeChar_steps (c : ascii) :
  foldl (λ x old, if decide (x = old) then "_"%char else x) c Scout.invalid_bytes
  = Scout.sanitizeChar c.
Proof.
  destruct c as [b0 b1 b2 b3 b4 b5 b6 b7].
  destruct b0, b1, b2, b3, b4, b5, b6, b7; vm_compute; reflexivity.
Qed.

(** Replacements of single bytes, one after the other, on a name that was
    already mapped by [f]. *)
Lemma replace_bytes (name : string) : ∀ (olds : list ascii) (f : ascii → ascii),
  foldl (λ result char,
           r ← result; Scout.replaceAll (String.length name) r char "_")
        (Some (string_of_list_ascii (map f (list_ascii_of_string name))))
        ((λ c, String c EmptyString) <$> olds)
  = Some (string_of_list_ascii
            (map (λ c, foldl (λ x old, if decide (x = old) then "_"%char else x)
                             (f c) olds)
                 (list_ascii_of_string name))).
Proof.
  induction olds as [|a olds IH]; intros f; [done|].
  cbn [fmap list_fmap foldl mbind option_bind].
  rewrite replaceAll_single by (by rewrite length_string_of_map).
  rewrite list_ascii_of_string_of_list_ascii, map_map.
  apply (IH (λ c, if decide (f c = a) then "_"%char else f c)).
Qed.

(** [sanitizeFilename] returns, and what it returns is the name with every
    character of the listed set replaced by an underscore. *)
Lemma sanitizeFilename_spec (name : string) :
  Scout.sanitizeFilename name
  = Some (string_of_list_ascii (map Scout.sanitizeChar (list_ascii_of_string name))).
Proof.
  unfold Scout.sanitizeFilename. rewrite invalid_bytes_eq.
  pose proof (replace_bytes name Scout.invalid_bytes (λ c, c)) as Hrun.
  rewrite map_id, string_of_list_ascii_of_string in Hrun.
  etrans; [exact Hrun|]. do 2 f_equal.
  apply map_ext. intros c. apply sanitizeChar_steps.
Qed.

Section Archive.
Context `{GoStdlib}.

(** [ArchiveMatch] returns on every store. *)
Lemma ArchiveMatch_total env s : is_Some (Scout.ArchiveMatch env s).
Proof.
  unfold Scout.ArchiveMatch. destruct (Scout.state s) as [cur|]; [|eauto].
  case_decide; [eauto|]. rewrite sanitizeFilename_spec. simpl.
  destruct (Stores.archive_write_ok env); eauto.
Qed.

(** A successful archive leaves a document without a match name. *)
Lemma ArchiveMatch_success env s s1 :
  Scout.ArchiveMatch env s = Some (s1, None) →
  ∀ cur, Scout.state s1 = Some cur → Scout.MatchName cur = "".
Proof.
  unfold Scout.ArchiveMatch.
  destruct (Scout.state s) as [cur0|] eqn:Hst.
  - case_decide as Hname.
    + intros [= <-] cur Hcur. congruence.
    + destruct (Scout.sanitizeFilename (Scout.MatchName cur0)) as [name|]; simpl; [|done].
      destruct (Stores.archive_write_ok env); [|done].
      unfold Scout.save. destruct (Stores.current_write_ok env); simpl; [|done].
      intros [= <-] cur. simpl. by intros [= <-].
  - intros [= <-] cur Hcur. congruence.
Qed.

(** C9.  [ArchiveMatch] on a store whose document has an empty match name
    (or that holds no document) returns nil and leaves the store, the
    files included, as it is; and after a first [ArchiveMatch] that
    succeeded, a second one is such a no-op. *)
Theorem archive_empty_is_noop (env1 env2 : Stores.StoreEnv)
    (s s1 : Scout.ScoutStore) :
  ((∀ cur, Scout.state s = Some cur → Scout.MatchName cur = "") →
   Scout.ArchiveMatch env1 s = Some (s, None)) ∧
  (Scout.ArchiveMatch env1 s = Some (s1, None) →
   Scout.ArchiveMatch env2 s1 = Some (s1, None)).
Proof.
  assert (Hnoop : ∀ env s0, (∀ cur, Scout.state s0 = Some cur → Scout.MatchName cur = "") →
                            Scout.ArchiveMatch env s0 = Some (s0, None)).
  { intros env s0 Hempty. unfold Scout.ArchiveMatch.
    destruct (Scout.state s0) as [cur|]; [|done].
    by rewrite decide_True by (by apply Hempty). }
  split; [apply Hnoop|].
  intros Hfirst. apply Hnoop. by eapply ArchiveMatch_success.
Qed.

End Archive.

Lemma archive_empty_is_noop_witness :
  ∃ s1,
    @Scout.ArchiveMatch exampleStdlib writes_ok (scout_store 7 "Final") = Some (s1, None) ∧
    Scout.disk s1 !! "data/archive/2024-03-15_Final.json" = Some (Some (a_scout 7 "Final")) ∧
    @Scout.ArchiveMatch exampleStdlib writes_ok s1 = Some (s1, None).
Proof.
  eexists. split; [vm_compute; reflexivity|]. split; [vm_compute; reflexivity|].
  apply (proj2 (@archive_empty_is_noop exampleStdlib writes_ok writes_ok
                  (scout_store 7 "Final") _)).
  vm_compute. reflexivity.
Defined.

End StoreTheory.

(** * The peers of the relay: routing and the relay invariant *)

Module PeerTheory.
Import Hub HubTheory.

Lemma same_peer_refl c : same_peer c c.
Proof. by repeat split. Qed.

Lemma same_peer_trans c1 c2 c3 :
  same_peer c1 c2 → same_peer c2 c3 → same_peer c1 c3.
Proof.
  intros (? & ? & ? & ?) (? & ? & ? & ?). repeat split; try congruence. auto.
Qed.

Lemma steady_refl x h : steady x h h.
Proof.
  intros p. destruct (h !! p); [|done]. split; [apply same_peer_refl | done].
Qed.

Lemma steady_trans x h1 h2 h3 :
  steady x h1 h2 → steady x h2 h3 → steady x h1 h3.
Proof.
  intros H12 H23 p. specialize (H12 p). specialize (H23 p).
  destruct (h1 !! p), (h2 !! p), (h3 !! p); try done.
  destruct H12 as [? Ha], H23 as [? Hb]. split; [by eapply same_peer_trans|].
  intros Hx. rewrite Hb, Ha; done.
Qed.

Lemma steady_insert x h p c c' :
  h !! p = Some c → same_peer c c' →
  (x ≠ Some p → Authorized c' = Authorized c) →
  steady x h (<[p := c']> h).
Proof.
  intros Hp Hsame Hauth q. destruct (decide (q = p)) as [->|Hne].
  - rewrite Hp, lookup_insert_eq. done.
  - rewrite lookup_insert_ne by done. destruct (h !! q); [|done].
    split; [apply same_peer_refl | done].
Qed.

Lemma offered_length m q :
  (length q ≤ SendCap)%nat → (length (offered m q) ≤ SendCap)%nat.
Proof.
  unfold offered. case_decide; [|done]. rewrite length_app. simpl. lia.
Qed.

Lemma trySendTo_open m h p c :
  h !! p = Some c → closed (Send c) = false →
  trySendTo m h p
  = Some (<[p := setSend c {| buf := offered m (buf (Send c)); closed := false |}]> h).
Proof.
  intros Hp Ho. unfold trySendTo. rewrite Hp. simpl.
  by rewrite (trySend_open _ _ Ho).
Qed.

Lemma trySendTo_closed m h p c :
  h !! p = Some c → closed (Send c) = true → trySendTo m h p = None.
Proof.
  intros Hp Hcl. unfold trySendTo. rewrite Hp. simpl. unfold trySend.
  by rewrite Hcl.
Qed.

Lemma trySendTo_steady m h p h' :
  trySendTo m h p = Some h' → steady None h h'.
Proof.
  intros (c & Hc & Ho & ->)%trySendTo_Some.
  eapply steady_insert; [done| |done].
  split; [done|]. split; [done|]. split; [done|]. apply offered_length.
Qed.

Lemma sendAll_steady m ps : ∀ h h',
  sendAll m ps h = Some h' → steady None h h'.
Proof.
  induction ps as [|q ps IH]; intros h h' Hrun; simpl in Hrun.
  - injection Hrun as <-. apply steady_refl.
  - destruct (trySendTo m h q) as [h1|] eqn:Hq; simpl in Hrun; [|done].
    eapply steady_trans; [by eapply trySendTo_steady | by apply IH].
Qed.

Lemma sendAuthorized_steady m ps : ∀ h h',
  sendAuthorized m ps h = Some h' → steady None h h'.
Proof.
  induction ps as [|q ps IH]; intros h h' Hrun; simpl in Hrun.
  - injection Hrun as <-. apply steady_refl.
  - destruct (h !! q) as [c|] eqn:Hq; simpl in Hrun; [|done].
    destruct (Authorized c).
    + destruct (trySendTo m h q) as [h1|] eqn:Hs; simpl in Hrun; [|done].
      eapply steady_trans; [by eapply trySendTo_steady | by apply IH].
    + simpl in Hrun. by apply IH.
Qed.

(** What a completed fan-out to the authorized browsers did. *)
Lemma sendAuthorized_Some m ps : ∀ h h',
  NoDup ps →
  sendAuthorized m ps h = Some h' →
  (∀ p, p ∈ ps →
     ∃ c, h !! p = Some c ∧
          h' !! p = Some (if Authorized c
                          then setSend c {| buf := offered m (buf (Send c));
                                            closed := false |}
                          else c)) ∧
  (∀ p, p ∉ ps → h' !! p = h !! p).
Proof.
  induction ps as [|q ps IH]; intros h h' Hnd Hrun; simpl in Hrun.
  - injection Hrun as <-. split; [intros p Hp; by apply elem_of_nil in Hp | done].
  - destruct (h !! q) as [c|] eqn:Hq; simpl in Hrun; [|done].
    apply NoDup_cons in Hnd as [Hqn Hnd].
    destruct (Authorized c) eqn:Hauth.
    + destruct (trySendTo m h q) as [h1|] eqn:Hs; simpl in Hrun; [|done].
      apply trySendTo_Some in Hs as (c0 & Hc0 & Hopen & ->).
      assert (c0 = c) as -> by congruence.
      destruct (IH _ _ Hnd Hrun) as [Hin Hout]. split.
      * intros p Hp. apply elem_of_cons in Hp as [->|Hp].
        -- exists c. rewrite (Hout q Hqn), lookup_insert_eq, Hauth. done.
        -- destruct (Hin p Hp) as (c' & Hc' & Hh').
           assert (p ≠ q) by (intros ->; done).
           rewrite lookup_insert_ne in Hc' by done. eauto.
      * intros p Hp. apply not_elem_of_cons in Hp as [Hne Hp].
        rewrite (Hout p Hp), lookup_insert_ne; done.
    + simpl in Hrun. destruct (IH _ _ Hnd Hrun) as [Hin Hout]. split.
      * intros p Hp. apply elem_of_cons in Hp as [->|Hp].
        -- exists c. rewrite (Hout q Hqn), Hauth. done.
        -- by apply Hin.
      * intros p Hp. apply not_elem_of_cons in Hp as [Hne Hp]. by apply Hout.
Qed.

Lemma sendAuthorized_total m ps : ∀ h,
  NoDup ps →
  (∀ p, p ∈ ps → ∃ c, h !! p = Some c ∧ closed (Send c) = false) →
  is_Some (sendAuthorized m ps h).
Proof.
  induction ps as [|q ps IH]; intros h Hnd Hopen; simpl; [eauto|].
  apply NoDup_cons in Hnd as [Hq Hnd].
  destruct (Hopen q) as (c & Hc & Ho); [left|].
  rewrite Hc. simpl. destruct (Authorized c).
  - rewrite (trySendTo_open _ _ _ _ Hc Ho). simpl.
    apply IH; [done|]. intros p Hp.
    assert (p ≠ q) by (intros ->; done).
    rewrite lookup_insert_ne by done. apply Hopen. by right.
  - simpl. apply IH; [done|]. intros p Hp. apply Hopen. by right.
Qed.

(** ** The invariant under a change of the queues *)

Lemma steady_lookup x h h' p c :
  steady x h h' → h !! p = Some c →
  ∃ c', h' !! p = Some c' ∧ same_peer c c'.
Proof.
  intros Hst Hp. specialize (Hst p). rewrite Hp in Hst.
  destruct (h' !! p) as [c'|]; [|done]. destruct Hst. eauto.
Qed.

Lemma steady_lookup_inv x h h' p c' :
  steady x h h' → h' !! p = Some c' →
  ∃ c, h !! p = Some c ∧ same_peer c c'.
Proof.
  intros Hst Hp. specialize (Hst p). rewrite Hp in Hst.
  destruct (h !! p) as [c|]; [|done]. destruct Hst. eauto.
Qed.

Lemma steady_registered_ok x h h' reg :
  steady x h h' → registered_ok h reg → registered_ok h' reg.
Proof.
  intros Hst Hok id p Hp. destruct (Hok _ _ Hp) as (c & Hc & Hid & Ho).
  destruct (steady_lookup _ _ _ _ _ Hst Hc) as (c' & Hc' & Hi & _ & Hcl & _).
  exists c'. repeat split; congruence.
Qed.

Lemma steady_bounded x h h' : steady x h h' → bounded h → bounded h'.
Proof.
  intros Hst Hb p c' Hp.
  destruct (steady_lookup_inv _ _ _ _ _ Hst Hp) as (c & Hc & _ & _ & _ & Hlen).
  apply Hlen. by eapply Hb.
Qed.

Lemma Inv_steady x r r' :
  Inv r → steady x (heap r) (heap r') →
  clients r' = clients r → browsers r' = browsers r → moblin r' = moblin r →
  Inv r'.
Proof.
  intros ((Hc & Hb & Hty) & Hslot & Hbd) Hst Hcl Hbr Hmo.
  split; [|split].
  - unfold WF. rewrite Hcl, Hbr. repeat split.
    + by eapply steady_registered_ok.
    + by eapply steady_registered_ok.
    + intros id b cb' Hbid Hcb'.
      destruct (steady_lookup_inv _ _ _ _ _ Hst Hcb') as (cb & Hcb & _ & Ht & _).
      rewrite Ht. eauto.
  - intros p Hp. rewrite Hmo in Hp.
    destruct (Hslot p Hp) as (c & Hpc & Hk & Ho).
    destruct (steady_lookup _ _ _ _ _ Hst Hpc) as (c' & Hc' & _ & Ht & Hcl' & _).
    exists c'. repeat split; congruence.
  - by eapply steady_bounded.
Qed.

Lemma bounded_insert h p c :
  bounded h → (length (buf (Send c)) ≤ SendCap)%nat → bounded (<[p := c]> h).
Proof.
  intros Hb Hlen q cq Hq. destruct (decide (q = p)) as [->|Hne].
  - rewrite lookup_insert_eq in Hq. by injection Hq as <-.
  - rewrite lookup_insert_ne in Hq by done. by eapply Hb.
Qed.

Lemma Inv_same_registry x r r' :
  Inv r → steady x (heap r) (heap r') → same_registry r r' → Inv r'.
Proof. intros Hinv Hst (? & ? & ? & _). by eapply Inv_steady. Qed.

Lemma notifyBrowsers_steady r msg r' :
  notifyBrowsers r msg = Some r' →
  steady None (heap r) (heap r') ∧ same_registry r r'.
Proof.
  unfold notifyBrowsers.
  destruct (sendAll _ _ _) as [h|] eqn:Hrun; simpl; [|done].
  intros [= <-]. split; [by eapply sendAll_steady | by repeat split].
Qed.

(** ** The hub loop keeps the slot and the capacity *)

Lemma Run_step_slot_bounded r e r' :
  Inv r → admissible r e → Run_step r e = Some r' →
  slot_ok r' ∧ bounded (heap r').
Proof.
  intros (Hwf & Hslot & Hbd) Hadm Hrun. destruct e as [p|p|m]; simpl in Hrun.
  - destruct Hadm as (c & Hp & Ho). rewrite Hp in Hrun. simpl in Hrun.
    case_decide as Hk.
    + apply notifyBrowsers_steady in Hrun as (Hst & _ & _ & Hmo & _).
      simpl in *. split; [|by eapply steady_bounded].
      intros q Hq. rewrite Hmo in Hq. injection Hq as <-.
      destruct (steady_lookup _ _ _ _ _ Hst Hp) as (c' & Hc' & _ & Ht & Hcl & _).
      exists c'. repeat split; congruence.
    + injection Hrun as <-. done.
  - destruct Hadm as (c & Hp & Ho). rewrite Hp in Hrun. simpl in Hrun.
    destruct (clients r !! ID c) as [q|] eqn:Hq; [|by injection Hrun as <-].
    unfold closeChan in Hrun. destruct (closed (Send c)) eqn:Hcl; [done|].
    simpl in Hrun.
    assert (Hb1 : bounded (<[p := setSend c {| buf := buf (Send c); closed := true |}]>
                             (heap r))).
    { apply bounded_insert; [done|]. simpl. by eapply Hbd. }
    case_decide as Hk.
    + apply notifyBrowsers_steady in Hrun as (Hst & _ & _ & Hmo & _).
      simpl in *. split; [|by eapply steady_bounded].
      intros q' Hq'. congruence.
    + injection Hrun as <-. simpl. split; [|done].
      intros q' Hq'. simpl in Hq'.
      destruct (Hslot q' Hq') as (cq & Hcq & Hkq & Hoq).
      assert (q' ≠ p) by (intros ->; congruence).
      exists cq. simpl. by rewrite lookup_insert_ne.
  - destruct (sendAll m _ _) as [h|] eqn:Hsend; simpl in Hrun; [|done].
    injection Hrun as <-. simpl.
    pose proof (sendAll_steady _ _ _ _ Hsend) as Hst.
    split; [|by eapply steady_bounded].
    intros q Hq. simpl in Hq.
    destruct (Hslot q Hq) as (cq & Hcq & Hkq & Hoq).
    destruct (steady_lookup _ _ _ _ _ Hst Hcq) as (c' & Hc' & _ & Ht & Hcl & _).
    exists c'. simpl. repeat split; congruence.
Qed.

Lemma Inv_Run_step r e :
  Inv r → admissible r e → ∃ r', Run_step r e = Some r' ∧ Inv r'.
Proof.
  intros Hinv Hadm.
  destruct (WF_step r e (proj1 Hinv) Hadm) as (r' & Hrun & Hwf).
  destruct (Run_step_slot_bounded r e r' Hinv Hadm Hrun) as [Hslot Hbd].
  exists r'. split; [done|]. split; [done|]. split; done.
Qed.

Lemma Inv_NewRelay pw : Inv (NewRelay pw).
Proof.
  split; [apply WF_NewRelay|]. split.
  - intros p Hp. done.
  - intros p c Hp. simpl in Hp. by rewrite lookup_empty in Hp.
Qed.

Lemma Inv_alloc r p id ty : Inv r → heap r !! p = None → Inv (alloc r p id ty).
Proof.
  intros (Hwf & Hslot & Hbd) Hfresh. split; [by apply WF_alloc|]. split.
  - intros q Hq. simpl in Hq. destruct (Hslot q Hq) as (c & Hc & Hk & Ho).
    assert (q ≠ p) by (intros ->; congruence).
    exists c. unfold alloc. simpl. by rewrite lookup_insert_ne.
  - unfold alloc. simpl. apply bounded_insert; [done|]. simpl.
    unfold SendCap. lia.
Qed.

Lemma Inv_receive r p : Inv r → Inv (receive r p).
Proof.
  intros Hinv. unfold receive.
  destruct (heap r !! p) as [c|] eqn:Hp; [|done].
  destruct (buf (Send c)) as [|m q] eqn:Hq; [done|].
  eapply (Inv_same_registry None); [done| |by repeat split].
  simpl. eapply steady_insert; [done| |done].
  split; [done|]. split; [done|]. split; [done|].
  simpl. rewrite Hq. simpl. lia.
Qed.

(** ** [sendJSON] on an open queue *)

Lemma sendJSON_open r p c msg :
  heap r !! p = Some c → closed (Send c) = false →
  sendJSON r p msg
  = Some (setHeap r (<[p := setSend c {| buf := offered (marshal msg) (buf (Send c));
                                         closed := false |}]> (heap r))).
Proof.
  intros Hp Ho. unfold sendJSON. by rewrite (trySendTo_open _ _ _ _ Hp Ho).
Qed.

(** ** The steps of the goroutines and the calls they make up *)

(** A turn of the broadcast loop is the non-blocking send of [sendAll]. *)
Lemma turn_false m h t : turn false m h t = trySendTo m h t.
Proof. unfold turn, trySendTo. by destruct (h !! t). Qed.

Lemma sendAuthorized_cons m t ts h :
  sendAuthorized m (t :: ts) h = h' ← turn true m h t; sendAuthorized m ts h'.
Proof.
  simpl. unfold turn. destruct (h !! t) as [c|]; simpl; [|done].
  by destruct (Authorized c).
Qed.

Lemma setHeap_heap r : setHeap r (heap r) = r.
Proof. by destruct r. Qed.

(** The loop of [routeToBrowsers], turn by turn with nothing in between,
    is [routeToBrowsers]. *)
Lemma job_run_fanout m p : ∀ ts r,
  job_run (S (length ts)) r p (Some (Fanout true ts m))
  = h ← sendAuthorized m ts (heap r); Some (setHeap r h).
Proof.
  induction ts as [|t ts IH]; intros r.
  - simpl. by rewrite setHeap_heap.
  - rewrite sendAuthorized_cons. cbn [length job_run job_step].
    destruct (turn true m (heap r) t) as [h|]; [|done].
    change (job_run (S (length ts)) (setHeap r h) p (Some (Fanout true ts m))
            = sendAuthorized m ts h ≫= λ h0, Some (setHeap r h0)).
    by rewrite IH.
Qed.

(** [handleMessage] is its first step followed by the steps of the job
    that is left, when no other goroutine takes a step in between. *)
Lemma handleMessage_split r p msg raw :
  handleMessage r p msg raw
  = '(r', job) ← handleMessage_begin r p msg raw;
    job_run (job_length job) r' p job.
Proof.
  unfold handleMessage, handleMessage_begin.
  destruct (heap r !! p) as [c|]; simpl; [|done].
  case_decide.
  { unfold handleAuth, sendJSON.
    destruct (bool_decide (password r = "") || bool_decide (In_Password msg = password r));
      simpl; by destruct (trySendTo _ _ _). }
  destruct (negb (Authorized c) && negb (bool_decide (password r = ""))); [done|].
  case_decide.
  - cbn [mbind option_bind job_length]. by rewrite job_run_fanout.
  - unfold routeToMoblin, routeToMoblin_send. destruct (moblin r) as [slot|]; [|done].
    simpl. by destruct (trySendTo _ _ _).
Qed.

Lemma handleMessage_main_split r p msg raw :
  handleMessage_main r p msg raw
  = '(r', job) ← handleMessage_main_begin r p msg raw;
    job_run (job_length job) r' p job.
Proof.
  unfold handleMessage_main, handleMessage_main_begin.
  destruct (heap r !! p) as [c|]; simpl; [|done].
  case_decide.
  { unfold handleAuth, sendJSON.
    destruct (bool_decide (password r = "") || bool_decide (In_Password msg = password r));
      simpl; by destruct (trySendTo _ _ _). }
  destruct (negb (Authorized c) && negb (bool_decide (password r = ""))).
  { unfold sendJSON. simpl. by destruct (trySendTo _ _ _). }
  case_decide.
  - cbn [mbind option_bind job_length]. by rewrite job_run_fanout.
  - unfold routeToMoblin, routeToMoblin_send. destruct (moblin r) as [slot|]; [|done].
    simpl. by destruct (trySendTo _ _ _).
Qed.

(** ** What stays in the heap *)

Lemma kept_refl h : kept None h h.
Proof. intros t c Ht. exists c. by repeat split. Qed.

Lemma steady_kept x h h' : steady x h h' → kept None h h'.
Proof.
  intros Hst t c Ht.
  destruct (steady_lookup _ _ _ _ _ Hst Ht) as (c' & ? & _ & ? & ? & _).
  exists c'. split; [done|]. split; [done|]. done.
Qed.

Lemma kept_weaken x h h' : kept None h h' → kept x h h'.
Proof.
  intros Hk t c Ht. destruct (Hk t c Ht) as (c' & ? & ? & Hcl).
  exists c'. split; [done|]. split; [done|]. intros _. by apply Hcl.
Qed.

Lemma kept_open x h h' t : kept x h h' → x ≠ Some t → open_at h t → open_at h' t.
Proof.
  intros Hk Hx (c & Hc & Ho). destruct (Hk t c Hc) as (c' & Hc' & _ & Hcl).
  exists c'. split; [done|]. rewrite Hcl; done.
Qed.

Lemma kept_targets h h' ts :
  kept None h h' → Forall (open_at h) ts → Forall (open_at h') ts.
Proof.
  intros Hk Hts. eapply Forall_impl; [exact Hts|].
  intros t. by apply (kept_open None).
Qed.

(** A job that holds no read lock, of a pump whose client is not the
    exception, stays in order. *)
Lemma job_ok_kept x h h' p job :
  kept x h h' → job_ok h p job →
  (x = None ∨ (holds_read_lock job = false ∧ x ≠ Some p)) →
  job_ok h' p job.
Proof.
  intros Hk Hok Hx. destruct job as [check ts m|slot m|m]; simpl in *.
  - destruct Hx as [->|[? _]]; [|done]. by eapply kept_targets.
  - destruct Hok as (c & Hc & Hty). destruct (Hk _ _ Hc) as (c' & ? & ? & _).
    exists c'. split; [done | congruence].
  - eapply kept_open; [done| |done]. destruct Hx as [->|[_ ?]]; done.
Qed.

Lemma jobs_ok_relay w r' :
  jobs_ok w → kept None (heap (relay w)) (heap r') → jobs_ok (setRelay w r').
Proof.
  intros [Hhub Hpumps] Hk. split; simpl.
  - intros ts m Hts. eapply kept_targets; [done|]. by eapply Hhub.
  - intros p job Hp. eapply job_ok_kept; [done| |by left]. by eapply Hpumps.
Qed.

Lemma jobs_ok_done w p : jobs_ok w → jobs_ok (setJob w p None).
Proof.
  intros [Hhub Hpumps]. split; simpl; [done|].
  intros q job Hq. apply lookup_delete_Some in Hq as [_ Hq]. by eapply Hpumps.
Qed.

Lemma jobs_ok_job w p job :
  jobs_ok w → job_ok (heap (relay w)) p job → jobs_ok (setJob w p (Some job)).
Proof.
  intros [Hhub Hpumps] Hjob. split; simpl; [done|].
  intros q job' Hq. destruct (decide (q = p)) as [->|Hne].
  - rewrite lookup_insert_eq in Hq. by injection Hq as <-.
  - rewrite lookup_insert_ne in Hq by done. by eapply Hpumps.
Qed.

Lemma jobs_ok_rest w p rest :
  jobs_ok w → (∀ job, rest = Some job → job_ok (heap (relay w)) p job) →
  jobs_ok (setJob w p rest).
Proof.
  intros Hok Hrest. destruct rest as [job|].
  - apply jobs_ok_job; [done|]. by apply Hrest.
  - by apply jobs_ok_done.
Qed.

(** The hub loop under the write lock: what it keeps. *)
Lemma Run_step_kept r e r' :
  Run_step r e = Some r' →
  kept (match e with EvUnregister q => Some q | _ => None end) (heap r) (heap r').
Proof.
  intros Hrun. destruct e as [q|q|m]; simpl in Hrun.
  - destruct (heap r !! q) as [cq|] eqn:Hq; simpl in Hrun; [|done].
    case_decide.
    + apply notifyBrowsers_steady in Hrun as [Hst _]. by eapply steady_kept.
    + injection Hrun as <-. simpl. apply kept_refl.
  - destruct (heap r !! q) as [cq|] eqn:Hq; simpl in Hrun; [|done].
    destruct (clients r !! ID cq);
      [|injection Hrun as <-; apply kept_weaken, kept_refl].
    destruct (closeChan (Send cq)) as [ch|]; simpl in Hrun; [|done].
    assert (Hmid : kept (Some q) (heap r) (<[q := setSend cq ch]> (heap r))).
    { intros t c Ht. destruct (decide (t = q)) as [->|Hne].
      - rewrite lookup_insert_eq. eexists. split; [done|].
        split; [simpl; congruence|]. done.
      - rewrite lookup_insert_ne by done. exists c. by repeat split. }
    case_decide.
    + apply notifyBrowsers_steady in Hrun as [Hst _]. simpl in Hst.
      intros t c Ht. destruct (Hmid t c Ht) as (c1 & Hc1 & Hk1 & Hcl1).
      destruct (steady_kept _ _ _ Hst t c1 Hc1) as (c' & ? & ? & Hcl').
      exists c'. split; [done|]. split; [congruence|].
      intros Hx. rewrite Hcl', Hcl1; done.
    + injection Hrun as <-. simpl. done.
  - destruct (sendAll m _ _) as [h|] eqn:Hsend; simpl in Hrun; [|done].
    injection Hrun as <-. simpl.
    eapply steady_kept. by eapply sendAll_steady.
Qed.

Lemma receive_steady r p : steady None (heap r) (heap (receive r p)).
Proof.
  unfold receive. destruct (heap r !! p) as [c|] eqn:Hp; [|apply steady_refl].
  destruct (buf (Send c)) as [|m q] eqn:Hq; [apply steady_refl|].
  simpl. eapply steady_insert; [done| |done].
  split; [done|]. split; [done|]. split; [done|].
  simpl. rewrite Hq. simpl. lia.
Qed.

Lemma turn_steady check m h t h' : turn check m h t = Some h' → steady None h h'.
Proof.
  unfold turn. destruct (h !! t) as [c|]; simpl; [|done].
  destruct (check && negb (Authorized c)).
  - intros [= <-]. apply steady_refl.
  - apply trySendTo_steady.
Qed.

Lemma turn_open check m h t : open_at h t → is_Some (turn check m h t).
Proof.
  intros (c & Hc & Ho). unfold turn. rewrite Hc. simpl.
  destruct (check && negb (Authorized c)); [eauto|].
  rewrite (trySendTo_open _ _ _ _ Hc Ho). eauto.
Qed.

Lemma Inv_heap r h : Inv r → steady None (heap r) h → Inv (setHeap r h).
Proof. intros Hinv Hst. by eapply (Inv_steady None). Qed.

Lemma registered_open h reg :
  registered_ok h reg → Forall (open_at h) (values reg).
Proof.
  intros Hreg. apply Forall_forall. intros t (id & Hid)%elem_of_values.
  destruct (Hreg _ _ Hid) as (c & ? & _ & ?). by exists c.
Qed.

(** The first step of [handleMessage]: it completes, keeps the registry,
    and leaves a job that is in order. *)
Lemma handleMessage_begin_Inv r p msg raw :
  Inv r → open_at (heap r) p →
  ∃ r' job, handleMessage_begin r p msg raw = Some (r', job) ∧
        Inv r' ∧ steady (Some p) (heap r) (heap r') ∧
        (∀ j, job = Some j → job_ok (heap r') p j).
Proof.
  intros Hinv (c & Hp & Ho). unfold handleMessage_begin. rewrite Hp. simpl.
  case_decide.
  { destruct (bool_decide (password r = "") || bool_decide (In_Password msg = password r)).
    - assert (Hst : steady (Some p) (heap r) (<[p := setAuthorized c true]> (heap r))).
      { eapply steady_insert; [done | | done].
        split; [done|]. split; [done|]. split; done. }
      eexists _, _. split; [done|]. split; [|split; [done|]].
      + eapply Inv_steady; [done | exact Hst | done | done | done].
      + intros j [= <-]. simpl. eexists. split; [apply lookup_insert_eq | done].
    - exists r, (Some (Own (marshal auth_failed))). split; [done|]. split; [done|].
      split; [apply steady_refl|]. intros j [= <-]. by exists c. }
  destruct (negb (Authorized c) && negb (bool_decide (password r = ""))).
  { exists r, None. split; [done|]. split; [done|]. split; [apply steady_refl | done]. }
  case_decide.
  - eexists r, _. split; [done|]. split; [done|]. split; [apply steady_refl|].
    intros j [= <-]. simpl. apply registered_open. apply Hinv.
  - eexists r, _. split; [done|]. split; [done|]. split; [apply steady_refl|].
    intros j Hj. destruct (moblin r) as [slot|] eqn:Hmo; simpl in Hj; [|done].
    injection Hj as <-. simpl.
    destruct (proj1 (proj2 Hinv) slot Hmo) as (cs & ? & ? & _). eauto.
Qed.

Lemma handleMessage_main_begin_Inv r p msg raw :
  Inv r → open_at (heap r) p →
  ∃ r' job, handleMessage_main_begin r p msg raw = Some (r', job) ∧
        Inv r' ∧ steady (Some p) (heap r) (heap r') ∧
        (∀ j, job = Some j → job_ok (heap r') p j).
Proof.
  intros Hinv (c & Hp & Ho). unfold handleMessage_main_begin. rewrite Hp. simpl.
  case_decide.
  { destruct (bool_decide (password r = "") || bool_decide (In_Password msg = password r)).
    - assert (Hst : steady (Some p) (heap r) (<[p := setAuthorized c true]> (heap r))).
      { eapply steady_insert; [done | | done].
        split; [done|]. split; [done|]. split; done. }
      eexists _, _. split; [done|]. split; [|split; [done|]].
      + eapply Inv_steady; [done | exact Hst | done | done | done].
      + intros j [= <-]. simpl. eexists. split; [apply lookup_insert_eq | done].
    - exists r, (Some (Own (marshal auth_failed))). split; [done|]. split; [done|].
      split; [apply steady_refl|]. intros j [= <-]. by exists c. }
  destruct (negb (Authorized c) && negb (bool_decide (password r = ""))).
  { exists r, (Some (Own (marshal not_authorized))). split; [done|]. split; [done|].
    split; [apply steady_refl|]. intros j [= <-]. by exists c. }
  case_decide.
  - eexists r, _. split; [done|]. split; [done|]. split; [apply steady_refl|].
    intros j [= <-]. simpl. apply registered_open. apply Hinv.
  - eexists r, _. split; [done|]. split; [done|]. split; [apply steady_refl|].
    intros j Hj. destruct (moblin r) as [slot|] eqn:Hmo; simpl in Hj; [|done].
    injection Hj as <-. simpl.
    destruct (proj1 (proj2 Hinv) slot Hmo) as (cs & ? & ? & _). eauto.
Qed.

(** A read step keeps the invariant. *)
Lemma read_step w p r' job :
  jobs_ok w → Inv r' → steady (Some p) (heap (relay w)) (heap r') →
  (∀ j, job = Some j → job_ok (heap r') p j) →
  Inv (relay (setJob (setRelay w r') p job)) ∧ jobs_ok (setJob (setRelay w r') p job).
Proof.
  intros Hok Hinv' Hst Hjob. split; [done|].
  apply jobs_ok_rest; [|done].
  apply jobs_ok_relay; [done|]. by eapply steady_kept.
Qed.

(** The next step of a job that is in order: it completes, but for the
    send of [routeToMoblin] to a queue that has been closed. *)
Lemma job_step_ok r p job :
  Inv r → job_ok (heap r) p job →
  match job_step r p job with
  | Some (r', rest) =>
      Inv r' ∧ steady None (heap r) (heap r') ∧
      (∀ j, rest = Some j → job_ok (heap r') p j)
  | None => ∃ slot m c, job = ToSlot slot m ∧ heap r !! slot = Some c ∧
                        Type_ c = ClientTypeMoblin ∧ closed (Send c) = true
  end.
Proof.
  intros Hinv Hok. destruct job as [check [|t ts] m|slot m|m]; simpl in *.
  - split; [done|]. split; [apply steady_refl | done].
  - apply Forall_cons in Hok as [Ht Hts].
    destruct (turn_open check m _ _ Ht) as [h Hturn]. rewrite Hturn. simpl.
    pose proof (turn_steady _ _ _ _ _ Hturn) as Hst.
    split; [by apply Inv_heap|]. split; [done|].
    intros j [= <-]. simpl. eapply kept_targets; [by eapply steady_kept | done].
  - destruct Hok as (c & Hc & Hk). destruct (closed (Send c)) eqn:Hcl.
    + rewrite (trySendTo_closed _ _ _ _ Hc Hcl). simpl. by exists slot, m, c.
    + rewrite (trySendTo_open _ _ _ _ Hc Hcl). simpl.
      assert (Hst : steady None (heap r)
                (<[slot := setSend c {| buf := offered m (buf (Send c));
                                        closed := false |}]> (heap r))).
      { eapply trySendTo_steady. by apply trySendTo_open. }
      split; [by apply Inv_heap|]. split; [done|]. done.
  - destruct Hok as (c & Hc & Ho).
    rewrite (trySendTo_open _ _ _ _ Hc Ho). simpl.
    assert (Hst : steady None (heap r)
              (<[p := setSend c {| buf := offered m (buf (Send c)); closed := false |}]>
                 (heap r))).
    { eapply trySendTo_steady. by apply trySendTo_open. }
    split; [by apply Inv_heap|]. split; [done|]. done.
Qed.

(** Every enabled step keeps the invariant, and the one step that can
    panic is the send of [routeToMoblin] on a queue that has been closed. *)
Lemma World_step w a :
  Inv (relay w) → jobs_ok w → enabled w a →
  match act w a with
  | Some w' => Inv (relay w') ∧ jobs_ok w'
  | None =>
      ∃ p slot m c, a = Step p ∧ pumps w !! p = Some (ToSlot slot m) ∧
                    heap (relay w) !! slot = Some c ∧
                    Type_ c = ClientTypeMoblin ∧ closed (Send c) = true
  end.
Proof.
  intros Hinv Hok Hen.
  destruct a as [p id ty|e| |p msg raw|p msg raw|p|p].
  - simpl in *. split; [by apply Inv_alloc|]. apply jobs_ok_relay; [done|].
    intros t c Ht. exists c. split; [|done]. unfold alloc. simpl.
    rewrite lookup_insert_ne; [done|]. congruence.
  - destruct Hen as (Hadm & Hhub & Hlock).
    destruct e as [q|q|m].
    + destruct (Inv_Run_step _ _ Hinv Hadm) as (r' & Hrun & Hinv').
      cbn [act]. rewrite Hrun. simpl. split; [done|].
      apply jobs_ok_relay; [done|]. by apply (Run_step_kept _ (EvRegister q)).
    + destruct (Inv_Run_step _ _ Hinv Hadm) as (r' & Hrun & Hinv').
      cbn [act]. rewrite Hrun. simpl. split; [done|].
      destruct Hlock as [[_ Hfree] Hq]. destruct Hok as [_ Hpumps].
      pose proof (Run_step_kept _ _ _ Hrun) as Hk. simpl in Hk.
      split; simpl; [by rewrite Hhub|].
      intros p job Hp. eapply job_ok_kept; [done | by eapply Hpumps |].
      right. split; [by eapply Hfree|]. intros [= ->]. congruence.
    + simpl. split; [done|]. destruct Hok as [_ Hpumps]. split; simpl; [|done].
      intros ts m' [= <- <-]. apply registered_open. apply Hinv.
  - simpl in *. destruct Hen as [[ts m] Hhub]. rewrite Hhub.
    destruct Hok as [Hsends Hpumps]. pose proof (Hsends _ _ Hhub) as Hts.
    destruct ts as [|t ts].
    + split; [done|]. split; simpl; [done | done].
    + apply Forall_cons in Hts as [Ht Hts].
      destruct (turn_open false m _ _ Ht) as [h Hturn]. rewrite Hturn. simpl.
      pose proof (turn_steady _ _ _ _ _ Hturn) as Hst.
      split; [by apply Inv_heap|]. split; simpl.
      * intros ts' m' [= <- <-]. eapply kept_targets; [by eapply steady_kept | done].
      * intros p job Hp. eapply job_ok_kept; [by eapply steady_kept| |by left].
        by eapply Hpumps.
  - simpl in *. destruct Hen as [Hopen _].
    destruct (handleMessage_begin_Inv _ p msg raw Hinv Hopen)
      as (r' & job & Hrun & Hinv' & Hst & Hjob).
    rewrite Hrun. simpl. by apply read_step.
  - simpl in *. destruct Hen as [Hopen _].
    destruct (handleMessage_main_begin_Inv _ p msg raw Hinv Hopen)
      as (r' & job & Hrun & Hinv' & Hst & Hjob).
    rewrite Hrun. simpl. by apply read_step.
  - destruct Hen as [job Hp]. cbn [act]. rewrite Hp. cbn [mbind option_bind].
    pose proof (job_step_ok _ p job Hinv (proj2 Hok _ _ Hp)) as Hstep.
    destruct (job_step (relay w) p job) as [[r' rest]|].
    + destruct Hstep as (Hinv' & Hst & Hrest). simpl. split; [done|].
      apply jobs_ok_rest; [|done].
      apply jobs_ok_relay; [done|]. by eapply steady_kept.
    + destruct Hstep as (slot & m & c & -> & ? & ? & ?). simpl.
      by exists p, slot, m, c.
  - simpl. split; [by apply Inv_receive|]. apply jobs_ok_relay; [done|].
    eapply steady_kept. apply receive_steady.
Qed.

Lemma reachable_Inv w : reachable w → Inv (relay w) ∧ jobs_ok w.
Proof.
  induction 1 as [pw | w a w' _ [IH1 IH2] Hen Hact].
  - split; [apply Inv_NewRelay | done].
  - pose proof (World_step w a IH1 IH2 Hen) as Hstep. by rewrite Hact in Hstep.
Qed.

Lemma read_lock_freeb_free w : read_lock_freeb w = true → read_lock_free w.
Proof.
  unfold read_lock_freeb, read_lock_free.
  intros [Hhub%bool_decide_eq_true Hall]%andb_true_iff. split; [done|].
  intros p job Hp. rewrite forallb_forall in Hall.
  specialize (Hall (p, job)). simpl in Hall. apply negb_true_iff, Hall.
  apply list_elem_of_In. by apply elem_of_map_to_list.
Qed.

Lemma enabledb_enabled w a : enabledb w a = true → enabled w a.
Proof.
  destruct a as [p id ty|[p|p|m]| |p msg raw|p msg raw|p|p]; simpl; try done.
  - by intros ?%bool_decide_eq_true.
  - destruct (heap (relay w) !! p) as [c|]; simpl; [|done].
    intros [Hc Hfree%read_lock_freeb_free]%andb_true_iff.
    split; [|split; [apply Hfree | done]].
    exists c. split; [done|]. by destruct (closed (Send c)).
  - destruct (heap (relay w) !! p) as [c|]; simpl; [|done].
    intros [[Hc Hfree%read_lock_freeb_free]%andb_true_iff
              Hs%bool_decide_eq_true]%andb_true_iff.
    split; [|split; [apply Hfree | done]].
    apply orb_true_iff in Hc as [Hc|Hc%bool_decide_eq_true]; exists c; split; try done.
    + left. by destruct (closed (Send c)).
    + by right.
  - by intros ?%bool_decide_eq_true.
  - by intros ?%bool_decide_eq_true.
  - destruct (heap (relay w) !! p) as [c|]; simpl; [|done].
    intros [Hc Hs%bool_decide_eq_true]%andb_true_iff. split; [|done].
    exists c. split; [done|]. by destruct (closed (Send c)).
  - destruct (heap (relay w) !! p) as [c|]; simpl; [|done].
    intros [Hc Hs%bool_decide_eq_true]%andb_true_iff. split; [|done].
    exists c. split; [done|]. by destruct (closed (Send c)).
  - by intros ?%bool_decide_eq_true.
Qed.

(** A run of steps leads from a state of the relay to a state of the
    relay. *)
Lemma reachable_run steps : ∀ w w',
  reachable w → run w steps = Some w' → reachable w'.
Proof.
  induction steps as [|a steps IH]; intros w w' Hw Hrun; simpl in Hrun.
  - by injection Hrun as <-.
  - destruct (enabledb w a) eqn:Hen; [|done].
    destruct (act w a) as [w1|] eqn:Hact; simpl in Hrun; [|done].
    eapply IH; [|done]. eapply reach_act; [done | by apply enabledb_enabled | done].
Qed.

Import HubExamples.

Lemma reachable_served : reachable (at_rest served).
Proof.
  apply (reachable_run serve_three (start "")); [apply reach_new|].
  vm_compute. reflexivity.
Qed.

Lemma reachable_browser_and_controller : reachable (at_rest browser_and_controller).
Proof.
  apply (reachable_run [Hub (EvRegister 1); Hub (EvRegister 2)] (at_rest served));
    [apply reachable_served|].
  vm_compute. reflexivity.
Qed.

Lemma reachable_replaced : reachable (at_rest replaced).
Proof.
  apply (reachable_run [Hub (EvRegister 3)] (at_rest browser_and_controller));
    [apply reachable_browser_and_controller|].
  vm_compute. reflexivity.
Qed.

Lemma reachable_saturated : reachable (at_rest saturated).
Proof.
  apply (reachable_run
           (Hub (EvRegister 1) :: mjoin (replicate 256 (one_broadcast "frame")))
           (at_rest served)); [apply reachable_served|].
  vm_compute. reflexivity.
Qed.

Lemma reachable_guarded : reachable guarded_world.
Proof.
  apply (reachable_run guarded_steps (start "secret")); [apply reach_new|].
  vm_compute. reflexivity.
Qed.

Lemma reachable_authenticated : reachable authenticated_world.
Proof.
  apply (reachable_run authenticated_steps guarded_world); [apply reachable_guarded|].
  vm_compute. reflexivity.
Qed.

Lemma reachable_overtaken : reachable overtaken.
Proof.
  apply (reachable_run overtaken_steps (start "")); [apply reach_new|].
  vm_compute. reflexivity.
Qed.

Lemma Inv_browser_and_controller : Inv browser_and_controller.
Proof.
  apply (reachable_Inv (at_rest browser_and_controller)),
    reachable_browser_and_controller.
Qed.

Lemma Inv_replaced : Inv replaced.
Proof. apply (reachable_Inv (at_rest replaced)), reachable_replaced. Qed.

Lemma Inv_authenticated : Inv authenticated.
Proof. apply (reachable_Inv authenticated_world), reachable_authenticated. Qed.

(** ** The one panic of the relay *)

(** X1. In every state the relay reaches from [NewRelay] (by [ServeWS]
    building clients, the hub loop taking register and unregister events
    under the write lock and doing its broadcasts turn by turn under the
    read lock, read pumps going through [handleMessage] send by send, write
    pumps draining queues), every step that can take place completes and
    leads to such a state, with one exception: the send of
    [routeToMoblin], which takes place after the read lock is released.
    That send goes to the controller the read pump found in the slot; it
    panics, on a closed channel, exactly when the hub loop has unregistered
    that controller in between, which is then neither in the slot nor in
    the registry.  No other step closes a closed channel, sends on a closed
    channel or follows a missing client. *)
Theorem only_stale_send_panics (w : World) (a : Action) :
  reachable w → enabled w a →
  match act w a with
  | Some w' => reachable w'
  | None =>
      ∃ p slot m c,
        a = Step p ∧ pumps w !! p = Some (ToSlot slot m) ∧
        heap (relay w) !! slot = Some c ∧ Type_ c = ClientTypeMoblin ∧
        closed (Send c) = true ∧ moblin (relay w) ≠ Some slot ∧
        clients (relay w) !! ID c ≠ Some slot
  end ∧
  ∀ p slot m c,
    a = Step p → pumps w !! p = Some (ToSlot slot m) →
    heap (relay w) !! slot = Some c → closed (Send c) = true →
    act w a = None.
Proof.
  intros Hw Hen. destruct (reachable_Inv w Hw) as [Hinv Hok].
  pose proof (World_step w a Hinv Hok Hen) as Hstep. split.
  - destruct (act w a) as [w'|] eqn:Hact; [by eapply reach_act|].
    destruct Hstep as (p & slot & m & c & -> & Hp & Hc & Hk & Hcl).
    exists p, slot, m, c. repeat (split; [done|]). split.
    + intros Hmo. destruct (proj1 (proj2 Hinv) slot Hmo) as (c0 & Hc0 & _ & Ho).
      congruence.
    + intros Hreg. destruct (proj1 (proj1 Hinv) _ _ Hreg) as (c0 & Hc0 & _ & Ho).
      congruence.
  - intros p slot m c -> Hp Hc Hcl. cbn [act]. rewrite Hp.
    cbn [mbind option_bind job_step]. by rewrite (trySendTo_closed _ _ _ _ Hc Hcl).
Qed.

Lemma only_stale_send_panics_witness :
  act overtaken (Step 1) = None.
Proof.
  eassert (Hp : pumps overtaken !! 1%nat = Some (ToSlot 2 "cmd"))
    by (vm_compute; reflexivity).
  eassert (Hc : heap (relay overtaken) !! 2%nat = Some _)
    by (vm_compute; reflexivity).
  refine (proj2 (only_stale_send_panics overtaken (Step 1) reachable_overtaken _)
            1%nat 2%nat "cmd" _ eq_refl Hp Hc _).
  - apply enabledb_enabled. vm_compute. reflexivity.
  - reflexivity.
Defined.

(** X2. No send queue of a client ever holds more than 256 frames, in any
    state the relay reaches. *)
Theorem queues_never_exceed_capacity (w : World) (p : ptr) (c : Client) :
  reachable w → heap (relay w) !! p = Some c → (length (buf (Send c)) ≤ 256)%nat.
Proof.
  intros Hw Hp. destruct (reachable_Inv w Hw) as [(_ & _ & Hbd) _]. by eapply Hbd.
Qed.

Lemma queues_never_exceed_capacity_witness :
  ∃ c, heap saturated !! 1%nat = Some c ∧
       length (buf (Send c)) = 256%nat ∧ (length (buf (Send c)) ≤ 256)%nat.
Proof.
  eexists. split; [vm_compute; reflexivity|]. split; [vm_compute; reflexivity|].
  eapply (queues_never_exceed_capacity (at_rest saturated) 1%nat);
    [exact reachable_saturated | vm_compute; reflexivity].
Defined.

(** ** Routing *)

(** X3. [routeToBrowsers] on a well-formed registry completes and leaves the
    registry as it is: the frame is offered to the queue of every browser
    whose [Authorized] flag is set, a browser that is not authorized keeps
    its queue, and no client outside [browsers] (the controller included)
    is touched. *)
Theorem routeToBrowsers_only_authorized (r : Relay) (msg : frame) :
  WF r →
  ∃ r', routeToBrowsers r msg = Some r' ∧ same_registry r r' ∧
    (∀ id b cb, browsers r !! id = Some b → heap r !! b = Some cb →
       heap r' !! b
       = Some (if Authorized cb
               then setSend cb {| buf := offered msg (buf (Send cb));
                                  closed := false |}
               else cb)) ∧
    (∀ p, (∀ id, browsers r !! id ≠ Some p) → heap r' !! p = heap r !! p).
Proof.
  intros (Hc & Hb & Hty). unfold routeToBrowsers.
  pose proof (NoDup_values _ _ Hb) as Hnd.
  destruct (sendAuthorized_total msg (values (browsers r)) (heap r) Hnd)
    as [h' Hrun].
  { intros p (id & Hid)%elem_of_values.
    destruct (Hb _ _ Hid) as (c & ? & ? & ?). eauto. }
  rewrite Hrun. simpl. eexists. split; [done|]. split; [by repeat split|].
  destruct (sendAuthorized_Some _ _ _ _ Hnd Hrun) as [Hin Hout]. simpl. split.
  - intros id b cb Hbid Hcb.
    destruct (Hin b) as (c & Hc' & Hh'); [apply elem_of_values; eauto|].
    by simplify_eq.
  - intros p Hp. apply Hout. rewrite elem_of_values. intros [id Hid].
    by apply (Hp id).
Qed.

Lemma routeToBrowsers_only_authorized_witness :
  ∃ r' c1 c2,
    routeToBrowsers authenticated "stats" = Some r' ∧
    heap r' !! 1%nat = Some c1 ∧ last (buf (Send c1)) = Some "stats" ∧
    heap r' !! 2%nat = Some c2 ∧ heap authenticated !! 2%nat = Some c2 ∧
    Authorized c2 = false.
Proof.
  destruct (routeToBrowsers_only_authorized authenticated "stats")
    as (r' & Hrun & _ & Hin & _).
  { apply Inv_authenticated. }
  assert (H1 : browsers authenticated !! "browser-1" = Some 1%nat)
    by (vm_compute; reflexivity).
  assert (H2 : browsers authenticated !! "browser-2" = Some 2%nat)
    by (vm_compute; reflexivity).
  eassert (Hc1 : heap authenticated !! 1%nat = Some _) by (vm_compute; reflexivity).
  eassert (Hc2 : heap authenticated !! 2%nat = Some _) by (vm_compute; reflexivity).
  pose proof (Hin _ _ _ H1 Hc1) as E1. pose proof (Hin _ _ _ H2 Hc2) as E2.
  cbn [Authorized] in E1, E2.
  eexists r', _, _. split; [exact Hrun|].
  split; [exact E1|]. split; [vm_compute; reflexivity|].
  split; [exact E2|]. split; [exact Hc2 | reflexivity].
Defined.

(** X4. With a password set, a message other than [auth] from a client that
    is not authorized is not relayed: [handleMessage] of relay/main.go
    leaves the relay exactly as it is, and [handleMessage] of the monolithic
    main package only offers the frame
    [{"type":"error","message":"Not authorized"}] to the sender's own
    queue. *)
Theorem unauthorized_messages_not_relayed (r : Relay) (p : ptr) (c : Client)
    (msg : Incoming) (raw : frame) :
  heap r !! p = Some c → closed (Send c) = false →
  password r ≠ "" → Authorized c = false → In_Type msg ≠ "auth" →
  handleMessage r p msg raw = Some r ∧
  handleMessage_main r p msg raw
  = Some (setHeap r (<[p := setSend c
                             {| buf := offered (json_text "{'type':'error','message':'Not authorized'}")
                                               (buf (Send c));
                                closed := false |}]> (heap r))).
Proof.
  intros Hp Ho Hpw Hauth Hty.
  unfold handleMessage, handleMessage_main. rewrite Hp. simpl.
  rewrite !decide_False by done. rewrite Hauth.
  rewrite bool_decide_eq_false_2 by done. simpl. split; [done|].
  destruct (decide (In_Type msg = "auth")); [done|].
  by rewrite (sendJSON_open _ _ _ _ Hp Ho).
Qed.

Lemma unauthorized_messages_not_relayed_witness :
  handleMessage guarded 2%nat command "{}" = Some guarded.
Proof.
  eassert (Hp : heap guarded !! 2%nat = Some _) by (vm_compute; reflexivity).
  refine (proj1 (unauthorized_messages_not_relayed guarded 2%nat _ command "{}"
                   Hp _ _ _ _));
    [reflexivity | vm_compute; discriminate | reflexivity | vm_compute; discriminate].
Defined.

(** The [Authorized] flags under one step. *)
Lemma steady_auth h h' p c c' :
  steady None h h' → h !! p = Some c → h' !! p = Some c' →
  Authorized c' = Authorized c.
Proof.
  intros Hst Hp Hp'. specialize (Hst p). rewrite Hp, Hp' in Hst.
  destruct Hst as [_ Ha]. by apply Ha.
Qed.

Lemma Run_step_auth r e r' p c c' :
  Run_step r e = Some r' → heap r !! p = Some c → heap r' !! p = Some c' →
  Authorized c' = Authorized c.
Proof.
  intros Hrun Hp Hp'. destruct e as [q|q|m]; simpl in Hrun.
  - destruct (heap r !! q) as [cq|] eqn:Hq; simpl in Hrun; [|done].
    case_decide.
    + apply notifyBrowsers_steady in Hrun as [Hst _]. by eapply steady_auth.
    + injection Hrun as <-. simpl in Hp'. congruence.
  - destruct (heap r !! q) as [cq|] eqn:Hq; simpl in Hrun; [|done].
    destruct (clients r !! ID cq); [|injection Hrun as <-; congruence].
    destruct (closeChan (Send cq)) as [ch|]; simpl in Hrun; [|done].
    assert (Hmid : ∃ c1, <[q := setSend cq ch]> (heap r) !! p = Some c1 ∧
                         Authorized c1 = Authorized c).
    { destruct (decide (p = q)) as [->|Hne].
      - rewrite lookup_insert_eq. eexists. split; [done|]. simpl. congruence.
      - rewrite lookup_insert_ne by done. eauto. }
    destruct Hmid as (c1 & Hc1 & Ha1).
    case_decide.
    + apply notifyBrowsers_steady in Hrun as [Hst _]. simpl in Hst.
      rewrite <- Ha1. by eapply steady_auth.
    + injection Hrun as <-. simpl in Hp'. congruence.
  - destruct (sendAll m _ _) as [h|] eqn:Hsend; simpl in Hrun; [|done].
    injection Hrun as <-. simpl in Hp'.
    eapply steady_auth; [by eapply sendAll_steady | done | done].
Qed.

(** X5. The [Authorized] flag of a client changes under no step of the
    relay but one: the client's own [auth] message handled while the relay
    has no password or the message carries the password of the relay; the
    flag is then set.  So a flag that is set is never cleared, and no hub
    event, no message of another client and no wrong password sets a
    flag. *)
Theorem authorized_only_by_own_auth (w w' : World) (a : Action) (p : ptr)
    (c c' : Client) :
  enabled w a → act w a = Some w' →
  heap (relay w) !! p = Some c → heap (relay w') !! p = Some c' →
  Authorized c' ≠ Authorized c →
  Authorized c' = true ∧
  ∃ msg raw, (a = Read p msg raw ∨ a = Read_main p msg raw) ∧
             In_Type msg = "auth" ∧
             (password (relay w) = "" ∨ In_Password msg = password (relay w)).
Proof.
  intros Hen Hact Hp Hp' Hdiff.
  assert (Hsame : ∀ h, steady None (heap (relay w)) h → h !! p = Some c' → False).
  { intros h Hst Hh. apply Hdiff. by eapply steady_auth. }
  destruct a as [q id ty|e| |q msg raw|q msg raw|q|q].
  - simpl in *. injection Hact as <-. unfold alloc in Hp'. simpl in Hp'.
    rewrite lookup_insert_ne in Hp' by congruence. congruence.
  - destruct e as [q|q|m]; cbn [act] in Hact.
    + destruct (Run_step (relay w) (EvRegister q)) as [r'|] eqn:Hrun;
        simpl in Hact; [|done].
      injection Hact as <-. destruct Hdiff. by eapply Run_step_auth.
    + destruct (Run_step (relay w) (EvUnregister q)) as [r'|] eqn:Hrun;
        simpl in Hact; [|done].
      injection Hact as <-. destruct Hdiff. by eapply Run_step_auth.
    + injection Hact as <-. simpl in Hp'. congruence.
  - simpl in Hact. destruct (hub_sends w) as [[[|t ts] m]|].
    + injection Hact as <-. simpl in Hp'. congruence.
    + destruct (turn false m (heap (relay w)) t) as [h|] eqn:Hturn;
        simpl in Hact; [|done].
      injection Hact as <-. simpl in Hp'.
      destruct (Hsame h); [by eapply turn_steady | done].
    + injection Hact as <-. congruence.
  - simpl in Hact, Hen. destruct Hen as [(cq & Hq & Ho) _].
    unfold handleMessage_begin in Hact.
    rewrite Hq in Hact. simpl in Hact. case_decide as Hty.
    + destruct (bool_decide (password (relay w) = "")
                || bool_decide (In_Password msg = password (relay w))) eqn:Hpw.
      * injection Hact as <-. simpl in Hp'.
        destruct (decide (p = q)) as [->|Hne].
        -- rewrite lookup_insert_eq in Hp'. injection Hp' as <-.
           split; [done|]. exists msg, raw. split; [by left|]. split; [done|].
           apply orb_true_iff in Hpw
             as [?%bool_decide_eq_true|?%bool_decide_eq_true]; auto.
        -- rewrite lookup_insert_ne in Hp' by done. congruence.
      * injection Hact as <-. simpl in Hp'. congruence.
    + destruct (negb (Authorized cq) && negb (bool_decide (password (relay w) = ""))).
      { injection Hact as <-. simpl in Hp'. congruence. }
      case_decide; injection Hact as <-; simpl in Hp'; congruence.
  - simpl in Hact, Hen. destruct Hen as [(cq & Hq & Ho) _].
    unfold handleMessage_main_begin in Hact.
    rewrite Hq in Hact. simpl in Hact. case_decide as Hty.
    + destruct (bool_decide (password (relay w) = "")
                || bool_decide (In_Password msg = password (relay w))) eqn:Hpw.
      * injection Hact as <-. simpl in Hp'.
        destruct (decide (p = q)) as [->|Hne].
        -- rewrite lookup_insert_eq in Hp'. injection Hp' as <-.
           split; [done|]. exists msg, raw. split; [by right|]. split; [done|].
           apply orb_true_iff in Hpw
             as [?%bool_decide_eq_true|?%bool_decide_eq_true]; auto.
        -- rewrite lookup_insert_ne in Hp' by done. congruence.
      * injection Hact as <-. simpl in Hp'. congruence.
    + destruct (negb (Authorized cq) && negb (bool_decide (password (relay w) = ""))).
      { injection Hact as <-. simpl in Hp'. congruence. }
      case_decide; injection Hact as <-; simpl in Hp'; congruence.
  - cbn [act] in Hact. destruct (pumps w !! q) as [job|]; simpl in Hact; [|done].
    destruct job as [check [|t ts] m|slot m|m]; simpl in Hact.
    + injection Hact as <-. simpl in Hp'. congruence.
    + destruct (turn check m (heap (relay w)) t) as [h|] eqn:Hturn;
        simpl in Hact; [|done].
      injection Hact as <-. simpl in Hp'.
      destruct (Hsame h); [by eapply turn_steady | done].
    + destruct (trySendTo m (heap (relay w)) slot) as [h|] eqn:Hsend;
        simpl in Hact; [|done].
      injection Hact as <-. simpl in Hp'.
      destruct (Hsame h); [by eapply trySendTo_steady | done].
    + destruct (trySendTo m (heap (relay w)) q) as [h|] eqn:Hsend;
        simpl in Hact; [|done].
      injection Hact as <-. simpl in Hp'.
      destruct (Hsame h); [by eapply trySendTo_steady | done].
  - simpl in Hact. injection Hact as <-. simpl in Hp'.
    destruct (Hsame _ (receive_steady (relay w) q) Hp').
Qed.

Lemma authorized_only_by_own_auth_witness :
  In_Password (auth_with "secret") = password guarded ∧
  ∃ msg raw,
    (Read 1 (auth_with "secret") "auth" = Read 1 msg raw ∨
     Read 1 (auth_with "secret") "auth" = Read_main 1 msg raw) ∧
    In_Type msg = "auth" ∧
    (password guarded = "" ∨ In_Password msg = password guarded).
Proof.
  split; [reflexivity|].
  assert (Hact : ∃ w', act guarded_world (Read 1 (auth_with "secret") "auth") = Some w')
    by (eexists; vm_compute; reflexivity).
  destruct Hact as [w' Hact].
  assert (Hp' : ∃ c', heap (relay w') !! 1%nat = Some c' ∧ Authorized c' = true).
  { vm_compute in Hact. injection Hact as <-. eexists. split; reflexivity. }
  destruct Hp' as (c' & Hp' & Hauth).
  eassert (Hp : heap (relay guarded_world) !! 1%nat = Some _) by (vm_compute; reflexivity).
  refine (proj2 (authorized_only_by_own_auth guarded_world w'
                   (Read 1 (auth_with "secret") "auth") 1%nat _ c'
                   _ Hact Hp Hp' _)).
  - apply enabledb_enabled. vm_compute. reflexivity.
  - rewrite Hauth. vm_compute. discriminate.
Defined.

(** X6. [routeToMoblin], when the slot holds a controller with an open
    queue or is empty, completes and leaves the registry as it is: with an
    empty slot the message is dropped and nothing changes; otherwise the
    frame is offered to the queue of the controller in the slot, and no
    other client, a second registered controller included, is touched. *)
Theorem routeToMoblin_reaches_slot_only (r : Relay) (msg : frame) :
  slot_ok r →
  ∃ r', routeToMoblin r msg = Some r' ∧ same_registry r r' ∧
    (moblin r = None → r' = r) ∧
    (∀ p c, moblin r = Some p → heap r !! p = Some c →
       heap r' !! p
       = Some (setSend c {| buf := offered msg (buf (Send c)); closed := false |})) ∧
    (∀ q, moblin r ≠ Some q → heap r' !! q = heap r !! q).
Proof.
  intros Hslot. unfold routeToMoblin, routeToMoblin_send.
  destruct (moblin r) as [p|] eqn:Hmo.
  - destruct (Hslot p Hmo) as (c & Hp & _ & Ho).
    rewrite (trySendTo_open _ _ _ _ Hp Ho). simpl. eexists. split; [done|].
    split; [by repeat split|]. split; [done|]. simpl. split.
    + intros p' c' [= <-] Hc'. rewrite lookup_insert_eq. congruence.
    + intros q Hq. rewrite lookup_insert_ne; [done|]. congruence.
  - exists r. split; [done|]. split; [by repeat split|]. split; [done|].
    split; [intros; done | done].
Qed.

Lemma routeToMoblin_reaches_slot_only_witness :
  ∃ r' c2,
    routeToMoblin replaced "cmd" = Some r' ∧
    clients replaced !! "moblin-2" = Some 2%nat ∧
    heap replaced !! 2%nat = Some c2 ∧ heap r' !! 2%nat = Some c2.
Proof.
  destruct (routeToMoblin_reaches_slot_only replaced "cmd")
    as (r' & Hrun & _ & _ & _ & Hout).
  { apply Inv_replaced. }
  eassert (Hc2 : heap replaced !! 2%nat = Some _) by (vm_compute; reflexivity).
  eexists r', _. split; [exact Hrun|]. split; [vm_compute; reflexivity|].
  split; [exact Hc2|]. rewrite Hout; [exact Hc2|]. vm_compute. discriminate.
Defined.

(** X7. [routeToMoblin] reads the slot under the read lock and sends after
    it has released the lock.  When the hub loop takes the unregister event
    of that controller in between, the send goes to the channel the hub has
    closed, which is a panic; a call that starts after the event finds the
    slot empty and drops the message. *)
Theorem routeToMoblin_send_after_unregister (r : Relay) (p : ptr) (c : Client)
    (msg : frame) :
  WF r → moblin r = Some p → heap r !! p = Some c →
  Type_ c = ClientTypeMoblin → closed (Send c) = false →
  is_Some (clients r !! ID c) →
  ∃ r', Run_step r (EvUnregister p) = Some r' ∧
        routeToMoblin_send r' (moblin r) msg = None ∧
        routeToMoblin r' msg = Some r'.
Proof.
  intros Hwf Hmo Hp Hk Ho Hreg.
  destruct (unregister_controller_spec r p c Hwf Hp Hk Ho Hreg)
    as (r' & Hrun & _ & Hmo' & _ & _ & (c' & Hc' & Hclosed & _) & _).
  exists r'. split; [done|]. split.
  - rewrite Hmo. unfold routeToMoblin_send, trySendTo. rewrite Hc'. simpl.
    unfold trySend. by rewrite Hclosed.
  - unfold routeToMoblin. by rewrite Hmo'.
Qed.

Lemma routeToMoblin_send_after_unregister_witness :
  ∃ r', Run_step browser_and_controller (EvUnregister 2) = Some r' ∧
        routeToMoblin_send r' (moblin browser_and_controller) "cmd" = None ∧
        routeToMoblin r' "cmd" = Some r'.
Proof.
  eassert (Hp : heap browser_and_controller !! 2%nat = Some _)
    by (vm_compute; reflexivity).
  refine (routeToMoblin_send_after_unregister browser_and_controller 2%nat _ "cmd"
            _ _ Hp _ _ _).
  - apply Inv_browser_and_controller.
  - vm_compute. reflexivity.
  - reflexivity.
  - reflexivity.
  - vm_compute. eauto.
Defined.

(** X8. When a registered controller that is not the one in the slot is
    unregistered (the older of two controllers going away), the hub loop
    empties the slot although the controller in the slot stays registered
    with an open queue; from then on [routeToMoblin] drops every message of
    the browsers. *)
Theorem stale_unregister_drops_browser_messages (r : Relay) (p1 p2 : ptr)
    (c1 c2 : Client) (msg : frame) :
  WF r → heap r !! p1 = Some c1 → Type_ c1 = ClientTypeMoblin →
  closed (Send c1) = false → is_Some (clients r !! ID c1) →
  moblin r = Some p2 → heap r !! p2 = Some c2 →
  clients r !! ID c2 = Some p2 → ID c2 ≠ ID c1 →
  ∃ r', Run_step r (EvUnregister p1) = Some r' ∧
        clients r' !! ID c2 = Some p2 ∧
        (∃ c2', heap r' !! p2 = Some c2' ∧ closed (Send c2') = false) ∧
        routeToMoblin r' msg = Some r'.
Proof.
  intros Hwf Hp1 Hk Ho Hreg Hmo Hp2 Hreg2 Hne.
  destruct (unregister_controller_spec r p1 c1 Hwf Hp1 Hk Ho Hreg)
    as (r' & Hrun & Hwf' & Hmo' & Hcl & _).
  assert (Hreg' : clients r' !! ID c2 = Some p2)
    by (by rewrite Hcl, lookup_delete_ne).
  exists r'. split; [done|]. split; [done|]. split.
  - destruct (proj1 Hwf' _ _ Hreg') as (c2' & Hc2' & _ & Ho2). eauto.
  - unfold routeToMoblin. by rewrite Hmo'.
Qed.

Lemma stale_unregister_drops_browser_messages_witness :
  ∃ r', Run_step replaced (EvUnregister 2) = Some r' ∧
        clients r' !! "moblin-3" = Some 3%nat ∧
        (∃ c2', heap r' !! 3%nat = Some c2' ∧ closed (Send c2') = false) ∧
        routeToMoblin r' "cmd" = Some r'.
Proof.
  eassert (Hp1 : heap replaced !! 2%nat = Some _) by (vm_compute; reflexivity).
  eassert (Hp2 : heap replaced !! 3%nat = Some _) by (vm_compute; reflexivity).
  refine (stale_unregister_drops_browser_messages replaced 2%nat 3%nat _ _ "cmd"
            _ Hp1 _ _ _ _ Hp2 _ _).
  - apply Inv_replaced.
  - reflexivity.
  - reflexivity.
  - vm_compute. eauto.
  - vm_compute. reflexivity.
  - vm_compute. reflexivity.
  - vm_compute. discriminate.
Defined.

End PeerTheory.

(** * The rate limiter: the sweeper and the stored stamps *)

Module LimiterTheory.
Import Services RateTrace RateTheory.

Local Open Scope Z_scope.

Lemma keepAfter_twice c0 c (l : list Time) :
  c0 ≤ c → keepAfter c (keepAfter c0 l) = keepAfter c l.
Proof.
  intros Hle. rewrite (keepAfter_filter c0), (keepAfter_filter c l).
  by apply keepAfter_kept.
Qed.

Lemma cutoff_eq now window :
  0 ≤ window ≤ 5 * Minute → Add now (negDuration window) = now - window.
Proof.
  intros Hw. rewrite negDuration_small; [unfold Add; lia|].
  unfold Minute, Second, max_int64 in *. lia.
Qed.

Lemma stamps_cleanup now rl key :
  stamps (cleanup now rl) key = keepAfter (now - 5 * Minute) (stamps rl key).
Proof. apply cleanup_lookup. Qed.

Lemma stamps_Allow now rl k l w key :
  stamps (Allow now rl k l w).1 key
  = if (Allow now rl k l w).2 && bool_decide (key = k)
    then keepAfter (Add now (negDuration w)) (stamps rl k) ++ [now]
    else stamps rl key.
Proof.
  unfold Allow, stamps. case_decide; simpl; [done|].
  case_bool_decide as Hk.
  - subst. by rewrite lookup_insert_eq.
  - by rewrite lookup_insert_ne.
Qed.

Lemma Allow_answer now rl k l w :
  (Allow now rl k l w).2
  = bool_decide (Z.of_nat (length (keepAfter (Add now (negDuration w)) (stamps rl k))) < l).
Proof.
  unfold Allow, stamps. case_decide; simpl; symmetry.
  - apply bool_decide_eq_false. lia.
  - apply bool_decide_eq_true. lia.
Qed.

(** Two limiters that hold the same stamps later than five minutes before
    [t] give the same answers from [t] on. *)
Lemma answers_agree : ∀ cs t rl1 rl2,
  chronological t cs → short_windows cs →
  (∀ key, keepAfter (t - 5 * Minute) (stamps rl1 key)
          = keepAfter (t - 5 * Minute) (stamps rl2 key)) →
  answers rl1 cs = answers rl2 cs.
Proof.
  induction cs as [|[now k l w|now] cs IH]; intros t rl1 rl2 Hchr Hshort Hagree;
    [done| |].
  - destruct Hchr as [Hle Hchr]. simpl in Hle.
    apply Forall_cons in Hshort as [Hw Hshort].
    assert (Hlater : ∀ c key, t - 5 * Minute ≤ c →
              keepAfter c (stamps rl1 key) = keepAfter c (stamps rl2 key)).
    { intros c key Hc.
      rewrite <- (keepAfter_twice (t - 5 * Minute) c (stamps rl1 key)) by done.
      rewrite <- (keepAfter_twice (t - 5 * Minute) c (stamps rl2 key)) by done.
      by rewrite Hagree. }
    assert (Hans : (Allow now rl1 k l w).2 = (Allow now rl2 k l w).2).
    { rewrite !Allow_answer, (cutoff_eq _ _ Hw). rewrite Hlater; [done|lia]. }
    simpl. rewrite Hans. f_equal.
    apply (IH now); [done | done |].
    intros key. rewrite !stamps_Allow, Hans, (cutoff_eq _ _ Hw).
    destruct ((Allow now rl2 k l w).2 && bool_decide (key = k)).
    + rewrite (Hlater (now - w) k); [done|lia].
    + apply Hlater. simpl in *. lia.
  - destruct Hchr as [Hle Hchr]. simpl in Hle.
    apply Forall_cons in Hshort as [_ Hshort]. simpl.
    apply (IH now); [done | done |].
    intros key. rewrite !stamps_cleanup. f_equal.
    rewrite <- (keepAfter_twice (t - 5 * Minute) (now - 5 * Minute) (stamps rl1 key)) by lia.
    rewrite <- (keepAfter_twice (t - 5 * Minute) (now - 5 * Minute) (stamps rl2 key)) by lia.
    by rewrite Hagree.
Qed.

(** X9. The sweeper cannot be observed through [Allow] while every window
    is at most five minutes: whatever calls of [Allow] (on whatever keys and
    limits, with windows between zero and five minutes) and further ticks
    follow a tick of the sweeper in the order of the clock, each call gets
    the answer it would have got without that tick. *)
Theorem sweeper_unobservable (rl : RateLimiter) (t : Time) (cs : list Call) :
  chronological t cs → short_windows cs →
  answers (cleanup t rl) cs = answers rl cs.
Proof.
  intros Hchr Hshort. apply (answers_agree cs t); [done | done |].
  intros key. rewrite stamps_cleanup. by apply keepAfter_twice.
Qed.

Lemma sweeper_unobservable_witness :
  answers (cleanup (3 * Second) (after_calls NewRateLimiter (take 4 burst)))
          (drop 5 burst)
  = [true; true; false; false].
Proof.
  rewrite sweeper_unobservable.
  - vm_compute. reflexivity.
  - vm_compute. repeat split; discriminate.
  - unfold short_windows. simpl.
    repeat (apply Forall_cons; split; [vm_compute; split; discriminate|]).
    apply Forall_nil. done.
Defined.

(** X10. A key never holds more stamps than its limit: when every call of
    [Allow] on the key uses one limit that is not negative and one window,
    whatever other
    calls and ticks of the sweeper are served in between, the list stored
    under the key keeps at most [limit] stamps. *)
Theorem stamps_never_exceed_limit (key : string) (limit : Z) (window : Duration)
    (rl : RateLimiter) (cs : list Call) :
  0 ≤ limit → uniform key limit window cs →
  Z.of_nat (length (stamps rl key)) ≤ limit →
  Z.of_nat (length (stamps (after_calls rl cs) key)) ≤ limit.
Proof.
  intros Hlim. revert rl.
  induction cs as [|[now k l w|now] cs IH]; intros rl Huni Hlen; [done| |].
  - apply Forall_cons in Huni as [Hk Huni]. simpl. apply IH; [done|].
    rewrite stamps_Allow.
    destruct ((Allow now rl k l w).2 && bool_decide (key = k)) eqn:Hgrant; [|done].
    apply andb_true_iff in Hgrant as [Hans Hkey%bool_decide_eq_true]. subst k.
    destruct (Hk eq_refl) as [-> ->].
    rewrite Allow_answer in Hans. apply bool_decide_eq_true in Hans.
    rewrite length_app. simpl. lia.
  - apply Forall_cons in Huni as [_ Huni]. simpl. apply IH; [done|].
    rewrite stamps_cleanup. unfold keepAfter.
    pose proof (length_filter (λ t, After t (now - 5 * Minute) = true) (stamps rl key)).
    lia.
Qed.

Lemma stamps_never_exceed_limit_witness :
  Z.of_nat (length (stamps (after_calls NewRateLimiter burst) "10.0.0.1:login")) ≤ 5.
Proof.
  apply (stamps_never_exceed_limit "10.0.0.1:login" 5 Minute NewRateLimiter burst).
  - lia.
  - unfold uniform, burst.
    repeat (apply Forall_cons; split; [first [done | by intros _ | by intros [=]]|]).
    by apply Forall_nil.
  - vm_compute. discriminate.
Defined.

End LimiterTheory.

(** * The life of a session *)

Module SessionLife.
Import Services Examples.

Local Open Scope Z_scope.

Lemma Get_main_eq now s id : Get_main now s id = Get now s id.
Proof.
  unfold Get, Get_main. destruct (sessions s !! id) as [x|]; simpl; [|done].
  by destruct (After now (ExpiresAt x)).
Qed.

Lemma Get_lookup now s id :
  Get now s id
  = x ← sessions s !! id; if After now (ExpiresAt x) then None else Some x.
Proof.
  unfold Get. destruct (sessions s !! id) as [x|]; simpl; [|done].
  by destruct (After now (ExpiresAt x)).
Qed.

Lemma sessions_save ok s : sessions (save ok s) = sessions s.
Proof. unfold save. by destruct ok. Qed.

(** A lookup in the map of a store is a lookup in its entries. *)
Lemma lookup_entries (m : SessionMap) (id : string) : m !! id = entries m !! id.
Proof. done. Qed.

Lemma Get_nil now s id : sessions s = NilMap → Get now s id = None.
Proof. intros Hnil. unfold Get. by rewrite Hnil. Qed.

Lemma Get_insert now s ok id x t id' :
  sessions s = Table t →
  Get now (save ok (setSessions s (Table (<[id := x]> t)))) id'
  = if decide (id' = id)
    then (if After now (ExpiresAt x) then None else Some x)
    else Get now s id'.
Proof.
  intros Ht. rewrite !Get_lookup, sessions_save, !lookup_entries, Ht. simpl.
  case_decide as Hid.
  - subst. by rewrite lookup_insert_eq.
  - by rewrite lookup_insert_ne.
Qed.

Section Sessions.
Context `{GoStdlib}.

(** [Create] panics exactly on the nil map. *)
Lemma Create_None env s userAgent ip :
  Create env s userAgent ip = None ↔ sessions s = NilMap.
Proof. unfold Create. destruct (sessions s); simpl; split; done. Qed.

Lemma Main_Create_None env s userAgent ip :
  Main.Create env s userAgent ip = None ↔ sessions s = NilMap.
Proof. unfold Main.Create. destruct (sessions s); simpl; split; done. Qed.

(** The session [Create] returns, and what [Get] finds afterwards. *)
Lemma Create_Get env s userAgent ip s' x now :
  Create env s userAgent ip = Some (s', x) →
  sessions s ≠ NilMap ∧
  ExpiresAt x = clock_expires env + 720 * Hour ∧
  UserAgent x = userAgent ∧ IP x = ip ∧
  (Get now s' (ID x) = Some x ↔ now ≤ clock_expires env + 720 * Hour) ∧
  (clock_expires env + 720 * Hour < now → Get now s' (ID x) = None) ∧
  (∀ id, id ≠ ID x → Get now s' id = Get now s id).
Proof.
  unfold Create. destruct (sessions s) as [|t] eqn:Ht; simpl; [done|].
  intros [= <- <-]. simpl.
  assert (Hexp : Add (clock_expires env) (30 * 24 * Hour)
                 = clock_expires env + 720 * Hour) by (unfold Add; lia).
  rewrite Hexp. split; [done|]. split; [done|]. split; [done|]. split; [done|].
  rewrite (Get_insert _ _ _ _ _ t) by done. rewrite decide_True by done.
  simpl. unfold After. split; [|split].
  - case_bool_decide; split; intros; try done; lia.
  - intros Hlate. by rewrite bool_decide_eq_true_2.
  - intros id Hid. by rewrite (Get_insert _ _ _ _ _ t), decide_False.
Qed.

Lemma Main_Create_Get env s userAgent ip s' x now :
  Main.Create env s userAgent ip = Some (s', x) →
  sessions s ≠ NilMap ∧
  ExpiresAt x = clock_expires env + 720 * Hour ∧
  UserAgent x = userAgent ∧ IP x = ip ∧
  (Get_main now s' (ID x) = Some x ↔ now ≤ clock_expires env + 720 * Hour) ∧
  (clock_expires env + 720 * Hour < now → Get_main now s' (ID x) = None) ∧
  (∀ id, id ≠ ID x → Get_main now s' id = Get_main now s id).
Proof.
  unfold Main.Create. destruct (sessions s) as [|t] eqn:Ht; simpl; [done|].
  intros [= <- <-]. simpl.
  assert (Hexp : Add (clock_expires env) (30 * 24 * Hour)
                 = clock_expires env + 720 * Hour) by (unfold Add; lia).
  rewrite Hexp. split; [done|]. split; [done|]. split; [done|]. split; [done|].
  rewrite Get_main_eq, (Get_insert _ _ _ _ _ t) by done.
  rewrite decide_True by done.
  simpl. unfold After. split; [|split].
  - case_bool_decide; split; intros; try done; lia.
  - intros Hlate. by rewrite bool_decide_eq_true_2.
  - intros id Hid. by rewrite !Get_main_eq, (Get_insert _ _ _ _ _ t), decide_False.
Qed.

(** X11. [Create] followed by [Get].  On a store whose map is nil, which is
    what [load] leaves for a sessions file that holds [null] (in the
    services package also for an empty file or one that is no JSON text),
    [Create] panics at the assignment to the map and [Get] finds nothing.
    On every other store [Create] returns a session that expires 720 hours
    after the clock reading and carries the user agent and the address it
    was given; [Get] with its id returns exactly that session at every
    clock reading up to the expiry, the instant of expiry included, and
    nothing afterwards; lookups of every other id are not affected, and a
    failed write of the file changes none of this.  The same holds for the
    store of the monolithic main package. *)
Theorem Create_then_Get (env : CreateEnv) (s : SessionStore)
    (userAgent ip : string) (now : Time) :
  let expiry := clock_expires env + 720 * Hour in
  match Create env s userAgent ip with
  | None => sessions s = NilMap ∧ ∀ id, Get now s id = None
  | Some (s', x) =>
      sessions s ≠ NilMap ∧
      ExpiresAt x = expiry ∧ UserAgent x = userAgent ∧ IP x = ip ∧
      (Get now s' (ID x) = Some x ↔ now ≤ expiry) ∧
      (expiry < now → Get now s' (ID x) = None) ∧
      (∀ id, id ≠ ID x → Get now s' id = Get now s id)
  end ∧
  match Main.Create env s userAgent ip with
  | None => sessions s = NilMap ∧ ∀ id, Get_main now s id = None
  | Some (s', x) =>
      sessions s ≠ NilMap ∧
      ExpiresAt x = expiry ∧ UserAgent x = userAgent ∧ IP x = ip ∧
      (Get_main now s' (ID x) = Some x ↔ now ≤ expiry) ∧
      (expiry < now → Get_main now s' (ID x) = None) ∧
      (∀ id, id ≠ ID x → Get_main now s' id = Get_main now s id)
  end.
Proof.
  intros expiry. split.
  - destruct (Create env s userAgent ip) as [[s' x]|] eqn:Hrun.
    + by apply Create_Get.
    + apply Create_None in Hrun. split; [done|]. intros id. by apply Get_nil.
  - destruct (Main.Create env s userAgent ip) as [[s' x]|] eqn:Hrun.
    + by apply Main_Create_Get.
    + apply Main_Create_None in Hrun. split; [done|]. intros id.
      rewrite Get_main_eq. by apply Get_nil.
Qed.

End Sessions.

Lemma sessions_cleanup now ok s :
  entries (sessions (cleanupSessions now ok s))
  = filter (λ kv, After now (ExpiresAt kv.2) = false) (entries (sessions s)).
Proof.
  unfold cleanupSessions. case_decide as Hsize.
  - symmetry. apply map_subseteq_size_eq; [apply map_filter_subseteq|].
    rewrite Hsize. done.
  - by rewrite sessions_save.
Qed.

(** X12. The hourly [cleanup] of the session store removes exactly the
    sessions whose expiry lies before the clock reading, keeps every other
    session as it is, and cannot be observed through [Get]: at the clock
    reading of the sweep and at every later one, [Get] (of either package)
    returns for every id what it would have returned without the sweep. *)
Theorem cleanup_invisible_to_Get (now now' : Time) (ok : bool)
    (s : SessionStore) (id : string) :
  now ≤ now' →
  (∀ x, sessions (cleanupSessions now ok s) !! id = Some x
        ↔ sessions s !! id = Some x ∧ now ≤ ExpiresAt x) ∧
  Get now' (cleanupSessions now ok s) id = Get now' s id ∧
  Get_main now' (cleanupSessions now ok s) id = Get_main now' s id.
Proof.
  intros Hle.
  assert (Hlook : ∀ x, sessions (cleanupSessions now ok s) !! id = Some x
                       ↔ sessions s !! id = Some x ∧ now ≤ ExpiresAt x).
  { intros x. rewrite !lookup_entries, sessions_cleanup, map_lookup_filter_Some.
    simpl.
    unfold After. rewrite bool_decide_eq_false. split; intros [? ?]; split; [done|lia|done|lia]. }
  split; [done|].
  assert (Hget : Get now' (cleanupSessions now ok s) id = Get now' s id).
  { rewrite !Get_lookup.
    destruct (sessions (cleanupSessions now ok s) !! id) as [y|] eqn:Hy.
    - destruct (proj1 (Hlook y) eq_refl) as [-> _]. done.
    - destruct (sessions s !! id) as [x|] eqn:Hx; simpl; [|done].
      destruct (decide (now ≤ ExpiresAt x)) as [Hin|Hout].
      + discriminate (proj2 (Hlook x) (conj eq_refl Hin)).
      + unfold After. rewrite bool_decide_eq_true_2; [done|lia]. }
  split; [done|]. by rewrite !Get_main_eq.
Qed.

Lemma cleanup_invisible_to_Get_witness :
  sessions (cleanupSessions 2000 true a_store) !! "s1" = None ∧
  Get 2000 (cleanupSessions 2000 true a_store) "s1" = Get 2000 a_store "s1".
Proof.
  split; [vm_compute; reflexivity|].
  apply (cleanup_invisible_to_Get 2000 2000 true a_store "s1"). lia.
Defined.

(** X13. [Touch] never prolongs a session: it sets [LastUsed] of the session
    it names and nothing else, so for every id and every clock reading [Get]
    (of either package) returns a session after the [Touch] iff it did
    before, the same one up to [LastUsed]; a session ends 720 hours after
    its creation however often it is used.  [Touch] of an id that is not in
    the store changes nothing. *)
Theorem Touch_keeps_expiry (now t : Time) (ok : bool) (s : SessionStore)
    (id id' : string) :
  Get t (Touch now ok s id) id'
  = (λ x, if decide (id' = id) then setLastUsed x now else x) <$> Get t s id' ∧
  Get_main t (Touch now ok s id) id'
  = (λ x, if decide (id' = id) then setLastUsed x now else x) <$> Get_main t s id' ∧
  (sessions s !! id = None → Touch now ok s id = s).
Proof.
  assert (Hget : Get t (Touch now ok s id) id'
    = (λ x, if decide (id' = id) then setLastUsed x now else x) <$> Get t s id').
  { rewrite !Get_lookup. unfold Touch.
    destruct (sessions s !! id) as [x|] eqn:Hx.
    - rewrite sessions_save, !lookup_entries. rewrite lookup_entries in Hx.
      simpl. destruct (decide (id' = id)) as [->|Hne].
      + rewrite lookup_insert_eq, Hx. simpl. by destruct (After t (ExpiresAt x)).
      + rewrite lookup_insert_ne by done.
        destruct (entries (sessions s) !! id') as [y|]; simpl; [|done].
        by destruct (After t (ExpiresAt y)).
    - destruct (sessions s !! id') as [y|] eqn:Hy; simpl; [|done].
      destruct (After t (ExpiresAt y)); simpl; [done|].
      rewrite decide_False; [done|]. congruence. }
  split; [done|]. split; [by rewrite !Get_main_eq|].
  intros Hnone. unfold Touch. by rewrite Hnone.
Qed.

End SessionLife.

(** * Login, session, logout and the middleware together *)

Module AuthTheory.
Import Services Handlers RateTrace Examples SessionLife LimiterTheory LoginTheory.

Local Open Scope Z_scope.

Lemma list_ascii_of_append (a b : string) :
  list_ascii_of_string (a +:+ b) = list_ascii_of_string a ++ list_ascii_of_string b.
Proof. induction a as [|c a IH]; simpl; [done | by rewrite IH]. Qed.



Lemma login_key_other ip : ip ≠ login_key ip.
Proof.
  unfold login_key. intros Heq. apply (f_equal list_ascii_of_string) in Heq.
  rewrite list_ascii_of_append in Heq. apply (f_equal length) in Heq.
  rewrite length_app in Heq. simpl in Heq. lia.
Qed.

Lemma Allow_answer_stamps now rl rl' key limit window :
  stamps rl' key = stamps rl key →
  (Allow now rl' key limit window).2 = (Allow now rl key limit window).2.
Proof. intros Heq. by rewrite !Allow_answer, Heq. Qed.

Lemma stamps_Allow_other now rl k l w key :
  key ≠ k → stamps (Allow now rl k l w).1 key = stamps rl key.
Proof.
  intros Hne. rewrite stamps_Allow.
  by rewrite (bool_decide_eq_false_2 (key = k)), andb_false_r.
Qed.

Section Auth.
Context `{GoStdlib} `{GoHttp}.

(** ** What the handlers do to the service *)

Lemma HandleLogin_limiter env a r :
  Limiter (HandleLogin env a r).1
  = if decide (Method r = "POST")
    then (Allow (clock_allow env) (Limiter a) (login_key (GetClientIP r)) 5 Minute).1
    else Limiter a.
Proof.
  unfold HandleLogin, login_key. case_decide; [|done].
  destruct (Allow _ _ _ _ _) as [rl ok]. simpl. destruct ok; [|done].
  destruct (json_Decode_LoginRequest (Body r)); [|done].
  case_decide; [|done]. by destruct (Create _ _ _ _) as [[ss x]|].
Qed.

Lemma HandleLogin_429 env a r :
  status (HandleLogin env a r).2 = Some StatusTooManyRequests
  ↔ Method r = "POST" ∧
    (Allow (clock_allow env) (Limiter a) (login_key (GetClientIP r)) 5 Minute).2 = false.
Proof.
  unfold HandleLogin, login_key. case_decide as Hm; [|by split; [|intros [? ?]]].
  destruct (Allow _ _ _ _ _) as [rl ok]. simpl. destruct ok.
  - destruct (json_Decode_LoginRequest (Body r));
      [case_decide; [destruct (Create _ _ _ _) as [[ss x]|]|]|];
      simpl; split; try done; by intros [? ?].
  - simpl. done.
Qed.

Lemma HandleLogin_PIN env a r : PIN (HandleLogin env a r).1 = PIN a.
Proof.
  unfold HandleLogin. case_decide; [|done].
  destruct (Allow _ _ _ _ _) as [rl ok]. simpl. destruct ok; [|done].
  destruct (json_Decode_LoginRequest (Body r)); [|done].
  case_decide; [|done]. by destruct (Create _ _ _ _) as [[ss x]|].
Qed.

(** A login that is answered 200 has created a session and set its
    cookie. *)
Lemma HandleLogin_OK env a r :
  status (HandleLogin env a r).2 = Some StatusOK →
  ∃ ss x resp,
    Create (create_env env) (Sessions a) (Header_Get r "User-Agent") (GetClientIP r)
    = Some (ss, x) ∧
    Sessions (HandleLogin env a r).1 = ss ∧
    (HandleLogin env a r).2 = Some resp ∧
    SetCookie resp = Some (SetSessionCookie (ID x)).
Proof.
  unfold HandleLogin. case_decide; [|done].
  destruct (Allow _ _ _ _ _) as [rl ok]. simpl. destruct ok; [|done].
  destruct (json_Decode_LoginRequest (Body r)); [|done].
  case_decide; [|done]. destruct (Create _ _ _ _) as [[ss x]|]; [|done].
  intros _. by eexists ss, x, _.
Qed.

Lemma Protect_limiter env a r :
  Limiter (Protect env a r).1
  = (Allow (clock_limit env) (Limiter a) (GetClientIP r) 100 Minute).1.
Proof.
  unfold Protect. destruct (Allow _ _ _ _ _) as [rl ok]. simpl.
  destruct ok; simpl; [|done]. destruct (IsBot _); [done|].
  destruct (Get _ _ _); [done|]. by case_decide.
Qed.

Lemma Protect_429 env a r :
  (Protect env a r).2 = Answer StatusTooManyRequests "Too many requests" ""
  ↔ (Allow (clock_limit env) (Limiter a) (GetClientIP r) 100 Minute).2 = false.
Proof.
  unfold Protect. destruct (Allow _ _ _ _ _) as [rl ok]. simpl.
  destruct ok; simpl; [|done]. destruct (IsBot _); [done|].
  destruct (Get _ _ _); [done|]. by case_decide.
Qed.

Lemma Protect_CallNext env a r :
  (Protect env a r).2 = CallNext
  ↔ (Allow (clock_limit env) (Limiter a) (GetClientIP r) 100 Minute).2 = true ∧
    IsBot (Header_Get r "User-Agent") = false ∧
    is_Some (Get (clock_get (session_env env)) (Sessions a) (GetSessionID r)).
Proof.
  unfold Protect. destruct (Allow _ _ _ _ _) as [rl ok]. simpl.
  destruct ok; simpl; [|by split; [|intros [? ?]]].
  destruct (IsBot _); [by split; [|intros (? & ? & ?)]|]. simpl.
  destruct (Get _ _ _) as [x|].
  - split; [eauto|done].
  - case_decide; (split; [done|]); by intros (_ & _ & [? ?]).
Qed.

Lemma HandleSession_status env a r :
  Status (HandleSession env a r).2
  = match Get (clock_get env) (Sessions a) (GetSessionID r) with
    | Some _ => StatusOK
    | None => StatusUnauthorized
    end.
Proof. unfold HandleSession. by destruct (Get _ _ _). Qed.

(** ** Login opens a session *)

(** X14. A login that is answered 200 has set the cookie [vb_session], with
    a [Max-Age] of the 2592000 seconds that are 720 hours.  For every later
    request that carries this cookie: [HandleSession] answers 200 while the
    clock is not past the 720 hours after the login, the last instant
    included, and 401 afterwards; and [Protect] lets the request through to
    the protected handler in that time whenever the address is within its
    budget and the user agent is not taken for a bot. *)
Theorem login_opens_session (env : LoginEnv) (a : AuthService) (r : Request) :
  status (HandleLogin env a r).2 = Some StatusOK →
  let a' := (HandleLogin env a r).1 in
  let expiry := clock_expires (create_env env) + 720 * Hour in
  ∃ resp c, (HandleLogin env a r).2 = Some resp ∧ SetCookie resp = Some c ∧
       Name c = "vb_session" ∧ MaxAge c = 2592000 ∧ MaxAge c * Second = 720 * Hour ∧
       ∀ r2, Request_Cookie r2 "vb_session" = Some (Value c) →
         (∀ env2, clock_get env2 ≤ expiry →
                  Status (HandleSession env2 a' r2).2 = StatusOK) ∧
         (∀ env2, expiry < clock_get env2 →
                  Status (HandleSession env2 a' r2).2 = StatusUnauthorized) ∧
         (∀ penv, clock_get (session_env penv) ≤ expiry →
                  (Allow (clock_limit penv) (Limiter a') (GetClientIP r2) 100 Minute).2 = true →
                  IsBot (Header_Get r2 "User-Agent") = false →
                  (Protect penv a' r2).2 = CallNext).
Proof.
  intros Hok a' expiry.
  destruct (HandleLogin_OK env a r Hok) as (ss & x & resp & Hcreate & Hss & Hresp & Hck).
  exists resp. eexists. split; [exact Hresp|]. split; [exact Hck|].
  split; [done|]. split; [done|]. split; [reflexivity|].
  intros r2 Hr2.
  assert (Hid : GetSessionID r2 = ID x) by (unfold GetSessionID; by rewrite Hr2).
  split; [|split].
  - intros env2 Hin. rewrite HandleSession_status. fold a'. unfold a'.
    rewrite Hss, Hid.
    destruct (Create_Get _ _ _ _ _ _ (clock_get env2) Hcreate)
      as (_ & _ & _ & _ & Hget & _).
    by rewrite (proj2 Hget Hin).
  - intros env2 Hout. rewrite HandleSession_status. fold a'. unfold a'.
    rewrite Hss, Hid.
    destruct (Create_Get _ _ _ _ _ _ (clock_get env2) Hcreate)
      as (_ & _ & _ & _ & _ & Hnone & _).
    by rewrite (Hnone Hout).
  - intros penv Hin Hbudget Hbot. apply Protect_CallNext.
    split; [done|]. split; [done|]. unfold a'. rewrite Hss, Hid.
    destruct (Create_Get _ _ _ _ _ _ (clock_get (session_env penv)) Hcreate)
      as (_ & _ & _ & _ & Hget & _).
    rewrite (proj2 Hget Hin). eauto.
Qed.

(** ** Logout closes it *)

(** X15. [HandleLogout] with a session cookie removes that session, and no
    other, and clears the cookie.  From then on every request that carries
    the cookie is answered 401 by [HandleSession] and is never let through
    by [Protect], at whatever clock reading and whatever the budget. *)
Theorem logout_revokes (ok : bool) (a : AuthService) (r : Request) :
  GetSessionID r ≠ "" →
  let a' := (HandleLogout ok a r).1 in
  SetCookie (HandleLogout ok a r).2 = Some ClearSessionCookie ∧
  (∀ id, id ≠ GetSessionID r →
         sessions (Sessions a') !! id = sessions (Sessions a) !! id) ∧
  (∀ r2 env2, GetSessionID r2 = GetSessionID r →
              Status (HandleSession env2 a' r2).2 = StatusUnauthorized) ∧
  (∀ r2 penv, GetSessionID r2 = GetSessionID r → (Protect penv a' r2).2 ≠ CallNext).
Proof.
  intros Hid a'.
  assert (Hss : entries (sessions (Sessions a'))
                = delete (GetSessionID r) (entries (sessions (Sessions a)))).
  { unfold a', HandleLogout. simpl. rewrite decide_False by done. simpl.
    unfold Delete. rewrite sessions_save. simpl.
    destruct (sessions (Sessions a)); simpl; [by rewrite delete_empty | done]. }
  assert (Hget : ∀ t, Get t (Sessions a') (GetSessionID r) = None).
  { intros t. by rewrite Get_lookup, lookup_entries, Hss, lookup_delete_eq. }
  split; [done|]. split; [|split].
  - intros id Hne. by rewrite !lookup_entries, Hss, lookup_delete_ne.
  - intros r2 env2 Hr2. by rewrite HandleSession_status, Hr2, Hget.
  - intros r2 penv Hr2 Hnext. apply Protect_CallNext in Hnext as (_ & _ & [x Hx]).
    rewrite Hr2, Hget in Hx. done.
Qed.

(** ** The budgets *)

(** X16. The budget of login attempts and the budget that [Protect] takes
    from are kept under different keys of the one limiter, [ip:login] and
    [ip], so for one address they do not touch: a request that went through
    [Protect] never changes whether a login attempt of the address is
    answered 429, and a login attempt never changes whether [Protect]
    answers 429. *)
Theorem login_budget_is_separate (env : LoginEnv) (penv : ProtectEnv)
    (a : AuthService) (r r2 : Request) :
  GetClientIP r2 = GetClientIP r →
  (status (HandleLogin env (Protect penv a r2).1 r).2 = Some StatusTooManyRequests
   ↔ status (HandleLogin env a r).2 = Some StatusTooManyRequests) ∧
  ((Protect penv (HandleLogin env a r).1 r2).2
   = Answer StatusTooManyRequests "Too many requests" ""
   ↔ (Protect penv a r2).2 = Answer StatusTooManyRequests "Too many requests" "").
Proof.
  intros Hip. split.
  - rewrite !HandleLogin_429, Protect_limiter.
    rewrite (Allow_answer_stamps _ (Limiter a)); [done|].
    apply stamps_Allow_other. rewrite Hip. intros Heq.
    by apply (login_key_other (GetClientIP r)).
  - rewrite !Protect_429, HandleLogin_limiter.
    case_decide; [|done].
    rewrite (Allow_answer_stamps _ (Limiter a)); [done|].
    apply stamps_Allow_other. rewrite Hip. apply login_key_other.
Qed.



End Auth.

Lemma login_opens_session_witness :
  Status (@HandleSession exampleStdlib exampleHttp (at_clock (720 * Hour + Second))
            logged_in (with_cookie "00")).2 = StatusOK ∧
  Status (@HandleSession exampleStdlib exampleHttp (at_clock (720 * Hour + 2 * Second))
            logged_in (with_cookie "00")).2 = StatusUnauthorized.
Proof.
  destruct (@login_opens_session exampleStdlib exampleHttp (at_second 1) service
              (request "10.0.0.1" "274683"))
    as (resp & c & Hresp & Hc & _ & _ & _ & Hall); [vm_compute; reflexivity|].
  vm_compute in Hresp. injection Hresp as <-.
  vm_compute in Hc. injection Hc as <-.
  destruct (Hall (with_cookie "00")) as (Hin & Hout & _); [vm_compute; reflexivity|].
  split.
  - apply (Hin (at_clock (720 * Hour + Second))). vm_compute. discriminate.
  - apply (Hout (at_clock (720 * Hour + 2 * Second))). vm_compute. reflexivity.
Defined.

Lemma logout_revokes_witness :
  Status (@HandleSession exampleStdlib exampleHttp (at_clock (2 * Second)) logged_in
            (with_cookie "00")).2 = StatusOK ∧
  Status (@HandleSession exampleStdlib exampleHttp (at_clock (2 * Second))
            (@HandleLogout exampleHttp true logged_in (with_cookie "00")).1
            (with_cookie "00")).2 = StatusUnauthorized.
Proof.
  split; [vm_compute; reflexivity|].
  destruct (@logout_revokes exampleStdlib exampleHttp true logged_in (with_cookie "00"))
    as (_ & _ & Hsession & _); [vm_compute; discriminate|].
  apply Hsession. reflexivity.
Defined.

Lemma login_budget_is_separate_witness :
  status (@HandleLogin exampleStdlib (at_second 2)
            (@Protect exampleStdlib exampleHttp
               {| clock_limit := Second; session_env := at_clock Second |}
               service (request "10.0.0.1" "")).1
            (request "10.0.0.1" "000000")).2 = Some StatusTooManyRequests
  ↔ status (@HandleLogin exampleStdlib (at_second 2) service
              (request "10.0.0.1" "000000")).2 = Some StatusTooManyRequests.
Proof.
  apply (@login_budget_is_separate exampleStdlib exampleHttp). reflexivity.
Defined.


End AuthTheory.

(** * The scout store: failed writes, archives, file names *)

Module ArchiveTheory.
Import Stores Examples StoreTheory.

Local Open Scope Z_scope.

(** X18. A failed write does not undo an update.  When [ioutil.WriteFile]
    fails in [UpdateState], the POST branch of [HandleAPI] answers 500 and
    broadcasts nothing, the file keeps what it held, but the store has
    taken the new document in memory: the next GET is answered with the
    payload of the failed POST under the version after the previous one. *)
Theorem failed_save_is_served (env env' : StoreEnv) (s : Scout.ScoutStore)
    (prev d : Scout.ScoutState) :
  Scout.state s = Some prev → current_write_ok env = false →
  ∃ s',
    Scout.HandleAPI env s "POST" (Some d)
    = Some (s', Scout.ApiError 500 "Failed to save state") ∧
    Scout.disk s' = Scout.disk s ∧
    Scout.HandleAPI env' s' "GET" None
    = Some (s', Scout.ApiState
                  (Scout.stamp d (add64 (Scout.Version prev) 1) (utc_rfc3339 env))
                  None).
Proof.
  intros Hprev Hfail.
  destruct (Scout_UpdateState_spec env s d prev Hprev)
    as (s' & err & d' & Hrun & Hst & _ & Hd' & _ & Hbad).
  destruct (Hbad Hfail) as [Herr Hdisk].
  exists s'. unfold Scout.HandleAPI. rewrite decide_False by done.
  rewrite decide_True by done. rewrite Hrun. simpl.
  destruct err as [e|]; [|done]. split; [done|]. split; [done|].
  unfold Scout.GetState. rewrite Hst. by rewrite Hd'.
Qed.

Lemma failed_save_is_served_witness :
  ∃ s' doc,
    Scout.HandleAPI write_fails (scout_store 7 "Final") "POST" (Some (a_scout 0 "Final 2"))
    = Some (s', Scout.ApiError 500 "Failed to save state") ∧
    Scout.HandleAPI writes_ok s' "GET" None = Some (s', Scout.ApiState doc None) ∧
    Scout.Version doc = 8 ∧ Scout.MatchName doc = "Final 2".
Proof.
  destruct (failed_save_is_served write_fails writes_ok (scout_store 7 "Final")
              (a_scout 7 "Final") (a_scout 0 "Final 2") eq_refl eq_refl)
    as (s' & Hpost & _ & Hget).
  eexists s', _. split; [exact Hpost|]. split; [exact Hget|].
  split; vm_compute; reflexivity.
Defined.

(** ** The characters of a file name *)

Lemma sanitizeChar_clean (c : ascii) : Scout.sanitizeChar c ∉ Scout.invalid_bytes.
Proof.
  destruct c as [b0 b1 b2 b3 b4 b5 b6 b7].
  destruct b0, b1, b2, b3, b4, b5, b6, b7;
    apply (bool_decide_unpack _); vm_compute; exact I.
Qed.

Lemma sanitizeChar_keeps (c : ascii) :
  c ∉ Scout.invalid_bytes → Scout.sanitizeChar c = c.
Proof.
  destruct c as [b0 b1 b2 b3 b4 b5 b6 b7].
  destruct b0, b1, b2, b3, b4, b5, b6, b7; intros Hc; try reflexivity;
    exfalso; apply Hc; apply (bool_decide_unpack _); vm_compute; exact I.
Qed.

(** X19. [sanitizeFilename] returns on every name.  The result has the
    length of the name; each of the ten characters slash, backslash, colon,
    asterisk, question mark, double quote, the angle brackets, bar and space
    has become an underscore and every other byte is kept, so none of the
    ten occurs in the result; a name without them is returned as it is, and
    sanitizing twice is sanitizing once. *)
Theorem sanitizeFilename_clean (name : string) :
  ∃ out,
    Scout.sanitizeFilename name = Some out ∧
    list_ascii_of_string out = Scout.sanitizeChar <$> list_ascii_of_string name ∧
    String.length out = String.length name ∧
    (∀ c, c ∈ Scout.invalid_bytes → c ∉ list_ascii_of_string out) ∧
    (Forall (λ c, c ∉ Scout.invalid_bytes) (list_ascii_of_string name) → out = name) ∧
    Scout.sanitizeFilename out = Some out.
Proof.
  eexists. split; [apply sanitizeFilename_spec|].
  rewrite list_ascii_of_string_of_list_ascii.
  split; [done|]. split; [apply length_string_of_map|]. split; [|split].
  - intros c Hc Hin. apply list_elem_of_In, in_map_iff in Hin as (c0 & <- & _).
    by apply (sanitizeChar_clean c0).
  - intros Hclean. rewrite <- (string_of_list_ascii_of_string name) at 2. f_equal.
    induction Hclean as [|c l Hc _ IH]; simpl; [done|].
    by rewrite IH, sanitizeChar_keeps.
  - rewrite sanitizeFilename_spec, list_ascii_of_string_of_list_ascii. do 2 f_equal.
    rewrite map_map. apply map_ext. intros c.
    apply sanitizeChar_keeps, sanitizeChar_clean.
Qed.

(** ** [replaceAll] beyond single bytes *)

Lemma replaceAll_loop_grows (d : ascii) (old rest : list ascii) :
  old ++ rest ≠ [] →
  ∀ fuel i,
    Scout.replaceAll_loop fuel i (replicate i d ++ old ++ rest) old (d :: old) = None.
Proof.
  intros Hne. induction fuel as [|fuel IH]; intros i.
  - simpl. rewrite decide_True; [done|].
    rewrite length_app, length_replicate.
    destruct (old ++ rest); [done | simpl; lia].
  - cbn [Scout.replaceAll_loop].
    assert (Hlen : (i < length (replicate i d ++ old ++ rest))%nat).
    { rewrite length_app, length_replicate.
      destruct (old ++ rest); [done | simpl; lia]. }
    rewrite decide_True by done.
    rewrite decide_True
      by (rewrite !length_app, length_replicate; lia).
    assert (Hdrop : drop i (replicate i d ++ old ++ rest) = old ++ rest).
    { rewrite drop_app_length'; [done | by rewrite length_replicate]. }
    rewrite Hdrop, take_app_length, decide_True by done.
    unfold Scout.splice.
    rewrite take_app_length' by (by rewrite length_replicate).
    rewrite <- drop_drop, Hdrop, drop_app_length.
    replace (replicate i d ++ (d :: old) ++ rest)
      with (replicate (S i) d ++ old ++ rest); [apply IH|].
    rewrite replicate_S_end, <- app_assoc. done.
Qed.

(** X20. The loop of [replaceAll] reads [len(s)] again after every
    replacement and steps one byte at a time, so it does not end when a
    replacement puts the searched text back one byte to the right: for a
    text that begins with [old] and the replacement [old] with one byte in
    front of it, no number of iterations lets [replaceAll] return.  (The
    calls [sanitizeFilename] makes are not of this kind.) *)
Theorem replaceAll_diverges (d : ascii) (old rest : string) (fuel : nat) :
  old +:+ rest ≠ "" →
  Scout.replaceAll fuel (old +:+ rest) old (String d old) = None.
Proof.
  intros Hne. unfold Scout.replaceAll.
  assert (Happ : list_ascii_of_string (old +:+ rest)
                 = list_ascii_of_string old ++ list_ascii_of_string rest).
  { clear. induction old as [|c old IH]; simpl; [done | by rewrite IH]. }
  assert (Hne' : list_ascii_of_string old ++ list_ascii_of_string rest ≠ []).
  { rewrite <- Happ. intros Hnil. apply Hne.
    rewrite <- (string_of_list_ascii_of_string (old +:+ rest)). by rewrite Hnil. }
  pose proof (replaceAll_loop_grows d _ _ Hne' fuel 0%nat) as Hloop.
  simpl in Hloop. rewrite Happ.
  change (list_ascii_of_string (String d old)) with (d :: list_ascii_of_string old).
  by rewrite Hloop.
Qed.

Lemma replaceAll_diverges_witness :
  Scout.replaceAll 1000 "a" "a" "ba" = None.
Proof.
  apply (replaceAll_diverges "b" "a" "" 1000). discriminate.
Defined.

Section Archive.
Context `{GoStdlib}.

(** ** Archiving a match that has a name *)

(** X21. [ArchiveMatch] on a document with a match name.  If the archive
    file cannot be written the error is returned and nothing has changed.
    Otherwise the document is written, as it was, to the file
    [<dataDir>/archive/<MatchDate>_<sanitized MatchName>.json], replacing
    what that file held, and the store holds a new document with the
    version 1, no match name and no players, whatever the version was
    before; then the current file is written, and if that fails the error
    is returned although the match has been archived and the store
    reset. *)
Theorem archive_named_match (env : StoreEnv) (s : Scout.ScoutStore)
    (cur : Scout.ScoutState) :
  Scout.state s = Some cur → Scout.MatchName cur ≠ "" →
  let path :=
    filepath_Join
      [Scout.dataDir s; "archive";
       Scout.MatchDate cur +:+ "_"
       +:+ string_of_list_ascii
             (Scout.sanitizeChar <$> list_ascii_of_string (Scout.MatchName cur))
       +:+ ".json"] in
  (archive_write_ok env = false →
   Scout.ArchiveMatch env s = Some (s, Some (WriteFileError path))) ∧
  (archive_write_ok env = true →
   ∃ s' err,
     Scout.ArchiveMatch env s = Some (s', err) ∧
     Scout.state s' = Some (Scout.freshState env) ∧
     Scout.GetVersion s' = 1 ∧
     (current_write_ok env = true →
      err = None ∧
      Scout.disk s' = <[Scout.currentFile s := Some (Scout.freshState env)]>
                        (<[path := Some cur]> (Scout.disk s))) ∧
     (current_write_ok env = false →
      err = Some (WriteFileError (Scout.currentFile s)) ∧
      Scout.disk s' = <[path := Some cur]> (Scout.disk s))).
Proof.
  intros Hst Hname path. unfold Scout.ArchiveMatch. rewrite Hst.
  rewrite decide_False by done. rewrite sanitizeFilename_spec. simpl.
  fold path. split; intros Hw; rewrite Hw; [done|].
  unfold Scout.save. destruct (current_write_ok env) eqn:Hc; simpl.
  - eexists _, _. split; [done|]. simpl. split; [done|]. split; [done|].
    split; [done | intros; done].
  - eexists _, _. split; [done|]. simpl. split; [done|]. split; [done|].
    split; [intros; done | done].
Qed.

(** ** A store always holds a document *)

Lemma ArchiveMatch_state env s s' err :
  Scout.ArchiveMatch env s = Some (s', err) →
  is_Some (Scout.state s) → is_Some (Scout.state s').
Proof.
  unfold Scout.ArchiveMatch. intros Hrun [cur Hcur]. rewrite Hcur in Hrun.
  case_decide; [injection Hrun as <- <-; eauto|].
  rewrite sanitizeFilename_spec in Hrun. simpl in Hrun.
  destruct (archive_write_ok env); [|injection Hrun as <- <-; eauto].
  unfold Scout.save in Hrun.
  destruct (current_write_ok env); injection Hrun as <- <-; simpl; eauto.
Qed.

Lemma run_ops_total ops : ∀ s,
  is_Some (Scout.state s) →
  ∃ s', Scout.run_ops s ops = Some s' ∧ is_Some (Scout.state s').
Proof.
  induction ops as [|[env d|env] ops IH]; intros s Hs; simpl; [eauto|..].
  - destruct Hs as [prev Hprev].
    destruct (Scout_UpdateState_spec env s d prev Hprev)
      as (s1 & err & d1 & Hrun & Hst & _).
    rewrite Hrun. simpl. apply IH. eauto.
  - destruct (ArchiveMatch_total env s) as [[s1 err] Hrun].
    rewrite Hrun. simpl. apply IH. by eapply ArchiveMatch_state.
Qed.

(** X22. [NewScoutStore] returns a store unless [os.MkdirAll] fails, and the
    store it returns holds a document: the one of the current file, or, when
    that file is missing, a new one with the version 1.  Every call of
    [UpdateState] and [ArchiveMatch] keeps a document in the store, whether
    its writes succeed or fail; so on a store made by [NewScoutStore] no
    sequence of these calls runs into the nil document that [UpdateState]
    would dereference, and each of them returns. *)
Theorem scout_store_never_nil (mkdir_ok mkdir_archive_ok : bool) (env : StoreEnv)
    (dir : string) (files : gmap string (option Scout.ScoutState)) :
  (is_Some (Scout.NewScoutStore mkdir_ok mkdir_archive_ok env dir files)
   ↔ mkdir_ok = true ∧ mkdir_archive_ok = true) ∧
  ∀ s, Scout.NewScoutStore mkdir_ok mkdir_archive_ok env dir files = Some s →
    (files !! filepath_Join [dir; "scout-current.json"] = None →
     Scout.state s = Some (Scout.freshState env)) ∧
    ∀ ops, ∃ s', Scout.run_ops s ops = Some s' ∧ is_Some (Scout.state s').
Proof.
  unfold Scout.NewScoutStore, Scout.load. simpl.
  destruct mkdir_ok, mkdir_archive_ok; simpl;
    try (split; [split; [by intros [? ?] | by intros [? ?]] | done]).
  destruct (files !! filepath_Join [dir; "scout-current.json"]) as [doc|] eqn:Hfile;
    simpl.
  - split; [split; eauto|]. intros s [= <-]. split; [done|].
    intros ops. apply run_ops_total. simpl. eauto.
  - split; [split; eauto|]. intros s [= <-]. split; [done|].
    intros ops. apply run_ops_total. simpl. eauto.
Qed.

End Archive.

Lemma archive_named_match_witness :
  ∃ s',
    @Scout.ArchiveMatch exampleStdlib writes_ok (scout_store 7 "Cup: Final")
    = Some (s', None) ∧
    Scout.GetVersion s' = 1 ∧
    Scout.disk s' !! "data/archive/2024-03-15_Cup__Final.json"
    = Some (Some (a_scout 7 "Cup: Final")).
Proof.
  destruct (proj2 (@archive_named_match exampleStdlib writes_ok
                     (scout_store 7 "Cup: Final") (a_scout 7 "Cup: Final")
                     eq_refl ltac:(discriminate)) eq_refl)
    as (s' & err & Hrun & _ & Hv & Hok & _).
  destruct (Hok eq_refl) as [-> Hdisk].
  exists s'. split; [exact Hrun|]. split; [exact Hv|].
  rewrite Hdisk. vm_compute. reflexivity.
Defined.

Lemma scout_store_never_nil_witness :
  ∃ s s',
    @Scout.NewScoutStore exampleStdlib true true writes_ok "data" ∅ = Some s ∧
    @Scout.run_ops exampleStdlib s
      [Scout.OpUpdate write_fails (a_scout 0 "Final"); Scout.OpArchive writes_ok;
       Scout.OpArchive writes_ok; Scout.OpUpdate writes_ok (a_scout 0 "")]
    = Some s' ∧
    is_Some (Scout.state s').
Proof.
  eexists. 
  destruct (@scout_store_never_nil exampleStdlib true true writes_ok "data" ∅)
    as [_ Hall].
  destruct (Hall _ eq_refl) as [_ Hops].
  destruct (Hops [Scout.OpUpdate write_fails (a_scout 0 "Final");
                  Scout.OpArchive writes_ok; Scout.OpArchive writes_ok;
                  Scout.OpUpdate writes_ok (a_scout 0 "")]) as (s' & Hrun & Hst).
  exists s'. split; [reflexivity|]. split; [exact Hrun | exact Hst].
Defined.

End ArchiveTheory.

(** * The address prefix of the device hash *)

Module PrefixTheory.
Import Services Handlers Main.

Lemma splitDots_nonempty s : splitDots s ≠ [].
Proof.
  destruct s as [|c s]; simpl; [done|]. case_decide; [done|].
  by destruct (splitDots s).
Qed.

Lemma joinDots_cons w ws :
  ws ≠ [] → joinDots (w :: ws) = w +:+ "." +:+ joinDots ws.
Proof. by destruct ws. Qed.

(** [strings.Join(strings.Split(s, "."), ".")] is [s]. *)
Lemma joinDots_splitDots s : joinDots (splitDots s) = s.
Proof.
  induction s as [|c s IH]; [done|]. simpl. case_decide as Hc.
  - subst c. rewrite joinDots_cons by apply splitDots_nonempty. by rewrite IH.
  - pose proof (splitDots_nonempty s) as Hne.
    destruct (splitDots s) as [|w [|w' ws]]; [done| |].
    + simpl in *. by rewrite IH.
    + rewrite joinDots_cons by done. rewrite joinDots_cons in IH by done.
      rewrite <- IH. done.
Qed.

Lemma length_splitDots s : length (splitDots s) = S (dots s).
Proof.
  unfold dots. induction s as [|c s IH]; [done|]. simpl. case_decide as Hc.
  - subst c. rewrite filter_cons_True by done. simpl. by rewrite IH.
  - rewrite filter_cons_False by done. rewrite <- IH.
    pose proof (splitDots_nonempty s). by destruct (splitDots s).
Qed.

Lemma splitDots_app a rest :
  "."%char ∉ list_ascii_of_string a →
  splitDots (a +:+ "." +:+ rest) = a :: splitDots rest.
Proof.
  induction a as [|c a IH]; intros Hno; [done|]. simpl in *.
  apply not_elem_of_cons in Hno as [Hc Hno].
  rewrite decide_False by done. by rewrite (IH Hno).
Qed.

Lemma has_dot_app a rest :
  existsb (λ c, bool_decide (c = "."%char)) (list_ascii_of_string (a +:+ "." +:+ rest))
  = true.
Proof.
  induction a as [|c a IH]; simpl; [done|]. rewrite IH. by destruct (bool_decide _).
Qed.

Section Prefix.
Context `{GoStdlib}.

(** X25. [getIPPrefix] of the monolithic main package returns the text
    before the third dot: an address [a.b.c.rest] gives [a.b.c], and a text
    with fewer than three dots is returned as it is (an IPv6 address
    without dots among them).  So the device hash of a session made by the
    main package is taken from the user agent and the first three octets,
    the same for every address of a /24 network, whereas the [services]
    package, whose [getIPPrefix] returns its argument, hashes the whole
    address.  ([Create] returns no session on a store whose map is nil: it
    panics.) *)
Theorem getIPPrefix_first_three :
  (∀ a b c rest,
     "."%char ∉ list_ascii_of_string a → "."%char ∉ list_ascii_of_string b →
     "."%char ∉ list_ascii_of_string c →
     getIPPrefix (a +:+ "." +:+ b +:+ "." +:+ c +:+ "." +:+ rest)
     = a +:+ "." +:+ b +:+ "." +:+ c) ∧
  (∀ ip, (dots ip < 3)%nat → getIPPrefix ip = ip) ∧
  (∀ env s userAgent a b c d,
     "."%char ∉ list_ascii_of_string a → "."%char ∉ list_ascii_of_string b →
     "."%char ∉ list_ascii_of_string c →
     let ip := a +:+ "." +:+ b +:+ "." +:+ c +:+ "." +:+ d in
     match Main.Create env s userAgent ip with
     | Some (_, x) =>
         DeviceHash x = hashString (userAgent +:+ a +:+ "." +:+ b +:+ "." +:+ c)
     | None => sessions s = NilMap
     end ∧
     match Services.Create env s userAgent ip with
     | Some (_, x) => DeviceHash x = hashString (userAgent +:+ ip)
     | None => sessions s = NilMap
     end).
Proof.
  assert (Hthree : ∀ a b c rest,
    "."%char ∉ list_ascii_of_string a → "."%char ∉ list_ascii_of_string b →
    "."%char ∉ list_ascii_of_string c →
    getIPPrefix (a +:+ "." +:+ b +:+ "." +:+ c +:+ "." +:+ rest)
    = a +:+ "." +:+ b +:+ "." +:+ c).
  { intros a b c rest Ha Hb Hc. unfold getIPPrefix.
    rewrite has_dot_app, !splitDots_app by done.
    simpl. done. }
  split; [exact Hthree|]. split.
  - intros ip Hdots. unfold getIPPrefix.
    destruct (existsb _ _); [|done]. case_decide as Hlen; [|done].
    rewrite take_ge by (rewrite length_splitDots; lia).
    apply joinDots_splitDots.
  - intros env s userAgent a b c d Ha Hb Hc ip.
    unfold Main.Create, Services.Create.
    destruct (sessions s); simpl; [done|]. split; [|done].
    unfold ip. by rewrite Hthree.
Qed.

End Prefix.

Lemma getIPPrefix_first_three_witness :
  getIPPrefix "192.168.1.77" = "192.168.1" ∧ getIPPrefix "2001:db8::1" = "2001:db8::1".
Proof.
  destruct (@getIPPrefix_first_three Examples.exampleStdlib) as (Hthree & Hfew & _).
  split.
  - apply (Hthree "192" "168" "1" "77"); apply (bool_decide_unpack _); vm_compute; exact I.
  - apply Hfew. vm_compute. lia.
Defined.

End PrefixTheory.

(** * What [ParseDVV] takes from a page *)

Module ParseTheory.
Import Stores BotTheory.

Lemma dateHere_Some s d m y :
  dateHere s = Some (d, m, y) ↔ date_at [] d m y s.
Proof.
  unfold dateHere, date_at. split.
  - destruct s as [|d1 [|d2 [|p1 [|m1 [|m2 [|p2 [|y1 [|y2 [|y3 [|y4 post]]]]]]]]]];
      try done.
    destruct (forallb _ _ && _ && _) eqn:Hok; [|done]. intros [= <- <- <-].
    apply andb_true_iff in Hok as [Hok ->%bool_decide_eq_true].
    apply andb_true_iff in Hok as [Hok ->%bool_decide_eq_true].
    exists post. split; [done|]. split; [done|]. split; [done|]. split; [done|].
    apply Forall_forall. intros c Hc.
    apply (proj1 (forallb_forall isDigit _) Hok c). by apply list_elem_of_In.
  - intros (post & -> & Hd & Hm & Hy & Hdig).
    destruct d as [|d1 [|d2 [|]]]; try done.
    destruct m as [|m1 [|m2 [|]]]; try done.
    destruct y as [|y1 [|y2 [|y3 [|y4 [|]]]]]; try done. simpl.
    simpl in Hdig. repeat (apply Forall_cons in Hdig as [-> Hdig]). done.
Qed.

Lemma date_at_cons c pre d m y s :
  date_at (c :: pre) d m y (c :: s) ↔ date_at pre d m y s.
Proof.
  unfold date_at. split; intros (post & Hs & ?); exists post; split; try done.
  - simpl in Hs. by injection Hs.
  - simpl. by rewrite Hs.
Qed.

Lemma date_at_cons_inv pre d m y c s :
  date_at pre d m y (c :: s) →
  pre = [] ∨ ∃ pre', pre = c :: pre' ∧ date_at pre' d m y s.
Proof.
  destruct pre as [|c' pre']; [by left|]. intros Hd. right.
  assert (c' = c) as ->.
  { destruct Hd as (post & Hs & _). simpl in Hs. by injection Hs. }
  exists pre'. split; [done|]. by apply date_at_cons in Hd.
Qed.

(** The dates a position holds are one. *)
Lemma date_at_unique pre d m y d' m' y' s :
  date_at pre d m y s → date_at pre d' m' y' s → d = d' ∧ m = m' ∧ y = y'.
Proof.
  intros (post & Hs & Hd & Hm & Hy & _) (post' & Hs' & Hd' & Hm' & Hy' & _).
  rewrite Hs in Hs'. apply app_inv_head in Hs'.
  destruct d as [|d1 [|d2 [|]]]; try done.
  destruct d' as [|e1 [|e2 [|]]]; try done.
  destruct m as [|m1 [|m2 [|]]]; try done.
  destruct m' as [|n1 [|n2 [|]]]; try done.
  destruct y as [|y1 [|y2 [|y3 [|y4 [|]]]]]; try done.
  destruct y' as [|z1 [|z2 [|z3 [|z4 [|]]]]]; try done.
  simpl in Hs'. by simplify_eq.
Qed.

(** What [findDate] finds: the date at the leftmost position that holds
    one. *)
Lemma findDate_spec s :
  match findDate s with
  | Some (d, m, y) =>
      ∃ pre, date_at pre d m y s ∧
             ∀ pre' d' m' y', date_at pre' d' m' y' s → (length pre ≤ length pre')%nat
  | None => ∀ pre d m y, ¬ date_at pre d m y s
  end.
Proof.
  induction s as [|c s IH].
  - simpl. intros pre d m y (post & Hs & Hd & _).
    destruct pre, d as [|? [|? ?]]; simpl in *; done.
  - cbn [findDate]. destruct (dateHere (c :: s)) as [[[d m] y]|] eqn:Hhere.
    + exists []. split; [by apply dateHere_Some|]. intros; simpl; lia.
    + destruct (findDate s) as [[[d m] y]|].
      * destruct IH as (pre & Hpre & Hmin). exists (c :: pre).
        split; [by apply date_at_cons|].
        intros pre' d' m' y' Hd'.
        destruct (date_at_cons_inv _ _ _ _ _ _ Hd') as [->|(pre0 & -> & Hd0)].
        -- apply dateHere_Some in Hd'. congruence.
        -- simpl. specialize (Hmin _ _ _ _ Hd0). lia.
      * intros pre d m y Hd.
        destruct (date_at_cons_inv _ _ _ _ _ _ Hd) as [->|(pre0 & -> & Hd0)].
        -- apply dateHere_Some in Hd. congruence.
        -- by eapply IH.
Qed.

(** ** The match id of the address *)

Lemma takeWhile_app f (run post : list ascii) :
  Forall (λ c, f c = true) run →
  match post with [] => True | c :: _ => f c = false end →
  takeWhile f (run ++ post) = run.
Proof.
  intros Hrun Hpost. induction Hrun as [|c run Hc _ IH]; simpl.
  - destruct post as [|c post]; [done|]. simpl. by rewrite Hpost.
  - by rewrite Hc, IH.
Qed.

Lemma takeWhile_split f (s : list ascii) :
  ∃ post, s = takeWhile f s ++ post ∧
          Forall (λ c, f c = true) (takeWhile f s) ∧
          match post with [] => True | c :: _ => f c = false end.
Proof.
  induction s as [|c s (post & Hs & Hrun & Hpost)]; simpl.
  - exists []. by repeat split.
  - destruct (f c) eqn:Hc.
    + exists post. split; [simpl; by f_equal|]. split; [by constructor | done].
    + exists (c :: s). by repeat split.
Qed.

Lemma idHere_Some s id : idHere s = Some id ↔ id_at [] id s.
Proof.
  unfold idHere, id_at. split.
  - destruct (Services.stripPrefix (text "/stream/") s) as [[|c rest]|] eqn:Hs;
      try done.
    apply stripPrefix_Some in Hs as ->. destruct (isIdChar c) eqn:Hc; [|done].
    intros [= <-]. destruct (takeWhile_split isIdChar rest) as (post & Hrest & Hrun & Hpost).
    exists post. split; [|split; [done|split; [by constructor|done]]].
    simpl. by rewrite <- Hrest.
  - intros (post & Hs & Hne & Hrun & Hpost).
    destruct id as [|c id]; [done|]. apply Forall_cons in Hrun as [Hc Hrun].
    assert (Hstrip : Services.stripPrefix (text "/stream/") s
                     = Some (c :: id ++ post))
      by (apply stripPrefix_Some; exact Hs).
    rewrite Hstrip, Hc. by rewrite takeWhile_app.
Qed.

Lemma id_at_cons c pre id s : id_at (c :: pre) id (c :: s) ↔ id_at pre id s.
Proof.
  unfold id_at. split; intros (post & Hs & ?); exists post; split; try done.
  - simpl in Hs. by injection Hs.
  - simpl. by rewrite Hs.
Qed.

Lemma id_at_cons_inv pre id c s :
  id_at pre id (c :: s) →
  pre = [] ∨ ∃ pre', pre = c :: pre' ∧ id_at pre' id s.
Proof.
  destruct pre as [|c' pre']; [by left|]. intros Hd. right.
  assert (c' = c) as ->.
  { destruct Hd as (post & Hs & _). simpl in Hs. by injection Hs. }
  exists pre'. split; [done|]. by apply id_at_cons in Hd.
Qed.

Lemma id_at_unique pre id id' s : id_at pre id s → id_at pre id' s → id = id'.
Proof.
  intros (post & Hs & _ & Hrun & Hpost) (post' & Hs' & _ & Hrun' & Hpost').
  rewrite Hs in Hs'. do 2 apply app_inv_head in Hs'.
  rewrite <- (takeWhile_app isIdChar id post Hrun Hpost).
  rewrite <- (takeWhile_app isIdChar id' post' Hrun' Hpost'). by rewrite Hs'.
Qed.

Lemma findId_spec s :
  match findId s with
  | Some id =>
      ∃ pre, id_at pre id s ∧
             ∀ pre' id', id_at pre' id' s → (length pre ≤ length pre')%nat
  | None => ∀ pre id, ¬ id_at pre id s
  end.
Proof.
  induction s as [|c s IH].
  - simpl. intros pre id (post & Hs & _). by destruct pre.
  - cbn [findId]. destruct (idHere (c :: s)) as [id|] eqn:Hhere.
    + exists []. split; [by apply idHere_Some|]. intros; simpl; lia.
    + destruct (findId s) as [id|].
      * destruct IH as (pre & Hpre & Hmin). exists (c :: pre).
        split; [by apply id_at_cons|].
        intros pre' id' Hd'.
        destruct (id_at_cons_inv _ _ _ _ Hd') as [->|(pre0 & -> & Hd0)].
        -- apply idHere_Some in Hd'. congruence.
        -- simpl. specialize (Hmin _ _ Hd0). lia.
      * intros pre id Hd.
        destruct (id_at_cons_inv _ _ _ _ Hd) as [->|(pre0 & -> & Hd0)].
        -- apply idHere_Some in Hd. congruence.
        -- by eapply IH.
Qed.

(** ** The separators of the title *)

Lemma splitOnce_Some sep : ∀ s before after,
  splitOnce sep s = Some (before, after) →
  s = before ++ sep ++ after ∧
  ∀ pre' post', s = pre' ++ sep ++ post' → (length before ≤ length pre')%nat.
Proof.
  induction s as [|c s IH]; intros before after; cbn [splitOnce].
  - destruct (Services.stripPrefix sep []) as [rest|] eqn:Hs; [|done].
    intros [= <- <-]. apply stripPrefix_Some in Hs. split; [done|]. intros; simpl; lia.
  - destruct (Services.stripPrefix sep (c :: s)) as [rest|] eqn:Hs.
    + intros [= <- <-]. apply stripPrefix_Some in Hs. split; [done|]. intros; simpl; lia.
    + destruct (splitOnce sep s) as [[b0 r0]|]; [|done]. intros [= <- <-].
      destruct (IH b0 r0 eq_refl) as [-> Hmin]. split; [done|].
      intros pre' post' Heq. destruct pre' as [|c' pre'].
      * simpl in Heq. 
        rewrite (proj2 (stripPrefix_Some sep (c :: b0 ++ sep ++ r0) post') Heq) in Hs.
        done.
      * simpl in *. injection Heq as <- Heq. specialize (Hmin _ _ Heq). lia.
Qed.

Lemma splitOnce_None sep : ∀ s, splitOnce sep s = None → ¬ occurs sep s.
Proof.
  induction s as [|c s IH]; cbn [splitOnce].
  - destruct (Services.stripPrefix sep []) as [rest|] eqn:Hs; [done|].
    intros _ (pre & post & Heq). destruct pre; [|done]. simpl in Heq.
    by rewrite (proj2 (stripPrefix_Some sep [] post) Heq) in Hs.
  - destruct (Services.stripPrefix sep (c :: s)) as [rest|] eqn:Hs; [done|].
    destruct (splitOnce sep s) as [[b0 r0]|] eqn:Hrec; [done|].
    intros _ (pre & post & Heq). destruct pre as [|c' pre].
    + simpl in Heq. by rewrite (proj2 (stripPrefix_Some sep (c :: s) post) Heq) in Hs.
    + simpl in Heq. injection Heq as <- Heq. apply (IH eq_refl). by exists pre, post.
Qed.

Lemma splitOnce_first sep pre s post :
  first_at sep pre s → s = pre ++ sep ++ post →
  splitOnce sep s = Some (pre, post).
Proof.
  intros [_ Hmin] Hs.
  destruct (splitOnce sep s) as [[b r]|] eqn:Hsplit.
  - destruct (splitOnce_Some _ _ _ _ Hsplit) as [Hbr Hmin'].
    assert (Hlen : length b = length pre).
    { specialize (Hmin _ _ Hbr). specialize (Hmin' _ _ Hs). lia. }
    rewrite Hs in Hbr. apply app_inj_1 in Hbr as [-> Hbr]; [|done].
    by apply app_inv_head in Hbr as ->.
  - destruct (splitOnce_None _ _ Hsplit). by exists pre, post.
Qed.

Lemma firstPart_hyphen (a rest : list ascii) :
  "-"%char ∉ a → firstPart (text "-") (a ++ "-"%char :: rest) = a.
Proof.
  intros Hno. unfold firstPart.
  rewrite (splitOnce_first (text "-") a (a ++ "-"%char :: rest) rest); [done| |done].
  split; [by exists rest|]. intros pre' post' Heq.
  destruct (decide (length a ≤ length pre')%nat) as [|Hlt]; [done|].
  exfalso. apply Hno.
  assert (Hlook : (a ++ "-"%char :: rest) !! length pre' = Some "-"%char).
  { rewrite Heq. by rewrite lookup_app_r, Nat.sub_diag by lia. }
  rewrite lookup_app_l in Hlook by lia. by eapply list_elem_of_lookup_2.
Qed.

Lemma firstPart_without sep s : ¬ occurs sep s → firstPart sep s = s.
Proof.
  intros Hno. unfold firstPart.
  destruct (splitOnce sep s) as [[b r]|] eqn:Hsplit; [|done].
  destruct Hno. apply splitOnce_Some in Hsplit as [-> _]. by exists b, r.
Qed.

Lemma occurs_elem c (sep s : list ascii) : c ∈ sep → occurs sep s → c ∈ s.
Proof.
  intros Hc (pre & post & ->). rewrite !elem_of_app. auto.
Qed.

(** A hyphen ends the second part before any further [" vs. "] can. *)
Lemma firstPart_vs_hyphen (away rest : list ascii) :
  "-"%char ∉ away → ¬ occurs (text " vs. ") away →
  ∃ more, firstPart (text " vs. ") (away ++ "-"%char :: rest)
          = away ++ "-"%char :: more.
Proof.
  intros Hno Hvs. unfold firstPart.
  destruct (splitOnce (text " vs. ") (away ++ "-"%char :: rest)) as [[b r]|] eqn:Hsplit;
    [|by exists rest].
  apply splitOnce_Some in Hsplit as [Heq _].
  destruct (decide (length away < length b)%nat) as [Hlt|Hge].
  - exists (take (length b - S (length away)) rest).
    apply (f_equal (take (length b))) in Heq.
    rewrite take_app_length, take_app_ge in Heq by lia.
    replace (length b - length away)%nat
      with (S (length b - S (length away))) in Heq by lia.
    symmetry. exact Heq.
  - exfalso. destruct (decide (length b + 5 ≤ length away)%nat) as [Hin|Hover].
    + apply Hvs. exists b, (take (length away - length b - 5) r).
      apply (f_equal (take (length away))) in Heq.
      rewrite take_app_length, take_app_ge in Heq by lia.
      rewrite take_app_ge in Heq by (simpl; lia).
      simpl length in Heq.
      exact Heq.
    + assert (Hlook : (b ++ text " vs. " ++ r) !! length away = Some "-"%char).
      { rewrite <- Heq. by rewrite lookup_app_r, Nat.sub_diag by lia. }
      rewrite lookup_app_r in Hlook by lia.
      remember (length away - length b)%nat as k eqn:Hk.
      assert (k < 5)%nat as Hk5 by lia. clear -Hlook Hk5.
      do 5 (destruct k as [|k]; [simpl in Hlook; discriminate|]). lia.
Qed.

Section Parse.
Context `{GoStdlib}.

(** X26. The date of [ParseDVV], for a page fetched with the status 200:
    when the page holds a text [dd.mm.yyyy] of decimal digits, the date is
    [yyyy-mm-dd] for the leftmost such text, with no check that it is a
    date of the calendar; when it holds none, the date is the date of the
    day of the call. *)
Theorem ParseDVV_date (today html urlStr : string) :
  let doc := (ParseDVV today (Fetch 200 (Some html)) urlStr).1 in
  (∀ pre d m y,
     date_at pre d m y (text html) →
     (∀ pre' d' m' y', date_at pre' d' m' y' (text html) →
                       (length pre ≤ length pre')%nat) →
     Date doc = string_of_list_ascii y +:+ "-" +:+ string_of_list_ascii m
                +:+ "-" +:+ string_of_list_ascii d) ∧
  ((∀ pre d m y, ¬ date_at pre d m y (text html)) → Date doc = today).
Proof.
  intros doc.
  assert (Hdate : Date doc
    = match findDate (text html) with
      | Some (d, m, y) =>
          string_of_list_ascii y +:+ "-" +:+ string_of_list_ascii m
          +:+ "-" +:+ string_of_list_ascii d
      | None => today
      end).
  { unfold doc, ParseDVV. rewrite decide_False by (intros Hne; by apply Hne).
    destruct (findTitle (text html)) as [title|]; [destruct (teams title)|];
      by destruct (findDate (text html)) as [[[? ?] ?]|]. }
  rewrite Hdate. pose proof (findDate_spec (text html)) as Hspec.
  destruct (findDate (text html)) as [[[d0 m0] y0]|]; split.
  - intros pre d m y Hd Hmin. destruct Hspec as (pre0 & Hd0 & Hmin0).
    assert (Hlen : length pre0 = length pre).
    { specialize (Hmin _ _ _ _ Hd0). specialize (Hmin0 _ _ _ _ Hd). lia. }
    assert (pre0 = pre) as ->.
    { destruct Hd as (post & Hs & _), Hd0 as (post0 & Hs0 & _).
      rewrite Hs in Hs0. by apply app_inj_1 in Hs0 as [? _]. }
    by destruct (date_at_unique _ _ _ _ _ _ _ _ Hd Hd0) as (-> & -> & ->).
  - intros Hnone. destruct Hspec as (pre0 & Hd0 & _). by destruct (Hnone _ _ _ _ Hd0).
  - intros pre d m y Hd _. by destruct (Hspec _ _ _ _ Hd).
  - done.
Qed.

(** X27. The match id of [ParseDVV], for a page fetched with the status
    200, comes from the address alone: it is the longest run of letters,
    digits and hyphens that follows the leftmost [/stream/] followed by such
    a character, and it is empty when the address holds none; the link of
    the result is the address as it was given, and its version is 0. *)
Theorem ParseDVV_matchId (today html urlStr : string) :
  let doc := (ParseDVV today (Fetch 200 (Some html)) urlStr).1 in
  (∀ pre id,
     id_at pre id (text urlStr) →
     (∀ pre' id', id_at pre' id' (text urlStr) → (length pre ≤ length pre')%nat) →
     MatchID doc = string_of_list_ascii id) ∧
  ((∀ pre id, ¬ id_at pre id (text urlStr)) → MatchID doc = "") ∧
  DvvLink doc = urlStr ∧ Version doc = 0%Z.
Proof.
  intros doc.
  assert (Hdoc : MatchID doc
    = match findId (text urlStr) with
      | Some id => string_of_list_ascii id
      | None => ""
      end ∧ DvvLink doc = urlStr ∧ Version doc = 0%Z).
  { unfold doc, ParseDVV. rewrite decide_False by (intros Hne; by apply Hne).
    by destruct (findTitle (text html)) as [title|]; [destruct (teams title)|]. }
  destruct Hdoc as (Hid & Hlink & Hver). rewrite Hid.
  pose proof (findId_spec (text urlStr)) as Hspec.
  destruct (findId (text urlStr)) as [id0|]; (split; [|split; [|done]]).
  - intros pre id Hd Hmin. destruct Hspec as (pre0 & Hd0 & Hmin0).
    assert (Hlen : length pre0 = length pre).
    { specialize (Hmin _ _ Hd0). specialize (Hmin0 _ _ Hd). lia. }
    assert (pre0 = pre) as ->.
    { destruct Hd as (post & Hs & _), Hd0 as (post0 & Hs0 & _).
      rewrite Hs in Hs0. by apply app_inj_1 in Hs0 as [? _]. }
    by rewrite (id_at_unique _ _ _ _ Hd Hd0).
  - intros Hnone. destruct Hspec as (pre0 & Hd0 & _). by destruct (Hnone _ _ Hd0).
  - intros pre id Hd _. by destruct (Hspec _ _ Hd).
  - done.
Qed.

(** X28. The team names of [ParseDVV], for a page whose title was found.
    With a title [home vs. away]: the home team is the trimmed text before
    the first [" vs. "]; the away team is the trimmed text after it when
    that text holds no hyphen and no further [" vs. "], and when a hyphen
    follows, the away team ends before the first hyphen, so a hyphenated
    name is cut.  Without [" vs. "], a title [home - away] with no hyphen in
    [away] gives the two names.  A title without [" vs. "] and without
    [" - "] gives two empty names. *)
Theorem ParseDVV_teams (today html urlStr : string) (title : list ascii) :
  findTitle (text html) = Some title →
  let doc := (ParseDVV today (Fetch 200 (Some html)) urlStr).1 in
  let trimmed (t : list ascii) := strings_TrimSpace (string_of_list_ascii t) in
  (∀ home away rest,
     first_at (text " vs. ") home title →
     title = home ++ text " vs. " ++ away ++ "-"%char :: rest →
     "-"%char ∉ away → ¬ occurs (text " vs. ") away →
     HomeTeam doc = trimmed home ∧ AwayTeam doc = trimmed away) ∧
  (∀ home away,
     first_at (text " vs. ") home title →
     title = home ++ text " vs. " ++ away →
     "-"%char ∉ away → ¬ occurs (text " vs. ") away →
     HomeTeam doc = trimmed home ∧ AwayTeam doc = trimmed away) ∧
  (∀ home away,
     ¬ occurs (text " vs. ") title → first_at (text " - ") home title →
     title = home ++ text " - " ++ away → "-"%char ∉ away →
     HomeTeam doc = trimmed home ∧ AwayTeam doc = trimmed away) ∧
  (¬ occurs (text " vs. ") title → ¬ occurs (text " - ") title →
   HomeTeam doc = "" ∧ AwayTeam doc = "").
Proof.
  intros Htitle doc trimmed.
  assert (Hdoc : (HomeTeam doc, AwayTeam doc) = teams title).
  { unfold doc, ParseDVV. rewrite decide_False by (intros Hne; by apply Hne).
    rewrite Htitle. by destruct (teams title). }
  assert (Hhyphen : ∀ t, "-"%char ∉ t → firstPart (text "-") t = t).
  { intros t Ht. apply firstPart_without. intros Hocc. apply Ht.
    eapply occurs_elem; [|exact Hocc]. by left. }
  split; [|split; [|split]].
  - intros home away rest Hfirst Heq Hno Hvs.
    unfold teams in Hdoc. rewrite (splitOnce_first _ _ _ _ Hfirst Heq) in Hdoc.
    destruct (firstPart_vs_hyphen away rest Hno Hvs) as [more Hmore].
    rewrite Hmore, (firstPart_hyphen away more Hno) in Hdoc.
    by injection Hdoc as -> ->.
  - intros home away Hfirst Heq Hno Hvs.
    unfold teams in Hdoc. rewrite (splitOnce_first _ _ _ _ Hfirst Heq) in Hdoc.
    rewrite (firstPart_without _ _ Hvs), (Hhyphen _ Hno) in Hdoc.
    by injection Hdoc as -> ->.
  - intros home away Hnovs Hfirst Heq Hno.
    unfold teams in Hdoc.
    destruct (splitOnce (text " vs. ") title) as [[b r]|] eqn:Hvs.
    { destruct Hnovs. apply splitOnce_Some in Hvs as [-> _]. by exists b, r. }
    rewrite (splitOnce_first _ _ _ _ Hfirst Heq) in Hdoc.
    assert (Hnodash : ¬ occurs (text " - ") away).
    { intros Hocc. apply Hno. eapply occurs_elem; [|exact Hocc].
      right. by left. }
    rewrite (firstPart_without _ _ Hnodash), (Hhyphen _ Hno) in Hdoc.
    by injection Hdoc as -> ->.
  - intros Hnovs Hnodash. unfold teams in Hdoc.
    destruct (splitOnce (text " vs. ") title) as [[b r]|] eqn:Hvs.
    { destruct Hnovs. apply splitOnce_Some in Hvs as [-> _]. by exists b, r. }
    destruct (splitOnce (text " - ") title) as [[b r]|] eqn:Hdash.
    { destruct Hnodash. apply splitOnce_Some in Hdash as [-> _]. by exists b, r. }
    by injection Hdoc as -> ->.
Qed.

End Parse.

Lemma ParseDVV_date_witness :
  Date (@ParseDVV Examples.exampleStdlib "2024-03-15"
          (Fetch 200 (Some "07.03.2024 Halle")) "u").1 = "2024-03-07".
Proof.
  refine (proj1 (@ParseDVV_date Examples.exampleStdlib "2024-03-15"
                   "07.03.2024 Halle" "u")
            [] (text "07") (text "03") (text "2024") _ _).
  - exists (text " Halle"). split; [reflexivity|].
    split; [reflexivity|]. split; [reflexivity|]. split; [reflexivity|].
    repeat constructor.
  - intros pre' d' m' y' _. simpl. lia.
Defined.

Lemma ParseDVV_matchId_witness :
  MatchID (@ParseDVV Examples.exampleStdlib "2024-03-15"
             (Fetch 200 (Some "x")) "/stream/ab-1?x=1").1 = "ab-1".
Proof.
  refine (proj1 (@ParseDVV_matchId Examples.exampleStdlib "2024-03-15"
                   "x" "/stream/ab-1?x=1")
            [] (text "ab-1") _ _).
  - exists (text "?x=1"). split; [reflexivity|]. split; [discriminate|].
    split; [repeat constructor|reflexivity].
  - intros pre' id' _. simpl. lia.
Defined.

Lemma ParseDVV_teams_witness :
  let doc := (@ParseDVV Examples.exampleStdlib "2024-03-15"
                (Fetch 200 (Some "<title>A vs. B-C - T</title>")) "u").1 in
  HomeTeam doc = "A" ∧ AwayTeam doc = "B".
Proof.
  refine (proj1 (@ParseDVV_teams Examples.exampleStdlib "2024-03-15"
                   "<title>A vs. B-C - T</title>" "u" (text "A vs. B-C - T") _)
            (text "A") (text "B") (text "C - T") _ _ _ _).
  - vm_compute. reflexivity.
  - split; [by exists (text "B-C - T")|].
    intros [|c pre'] post' Heq; [discriminate Heq|simpl; lia].
  - reflexivity.
  - intros Hin. apply list_elem_of_singleton in Hin. discriminate Hin.
  - intros (pre & post & Heq). apply (f_equal length) in Heq.
    rewrite length_app in Heq. simpl in Heq. lia.
Defined.

(** A page of the ticker, and what is read from it. *)
Example ParseDVV_page :
  @ParseDVV Examples.exampleStdlib "2024-03-15"
    (Fetch 200 (Some "<html><title>TSV Heim vs. SG Rot-Weiss Gast - DVV Ticker</title>Spiel am 07.03.2024</html>"))
    "https://dvv.sams-ticker.de/stream/3f2a-77b1?x=1"
  = ({| Version := 0; LastUpdated := ""; HomeTeam := "TSV Heim";
        AwayTeam := "SG Rot"; Date := "2024-03-07";
        DvvLink := "https://dvv.sams-ticker.de/stream/3f2a-77b1?x=1";
        MatchID := "3f2a-77b1" |}, None).
Proof. vm_compute. reflexivity. Qed.

End ParseTheory.
